(** * OpenHue token pipeline: a shallow embedding and its checked properties

    The development follows the TypeScript sources file by file:
    - [src/tokens/colors.ts]   colour formatting, file headers, index and app files;
    - [src/tokens/config.ts]   the configuration record, its defaults and [mergeConfig];
    - [src/tokens/openprops.ts] the Open Props adapter, the semantic and palette renderers;
    - [src/tokens/index.ts]    the orchestrator [generateTokens];
    - [src/generator.ts]       [generateTheme] and [isValidHexColor].

    A JavaScript string is modelled by Rocq's [string]: a sequence of code
    units in the ASCII range, which is where seeds, configuration keys and
    the stylesheets of Open Props live.  Objects used as dictionaries are
    [gmap string _].  What the sources import from npm packages or from the
    platform (the colour engine, culori's colour-space conversion, the
    clock, the network, the file system) is an explicit input of the model. *)

From Stdlib Require Import String Ascii List ZArith QArith Qround Qabs Bool Lia.
From Stdlib Require Import DecimalString DecimalN.
From stdpp Require Import base option list gmap strings.

Close Scope Q_scope.
Open Scope Z_scope.
Open Scope nat_scope.

(* ===================================================================== *)
(** * 1. Strings as JavaScript has them                                    *)
(* ===================================================================== *)

Module JS.

(** Characters that cannot be typed inside a Rocq string literal here. *)
Definition dquote : ascii := ascii_of_nat 34.
Definition dq : string := String dquote EmptyString.
Definition nl : string := String (ascii_of_nat 10) EmptyString.

Definition code (c : ascii) : nat := nat_of_ascii c.

Definition in_range (lo hi : nat) (c : ascii) : bool :=
  (lo <=? code c) && (code c <=? hi).

Definition is_digit (c : ascii) : bool := in_range 48 57 c.
Definition is_lower (c : ascii) : bool := in_range 97 122 c.
Definition is_upper (c : ascii) : bool := in_range 65 90 c.
Definition is_alpha (c : ascii) : bool := is_lower c || is_upper c.

(** [\s] of a regular expression on the ASCII range:
    TAB, LF, VT, FF, CR and SPACE. *)
Definition is_space (c : ascii) : bool :=
  in_range 9 13 c || (code c =? 32).

(** Line terminators, after which [^] matches under the [m] flag. *)
Definition is_line_terminator (c : ascii) : bool :=
  (code c =? 10) || (code c =? 13).

Definition upper_char (c : ascii) : ascii :=
  if is_lower c then ascii_of_nat (code c - 32) else c.

(** [String.prototype.toUpperCase]. *)
Fixpoint toUpperCase (s : string) : string :=
  match s with
  | EmptyString => EmptyString
  | String c s' => String (upper_char c) (toUpperCase s')
  end.

(** [String.prototype.startsWith]. *)
Fixpoint startsWith (s p : string) {struct p} : bool :=
  match p with
  | EmptyString => true
  | String c p' =>
      match s with
      | String d s' => Ascii.eqb d c && startsWith s' p'
      | EmptyString => false
      end
  end.

(** [s.slice(0, n)] for a non-negative [n]. *)
Fixpoint slice0 (n : nat) (s : string) : string :=
  match n, s with
  | O, _ => EmptyString
  | S k, EmptyString => EmptyString
  | S k, String c s' => String c (slice0 k s')
  end.

(** [s.slice(n)] for a non-negative [n]. *)
Fixpoint sliceFrom (n : nat) (s : string) : string :=
  match n, s with
  | O, _ => s
  | S k, EmptyString => EmptyString
  | S k, String _ s' => sliceFrom k s'
  end.

(** [s.charAt(0)]: the empty string when [s] is empty. *)
Definition charAt0 (s : string) : string :=
  match s with
  | EmptyString => EmptyString
  | String c _ => String c EmptyString
  end.

(** [s.replace(c, r)] with a one-character string pattern [c]: only the
    first occurrence is replaced.  It is used with a replacement that holds
    no dollar sign. *)
Fixpoint replaceChar (c : ascii) (r : string) (s : string) : string :=
  match s with
  | EmptyString => EmptyString
  | String d s' => if Ascii.eqb d c then r +:+ s' else String d (replaceChar c r s')
  end.

(** [lines.join(sep)]. *)
Definition join (sep : string) (l : list string) : string := String.concat sep l.

(** [s.split(c)] with a one-character separator. *)
Fixpoint split_go (c : ascii) (cur : string) (s : string) : list string :=
  match s with
  | EmptyString => [String.rev cur]
  | String d s' =>
      if Ascii.eqb d c then String.rev cur :: split_go c EmptyString s'
      else split_go c (String d cur) s'
  end.
Definition split (c : ascii) (s : string) : list string := split_go c EmptyString s.

(** [String.prototype.trim] on the ASCII range. *)
Fixpoint trimStart (l : list ascii) : list ascii :=
  match l with
  | c :: l' => if is_space c then trimStart l' else l
  | [] => []
  end.
Definition trimList (l : list ascii) : list ascii :=
  rev (trimStart (rev (trimStart l))).
Definition trim (s : string) : string :=
  string_of_list_ascii (trimList (list_ascii_of_string s)).

(** [String(n)] for an integer-valued number of magnitude below [10^21],
    where JavaScript prints all the digits; minus zero prints as [0]. *)
Definition natToString (n : N) : string :=
  NilEmpty.string_of_uint (N.to_uint n).

Definition intToString (z : Z) : string :=
  match z with
  | Z0 => "0"
  | Zpos p => natToString (Npos p)
  | Zneg p => String "-" (natToString (Npos p))
  end.

(** [Math.round]: the nearest integer, a tie going up. *)
Definition round (x : Q) : Z := Qfloor (Qplus x (1 # 2)).

End JS.

(* ===================================================================== *)
(** * 2. Regular expressions, as the sources use them                      *)
(* ===================================================================== *)

(** The sources rewrite text with [String.prototype.replace] and
    [String.prototype.match] over regular-expression literals.  The
    fragment they use is: literal text, character classes, greedy [*], [+]
    and [?] over one character class, alternation, capturing and
    non-capturing groups, and [^] under the [m] flag.  Matching is the
    backtracking search of the language: leftmost match, each alternative
    tried in order, each quantifier greedy. *)

Module Regex.

Inductive regex : Type :=
| Lit (s : string)                  (* literal text *)
| Cls (p : ascii -> bool)           (* one character of a class *)
| Star (p : ascii -> bool)          (* [c*], greedy *)
| Plus (p : ascii -> bool)          (* [c+], greedy *)
| Opt (p : ascii -> bool)           (* [c?], greedy *)
| Bol                               (* [^] under the m flag *)
| Seq (a b : regex)
| Alt (a b : regex)
| Grp (n : nat) (a : regex).        (* capturing group number n *)

(** Captures: group number to the text it matched last. *)
Definition captures := list (nat * list ascii).

Fixpoint capture (n : nat) (cs : captures) : option (list ascii) :=
  match cs with
  | [] => None
  | (k, t) :: cs' => if Nat.eqb k n then Some t else capture n cs'
  end.

(** A continuation receives the character before the current position,
    the rest of the input and the captures so far. *)
Definition cont (R : Type) := option ascii -> list ascii -> captures -> option R.

Fixpoint lit {R} (t : list ascii) (prev : option ascii) (s : list ascii)
    (cs : captures) (k : cont R) : option R :=
  match t with
  | [] => k prev s cs
  | c :: t' =>
      match s with
      | d :: s' => if Ascii.eqb c d then lit t' (Some d) s' cs k else None
      | [] => None
      end
  end.

(** Greedy star over a class: take as many characters as possible, and
    give them back one at a time while the continuation fails. *)
Fixpoint star {R} (p : ascii -> bool) (prev : option ascii) (s : list ascii)
    (cs : captures) (k : cont R) : option R :=
  match s with
  | c :: s' =>
      if p c then
        match star p (Some c) s' cs k with
        | Some r => Some r
        | None => k prev s cs
        end
      else k prev s cs
  | [] => k prev s cs
  end.

Definition at_line_start (prev : option ascii) : bool :=
  match prev with
  | None => true
  | Some c => JS.is_line_terminator c
  end.

Fixpoint run {R} (r : regex) (prev : option ascii) (s : list ascii)
    (cs : captures) (k : cont R) : option R :=
  match r with
  | Lit t => lit (list_ascii_of_string t) prev s cs k
  | Cls p =>
      match s with
      | c :: s' => if p c then k (Some c) s' cs else None
      | [] => None
      end
  | Star p => star p prev s cs k
  | Plus p =>
      match s with
      | c :: s' => if p c then star p (Some c) s' cs k else None
      | [] => None
      end
  | Opt p =>
      match s with
      | c :: s' =>
          if p c then
            match k (Some c) s' cs with
            | Some r => Some r
            | None => k prev s cs
            end
          else k prev s cs
      | [] => k prev s cs
      end
  | Bol => if at_line_start prev then k prev s cs else None
  | Seq a b => run a prev s cs (fun prev' s' cs' => run b prev' s' cs' k)
  | Alt a b =>
      match run a prev s cs k with
      | Some r => Some r
      | None => run b prev s cs k
      end
  | Grp n a =>
      run a prev s cs
        (fun prev' s' cs' =>
           k prev' s' ((n, firstn (length s - length s') s) :: cs'))
  end.

(** A match found at the current position: the captures and the input
    left after the matched text. *)
Definition match_at (r : regex) (prev : option ascii) (s : list ascii)
  : option (captures * list ascii) :=
  run r prev s [] (fun _ s' cs => Some (cs, s')).

(** What a successful search returns. *)
Record found : Type := Found {
  before : list ascii;      (* the input before the match *)
  matched : list ascii;     (* the matched text *)
  groups : captures;
  after : list ascii        (* the input after the match *)
}.

(** The leftmost match at or after the current position; [pre] is the
    input already passed, in reverse. *)
Fixpoint search (r : regex) (pre : list ascii) (prev : option ascii)
    (s : list ascii) : option found :=
  match match_at r prev s with
  | Some (cs, rest) =>
      Some (Found (rev pre) (firstn (length s - length rest) s) cs rest)
  | None =>
      match s with
      | [] => None
      | c :: s' => search r (c :: pre) (Some c) s'
      end
  end.

(** [s.match(r)] for a regular expression without the [g] flag. *)
Definition exec (r : regex) (s : list ascii) : option found :=
  search r [] None s.

(** ** Replacement templates

    The second argument of [replace], when it is a string, is a template:
    [$$] is a dollar sign, [$&] the matched text, [$`] and [$'] the input
    before and after the match, [$n] and [$nn] the capture with that
    number when the expression has that many groups; any other dollar
    sign stands for itself.  [ngroups] is the number of capturing groups
    of the expression. *)

Definition digit_val (c : ascii) : nat := JS.code c - 48.

Definition group_text (n : nat) (m : found) : list ascii :=
  match capture n (groups m) with
  | Some t => t
  | None => []
  end.

Fixpoint expand (ngroups : nat) (m : found) (t : list ascii) : list ascii :=
  match t with
  | [] => []
  | c :: t1 =>
      if negb (Ascii.eqb c "$") then c :: expand ngroups m t1
      else
        match t1 with
        | [] => [c]
        | d :: t2 =>
            if Ascii.eqb d "$" then d :: expand ngroups m t2
            else if Ascii.eqb d "&" then matched m ++ expand ngroups m t2
            else if Ascii.eqb d "`" then before m ++ expand ngroups m t2
            else if Ascii.eqb d "'" then after m ++ expand ngroups m t2
            else if JS.is_digit d then
              let one := digit_val d in
              match t2 with
              | e :: t3 =>
                  let two := 10 * one + digit_val e in
                  if JS.is_digit e && (two <=? ngroups) then
                    if 1 <=? two then group_text two m ++ expand ngroups m t3
                    else c :: d :: e :: expand ngroups m t3
                  else if (1 <=? one) && (one <=? ngroups)
                       then group_text one m ++ expand ngroups m t2
                       else c :: d :: expand ngroups m t2
              | [] =>
                  if (1 <=? one) && (one <=? ngroups)
                  then group_text one m
                  else [c; d]
              end
            else c :: expand ngroups m t1
        end
  end.

(** [s.replace(r, template)] with the [g] flag: every match, left to
    right, the search resuming where the previous match ended (one
    character further after an empty match).  [skip] counts the
    characters of the current match still to pass. *)
Fixpoint replace_go (r : regex) (ngroups : nat) (tmpl : list ascii)
    (skip : nat) (pre : list ascii) (prev : option ascii) (s : list ascii)
  : list ascii :=
  match skip with
  | S k =>
      match s with
      | [] => []
      | c :: s' => replace_go r ngroups tmpl k (c :: pre) (Some c) s'
      end
  | O =>
      match match_at r prev s with
      | Some (cs, rest) =>
          let n := length s - length rest in
          let m := Found (rev pre) (firstn n s) cs rest in
          expand ngroups m tmpl ++
          match s with
          | [] => []
          | c :: s' =>
              match n with
              | O => c :: replace_go r ngroups tmpl 0 (c :: pre) (Some c) s'
              | S k => replace_go r ngroups tmpl k (c :: pre) (Some c) s'
              end
          end
      | None =>
          match s with
          | [] => []
          | c :: s' => c :: replace_go r ngroups tmpl 0 (c :: pre) (Some c) s'
          end
      end
  end.

Definition replaceAll (r : regex) (ngroups : nat) (tmpl : string) (s : string)
  : string :=
  string_of_list_ascii
    (replace_go r ngroups (list_ascii_of_string tmpl) 0 [] None
       (list_ascii_of_string s)).

(** [s.replace(r, template)] without the [g] flag: the first match only. *)
Definition replaceFirst (r : regex) (ngroups : nat) (tmpl : string) (s : string)
  : string :=
  match exec r (list_ascii_of_string s) with
  | Some m =>
      string_of_list_ascii
        (before m ++ expand ngroups m (list_ascii_of_string tmpl) ++ after m)
  | None => s
  end.

End Regex.

(* ===================================================================== *)
(** * 3. Errors                                                            *)
(* ===================================================================== *)

(** A function that can throw returns [Ok] or the message of the [Error]
    it throws. *)
Inductive result (A : Type) : Type :=
| Ok (a : A)
| Err (msg : string).
Arguments Ok {A} a.
Arguments Err {A} msg.

Definition rbind {A B} (x : result A) (f : A -> result B) : result B :=
  match x with
  | Ok a => f a
  | Err e => Err e
  end.

Notation "'let*' x ':=' c 'in' k" := (rbind c (fun x => k))
  (at level 10, x pattern, c at level 100, k at level 200).

Definition is_ok {A} (x : result A) : bool :=
  match x with Ok _ => true | Err _ => false end.

(** A whole list of fallible steps, stopping at the first failure. *)
Fixpoint rmap {A B} (f : A -> result B) (l : list A) : result (list B) :=
  match l with
  | [] => Ok []
  | a :: l' =>
      let* b := f a in
      let* bs := rmap f l' in
      Ok (b :: bs)
  end.

(* ===================================================================== *)
(** * 4. [src/tokens/colors.ts]: colour formats                            *)
(* ===================================================================== *)

(** What culori's [oklch] returns: the hue is missing for an achromatic
    colour, hence the [?? 0] of the source on each channel. *)
Record Oklch : Type := {
  ok_l : option Q;
  ok_c : option Q;
  ok_h : option Q
}.

(** The colour library (the npm package culori).  Its colour-space
    mathematics is no part of the sources; each function is [None] where
    the library returns [undefined], that is when the text is no colour. *)
Record Culori : Type := {
  (** [oklch(parse(text))], [None] when [parse] fails *)
  culori_oklch : string -> option Oklch;
  culori_formatHsl : string -> option string;
  culori_formatRgb : string -> option string;
  (** [formatHex] on a text that is not in hexadecimal notation *)
  culori_formatHex_other : string -> option string
}.

Module Hex.

Definition is_hex_digit (c : ascii) : bool :=
  JS.is_digit c || JS.in_range 97 102 c || JS.in_range 65 70 c.

Definition lower_char (c : ascii) : ascii :=
  if JS.is_upper c then ascii_of_nat (JS.code c + 32) else c.

Fixpoint toLowerCase (s : string) : string :=
  match s with
  | EmptyString => EmptyString
  | String c s' => String (lower_char c) (toLowerCase s')
  end.

Fixpoint all_hex (s : string) : bool :=
  match s with
  | EmptyString => true
  | String c s' => is_hex_digit c && all_hex s'
  end.

(** The digits of a text in hexadecimal notation: an optional [#], then
    three or six hexadecimal digits. *)
Definition hex_digits (s : string) : option string :=
  let body := match s with
              | String "#" s' => s'
              | _ => s
              end in
  if all_hex body && ((String.length body =? 3) || (String.length body =? 6))
  then Some body else None.

(** Three digits stand for six, each one doubled. *)
Fixpoint double_each (s : string) : string :=
  match s with
  | EmptyString => EmptyString
  | String c s' => String c (String c (double_each s'))
  end.

Definition six_digits (body : string) : string :=
  if String.length body =? 3 then double_each body else body.

End Hex.

(** Modelled from the spec: culori's [formatHex] is a function of the npm
    package culori, which is not among the sources.  The spec gives the
    canonical form of a colour as [#RRGGBB], re-derivable regardless of
    input casing or of a leading [#], from a validated 6-or-3-hex-digit
    string; the library returns it in lower case, which is why
    [normalizeHex] upper-cases the result.  On any other text the answer
    is the library's own ([culori_formatHex_other]). *)
Definition culori_formatHex (lib : Culori) (text : string) : option string :=
  match Hex.hex_digits text with
  | Some body => Some (String "#" (Hex.toLowerCase (Hex.six_digits body)))
  | None => culori_formatHex_other lib text
  end.

Inductive ColorFormat : Type := oklch | hex | hsl | rgb.

Definition ColorFormat_name (f : ColorFormat) : string :=
  match f with
  | oklch => "oklch"
  | hex => "hex"
  | hsl => "hsl"
  | rgb => "rgb"
  end.

Module Num.

(** The [double] that the literal [0.001] denotes. *)
Definition lit_0_001 : Q := 1152921504606847 # 1152921504606846976.

Definition pow10 (f : nat) : Z := 10 ^ Z.of_nat f.

(** The integer [n] for which [n / 10^f] is nearest to [x >= 0]; of two
    such integers the larger one. *)
Definition scaled (f : nat) (x : Q) : Z :=
  Qfloor (Qplus (Qmult x (inject_Z (pow10 f))) (1 # 2)).

Fixpoint zeros (n : nat) : string :=
  match n with
  | O => EmptyString
  | S k => String "0" (zeros k)
  end.

(** [x.toFixed(f)] for a finite [x] of magnitude below [10^21]: the sign,
    the digits of the scaled integer padded to [f + 1] digits, and a point
    before the last [f] of them. *)
Definition toFixed (f : nat) (x : Q) : string :=
  let neg := match Qcompare x 0 with Lt => true | _ => false end in
  let n := scaled f (Qabs x) in
  let m := JS.intToString n in
  let m := if String.length m <=? f then zeros (f + 1 - String.length m) +:+ m else m in
  let k := String.length m in
  let body :=
    match f with
    | O => m
    | _ => JS.slice0 (k - f) m +:+ "." +:+ JS.sliceFrom (k - f) m
    end in
  if neg then String "-" body else body.

Definition Qltb (x y : Q) : bool :=
  match Qcompare x y with Lt => true | _ => false end.

End Num.

Definition or0 (x : option Q) : Q :=
  match x with Some v => v | None => 0%Q end.

(** [hexToOklch]: the text [oklch(L C H)]. *)
Definition hexToOklch (lib : Culori) (hex : string) : result string :=
  match culori_oklch lib hex with
  | None => Err ("Invalid hex color: " +:+ hex)
  | Some oklchColor =>
      let l := or0 (ok_l oklchColor) in
      let c := or0 (ok_c oklchColor) in
      let h := or0 (ok_h oklchColor) in
      if Num.Qltb c Num.lit_0_001 then
        Ok ("oklch(" +:+ Num.toFixed 2 l +:+ " 0 0)")
      else
        Ok ("oklch(" +:+ Num.toFixed 2 l +:+ " " +:+ Num.toFixed 3 c +:+ " "
             +:+ JS.intToString (JS.round h) +:+ ")")
  end.

(** A formatted text is falsy when the library returned [undefined], and
    also when it is the empty string. *)
Definition truthy_text (o : option string) : option string :=
  match o with
  | Some EmptyString => None
  | _ => o
  end.

Definition hexToHsl (lib : Culori) (hex : string) : result string :=
  match truthy_text (culori_formatHsl lib hex) with
  | Some formatted => Ok formatted
  | None => Err ("Invalid hex color: " +:+ hex)
  end.

Definition hexToRgb (lib : Culori) (hex : string) : result string :=
  match truthy_text (culori_formatRgb lib hex) with
  | Some formatted => Ok formatted
  | None => Err ("Invalid hex color: " +:+ hex)
  end.

Definition normalizeHex (lib : Culori) (hex : string) : result string :=
  match truthy_text (culori_formatHex lib hex) with
  | Some formatted => Ok (JS.toUpperCase formatted)
  | None => Err ("Invalid hex color: " +:+ hex)
  end.

Definition formatColor (lib : Culori) (hexv : string) (format : ColorFormat)
  : result string :=
  match format with
  | oklch => hexToOklch lib hexv
  | hsl => hexToHsl lib hexv
  | rgb => hexToRgb lib hexv
  | hex => normalizeHex lib hexv
  end.

Definition getHue (lib : Culori) (hex : string) : result Q :=
  match culori_oklch lib hex with
  | None => Err ("Invalid hex color: " +:+ hex)
  | Some oklchColor => Ok (or0 (ok_h oklchColor))
  end.

(* ===================================================================== *)
(** * 5. [src/tokens/config.ts]: configuration and its defaults            *)
(* ===================================================================== *)

Record Prefixes : Type := {
  primitives : string;   (* Open Props: --op-* *)
  palette : string;      (* Material palettes: --md-* *)
  semantic : string      (* Semantic tokens: --ui-* *)
}.

Record OutputConfig : Type := {
  dir : string;
  paletteSubdir : string;
  openpropsSubdir : string
}.

Record OpenPropsConfig : Type := {
  baseUrl : string;
  files : list string
}.

(** A [Record<string, string>]: short name to raw value or token name. *)
Abbreviation Tokens := (gmap string string).

(** [SemanticConfig]: category name to its tokens.  The type names eight
    categories; the object a caller passes may hold fewer. *)
Abbreviation SemanticConfig := (gmap string (gmap string string)).

Record TokenConfig : Type := {
  format : ColorFormat;
  prefixes : Prefixes;
  output : OutputConfig;
  openprops : OpenPropsConfig;
  semanticTokens : SemanticConfig    (* the field [semantic] *)
}.

(** [Partial<TokenConfig>] as the code uses it: every field may be
    missing, and so may the fields of the nested objects, which
    [generateTokens] itself builds partially. *)
Record UserPrefixes : Type := {
  u_primitives : option string;
  u_palette : option string;
  u_semantic : option string
}.

Record UserOutput : Type := {
  u_dir : option string;
  u_paletteSubdir : option string;
  u_openpropsSubdir : option string
}.

Record UserOpenProps : Type := {
  u_baseUrl : option string;
  u_files : option (list string)
}.

Record UserConfig : Type := {
  u_format : option ColorFormat;
  u_prefixes : option UserPrefixes;
  u_output : option UserOutput;
  u_openprops : option UserOpenProps;
  u_semanticTokens : option SemanticConfig
}.

Definition empty_UserConfig : UserConfig :=
  {| u_format := None; u_prefixes := None; u_output := None;
     u_openprops := None; u_semanticTokens := None |}.

Definition tokens_of (l : list (string * string)) : gmap string string :=
  list_to_map l.

Definition DEFAULT_SEMANTIC : SemanticConfig :=
  list_to_map
    [ ("space", tokens_of
         [("xs", "size-2"); ("sm", "size-3"); ("md", "size-4");
          ("lg", "size-5"); ("xl", "size-6"); ("2xl", "size-7")]);
      ("radius", tokens_of
         [("none", "0"); ("sm", "radius-2"); ("md", "radius-3");
          ("lg", "radius-4"); ("full", "radius-round")]);
      ("shadow", tokens_of
         [("sm", "shadow-2"); ("md", "shadow-3"); ("lg", "shadow-4");
          ("xl", "shadow-5")]);
      ("weight", tokens_of
         [("light", "font-weight-3"); ("normal", "font-weight-4");
          ("medium", "font-weight-5"); ("semibold", "font-weight-6");
          ("bold", "font-weight-7")]);
      ("leading", tokens_of
         [("none", "1"); ("tight", "font-lineheight-1");
          ("snug", "font-lineheight-2"); ("normal", "font-lineheight-3");
          ("relaxed", "font-lineheight-4"); ("loose", "font-lineheight-5")]);
      ("duration", tokens_of
         [("instant", "0ms"); ("fast", "150ms"); ("normal", "300ms");
          ("slow", "500ms")]);
      ("ease", tokens_of
         [("linear", "ease-1"); ("default", "ease-2"); ("in", "ease-in-2");
          ("out", "ease-out-2"); ("in-out", "ease-in-out-2")]);
      ("layer", tokens_of
         [("base", "1"); ("raised", "10"); ("dropdown", "100");
          ("sticky", "500"); ("modal", "1000"); ("toast", "2000")]) ].

Definition DEFAULT_CONFIG : TokenConfig :=
  {| format := oklch;
     prefixes := {| primitives := "op"; palette := "md"; semantic := "ui" |};
     output := {| dir := "./tokens"; paletteSubdir := "material";
                  openpropsSubdir := "open-props" |};
     openprops :=
       {| baseUrl := "https://raw.githubusercontent.com/argyleink/open-props/main/src";
          files := ["fonts"; "sizes"; "shadows"; "borders"; "easings"] |};
     semanticTokens := DEFAULT_SEMANTIC |}.

(** [d] unless the user gave a value. *)
Definition over {A} (d : A) (u : option A) : A :=
  match u with Some v => v | None => d end.

(** A field of a nested user object that may itself be missing. *)
Definition field {A B} (u : option A) (f : A -> option B) : option B :=
  match u with Some a => f a | None => None end.

(** [mergeConfig]: the top level is spread, and each of the four nested
    objects is spread one level deep. *)
Definition mergeConfig (userConfig : UserConfig) : TokenConfig :=
  {| format := over (format DEFAULT_CONFIG) (u_format userConfig);
     prefixes :=
       {| primitives := over (primitives (prefixes DEFAULT_CONFIG))
                             (field (u_prefixes userConfig) u_primitives);
          palette := over (palette (prefixes DEFAULT_CONFIG))
                          (field (u_prefixes userConfig) u_palette);
          semantic := over (semantic (prefixes DEFAULT_CONFIG))
                           (field (u_prefixes userConfig) u_semantic) |};
     output :=
       {| dir := over (dir (output DEFAULT_CONFIG))
                      (field (u_output userConfig) u_dir);
          paletteSubdir := over (paletteSubdir (output DEFAULT_CONFIG))
                                (field (u_output userConfig) u_paletteSubdir);
          openpropsSubdir := over (openpropsSubdir (output DEFAULT_CONFIG))
                                  (field (u_output userConfig) u_openpropsSubdir) |};
     openprops :=
       {| baseUrl := over (baseUrl (openprops DEFAULT_CONFIG))
                          (field (u_openprops userConfig) u_baseUrl);
          files := over (files (openprops DEFAULT_CONFIG))
                        (field (u_openprops userConfig) u_files) |};
     semanticTokens :=
       match u_semanticTokens userConfig with
       | Some user => user ∪ semanticTokens DEFAULT_CONFIG
       | None => semanticTokens DEFAULT_CONFIG
       end |}.

(* ===================================================================== *)
(** * 6. [src/tokens/css.ts]: headers, index.css and app.css               *)
(* ===================================================================== *)

(** The clock is read as [new Date().toISOString()], a text such as
    [2024-01-02T03:04:05.678Z]; the sources keep its first nineteen
    characters, the [T] replaced by a space. *)
Definition timestamp_of (iso : string) : string :=
  JS.slice0 19 (JS.replaceChar "T" " " iso).

(** An optional string argument counts when it is given and not empty. *)
Definition given (o : option string) : option string := truthy_text o.

Definition generateHeader (now : string) (title : string)
    (source description : option string) : string :=
  let timestamp := timestamp_of now in
  let lines :=
    ["/**"; " * " +:+ title]
    ++ match given source with
       | Some s => [" * Source: " +:+ s]
       | None => []
       end
    ++ [" * Generated: " +:+ timestamp]
    ++ match given description with
       | Some d => " *" :: map (fun line => " * " +:+ line) (JS.split (ascii_of_nat 10) d)
       | None => []
       end
    ++ [" *"; " * DO NOT EDIT - Regenerate with: bun src/index.ts tokens"; " */"; ""] in
  JS.join JS.nl lines.

(** [Array.prototype.sort] without a comparator: by code units. *)
Fixpoint insert_sorted (x : string) (l : list string) : list string :=
  match l with
  | [] => [x]
  | y :: l' => if String.leb x y then x :: l else y :: insert_sorted x l'
  end.
Definition sort_strings (l : list string) : list string :=
  fold_right insert_sorted [] l.

Definition generateIndexCSS (now : string) (openPropsFiles : list string)
    (prefixes : Prefixes) (paletteSubdir openpropsSubdir : string) : string :=
  let sortedFiles := sort_strings openPropsFiles in
  let header :=
    generateHeader now "Tokens Layer - Main Entry Point" None
      (Some ("Prefix Legend:
  --" +:+ palette prefixes +:+ "-palette-* = Material Design palettes (raw color steps)
  --" +:+ primitives prefixes +:+ "-*      = Open Props primitives (raw values)
  --" +:+ semantic prefixes +:+ "-*        = Application tokens (USE THESE!)

Tier 1: Warehouses (Primitives)
Tier 2: Showroom (Semantic)
Tier 3: App-Specific (manual)")) in
  let lines :=
    [header;
     "/* === Tier 1: Warehouses (Primitives) === */";
     "@import " +:+ JS.dq +:+ "./" +:+ paletteSubdir +:+ "/palettes.css" +:+ JS.dq +:+ ";"]
    ++ map (fun name => "@import " +:+ JS.dq +:+ "./" +:+ openpropsSubdir +:+ "/"
                        +:+ name +:+ ".css" +:+ JS.dq +:+ ";") sortedFiles
    ++ [""; "/* === Tier 2: Showroom (Semantic) === */";
        "@import " +:+ JS.dq +:+ "./semantic.css" +:+ JS.dq +:+ ";";
        ""; "/* === Tier 3: App-Specific === */";
        "@import " +:+ JS.dq +:+ "./app.css" +:+ JS.dq +:+ ";";
        ""] in
  JS.join JS.nl lines.

Definition generateAppCSS : string :=
"/**
 * App-Specific Tokens
 *
 * This file is NOT generated. Add custom tokens here.
 * These tokens are specific to your application.
 */

:root {
  /* Layout */
  --sidebar-width: 240px;
  --sidebar-width-collapsed: 64px;
  --header-height: 56px;

  /* Container Widths */
  --container-sm: 640px;
  --container-md: 768px;
  --container-lg: 1024px;
  --container-xl: 1280px;
}
".

(* ===================================================================== *)
(** * 7. [src/tokens/openprops.ts]: the Open Props adapter                 *)
(* ===================================================================== *)

(** ** Reading a property of an object literal

    [OPENPROPS_SOURCE_FILES[fileName]] reads a property of an object
    literal: its own property when it has one by that name, and otherwise
    what the object inherits from [Object.prototype]. *)

Inductive JSValue : Type :=
| VString (s : string)          (* an own property of the literal *)
| VInherited (name : string).   (* a member of [Object.prototype] *)

Definition OBJECT_PROTOTYPE_KEYS : list string :=
  ["constructor"; "hasOwnProperty"; "isPrototypeOf"; "propertyIsEnumerable";
   "toLocaleString"; "toString"; "valueOf"; "__proto__";
   "__defineGetter__"; "__defineSetter__"; "__lookupGetter__"; "__lookupSetter__"].

Definition object_get (own : gmap string string) (key : string) : option JSValue :=
  match own !! key with
  | Some s => Some (VString s)
  | None =>
      if bool_decide (key ∈ OBJECT_PROTOTYPE_KEYS) then Some (VInherited key)
      else None
  end.

(** [!v]: [undefined] and the empty string are falsy, functions and
    objects are truthy. *)
Definition falsy (v : option JSValue) : bool :=
  match v with
  | None => true
  | Some (VString EmptyString) => true
  | Some _ => false
  end.

(** The text of a value inside a template literal.  How a built-in
    function prints is the runtime's business ([native_text]). *)
Definition value_text (native_text : string -> string) (v : JSValue) : string :=
  match v with
  | VString s => s
  | VInherited name => native_text name
  end.

(** Open Props file name to source path mapping. *)
Definition OPENPROPS_SOURCE_FILES : gmap string string :=
  list_to_map
    [ ("fonts", "props.fonts.css");
      ("sizes", "props.sizes.css");
      ("shadows", "props.shadows.css");
      ("borders", "props.borders.css");
      ("easings", "props.easing.css");
      ("animations", "props.animations.css");
      ("aspects", "props.aspects.css");
      ("zindex", "props.zindex.css") ].

(** ** The network

    [fetch(url)] either rejects (no connection, or the abort that the
    thirty-second timer triggers) or resolves to a response.  A run
    threads the list of the requests it has initiated. *)
Record Response : Type := {
  resp_ok : bool;
  resp_status : nat;
  resp_text : string
}.

(** What the platform does with the write of a text to a path that is
    no directory: it accepts it; it refuses it before anything is written
    (no permission, a read-only file); or the write breaks on the way (a
    full disk) and the file is left with what got through. *)
Inductive Verdict : Type :=
| Accepted
| Refused
| Broken (remains : string).

(** The platform the code runs on: the network, the path library of
    Node, the collation of [localeCompare], how the runtime prints a
    built-in function, and what the file system decides on its own:
    [path_dirs p] lists the directories on the way to [p], the last one
    [p] itself; [fs_refuses p] tells where the platform refuses to make
    a directory; [fs_write p data] is its verdict on a write. *)
Record Host : Type := {
  net_fetch : string -> result Response;
  native_text : string -> string;
  path_join : string -> string -> string;
  localeCompare : string -> string -> Z;
  path_dirs : string -> list string;
  fs_refuses : string -> bool;
  fs_write : string -> string -> Verdict
}.

(** The requests initiated so far, the first one first. *)
Abbreviation Requests := (list string).

Definition fetchOpenProps (host : Host) (baseUrl fileName : string)
    (reqs : Requests) : Requests * result string :=
  let sourcePath := object_get OPENPROPS_SOURCE_FILES fileName in
  if falsy sourcePath then
    (reqs, Err ("Unknown Open Props file: " +:+ fileName))
  else
    let url := baseUrl +:+ "/"
               +:+ match sourcePath with
                   | Some v => value_text (native_text host) v
                   | None => "undefined"
                   end in
    let reqs' := reqs ++ [url] in
    match net_fetch host url with
    | Err e => (reqs', Err e)
    | Ok response =>
        if negb (resp_ok response) then
          (reqs', Err ("Failed to fetch " +:+ url +:+ ": "
                       +:+ JS.intToString (Z.of_nat (resp_status response))))
        else (reqs', Ok (resp_text response))
    end.

(** ** The regular expressions of the adapter *)

Module Re.
Import Regex.

Definition just (c : ascii) : ascii -> bool := fun d => Ascii.eqb d c.
Definition quote (c : ascii) : bool := Ascii.eqb c "'" || Ascii.eqb c JS.dquote.
Definition not_quote (c : ascii) : bool := negb (quote c).
Definition digit_space_percent (c : ascii) : bool :=
  JS.is_digit c || JS.is_space c || Ascii.eqb c "%".
Definition not_close_brace (c : ascii) : bool := negb (Ascii.eqb c "}").
Definition name_char (c : ascii) : bool :=
  JS.is_alpha c || JS.is_digit c || Ascii.eqb c "-".

Fixpoint seq (l : list regex) : regex :=
  match l with
  | [] => Lit ""
  | [r] => r
  | r :: l' => Seq r (seq l')
  end.

(** The expression "/@import\s+[Q][^Q]+[Q]\s*;?\s*\n?/g", where Q stands
    for the two quote characters, single and double. *)
Definition import_re : regex :=
  seq [Lit "@import"; Plus JS.is_space; Cls quote; Plus not_quote; Cls quote;
       Star JS.is_space; Opt (just ";"); Star JS.is_space; Opt (just (ascii_of_nat 10))].

(** The expression "/:where\(html\)/g". *)
Definition where_html_re : regex := Lit ":where(html)".

(** The expression "/@media\s*\(--OSdark\)\s*\{/g". *)
Definition os_dark_re : regex :=
  seq [Lit "@media"; Star JS.is_space; Lit "(--OSdark)"; Star JS.is_space; Lit "{"].

(** The expression "/(--shadow-color:\s*)[\d\s%]+;/g". *)
Definition shadow_color_re : regex :=
  seq [Grp 1 (Seq (Lit "--shadow-color:") (Star JS.is_space));
       Plus digit_space_percent; Lit ";"].

(** The two expressions for the dark-mode section differ in the content
    of the inner block only: the one that finds the section captures it,
    the one that replaces the section does not. *)
Definition dark_section (content : regex) : regex :=
  seq [Lit "@media"; Star JS.is_space; Lit "(prefers-color-scheme:";
       Star JS.is_space; Lit "dark)"; Star JS.is_space; Lit "{";
       Star JS.is_space; Lit ":"; Alt (Lit "root") (Lit "where(html)");
       Star JS.is_space; Lit "{"; content; Lit "}";
       Star JS.is_space; Lit "}"].

(** The expression
    "/@media\s*\(prefers-color-scheme:\s*dark\)\s*\{\s*:(?:root|where\(html\))\s*\{([^}]+)\}\s*\}/". *)
Definition dark_section_re : regex := dark_section (Grp 1 (Plus not_close_brace)).

(** The expression
    "/@media\s*\(prefers-color-scheme:\s*dark\)\s*\{\s*:(?:root|where\(html\))\s*\{[^}]+\}\s*\}/". *)
Definition dark_block_re : regex := dark_section (Plus not_close_brace).

(** The expression "/(^|\s|;)(--)(([a-zA-Z][a-zA-Z0-9-]*))\s*:/gm". *)
Definition definition_re : regex :=
  seq [Grp 1 (Alt Bol (Alt (Cls JS.is_space) (Cls (just ";"))));
       Grp 2 (Lit "--");
       Grp 3 (Grp 4 (Seq (Cls JS.is_alpha) (Star name_char)));
       Star JS.is_space; Lit ":"].

End Re.

(** [injectShadowColor]: theme-aware shadow colours from the seed hue. *)
Definition injectShadowColor (css : string) (seedHue : Q) : string :=
  let hue := JS.intToString (JS.round seedHue) in
  (* Light mode shadow color: low saturation, dark *)
  let lightShadowColor := hue +:+ " 10% 15%" in
  (* Dark mode shadow color: more saturation, very dark *)
  let darkShadowColor := hue +:+ " 30% 5%" in
  (* Replace the default shadow-color in :root *)
  let css := Regex.replaceAll Re.shadow_color_re 1
               ("$1" +:+ lightShadowColor +:+ ";") css in
  (* Find and update dark mode section *)
  match Regex.exec Re.dark_section_re (list_ascii_of_string css) with
  | Some darkSectionMatch =>
      let darkContent :=
        string_of_list_ascii (Regex.group_text 1 darkSectionMatch) in
      let darkContent := Regex.replaceAll Re.shadow_color_re 1
                           ("$1" +:+ darkShadowColor +:+ ";") darkContent in
      let replacement :=
        "[data-theme=" +:+ JS.dq +:+ "dark" +:+ JS.dq +:+ "] {" +:+ darkContent +:+ "}

@media (prefers-color-scheme: dark) {
  :root:not([data-theme=" +:+ JS.dq +:+ "light" +:+ JS.dq +:+ "]) {" +:+ darkContent +:+ "}
}" in
      (* Replace the original @media block *)
      Regex.replaceFirst Re.dark_block_re 0 replacement css
  | None => css
  end.

(** [transformOpenPropsCSS]: remove [@import] statements, turn
    [:where(html)] into [:root] and [@media (--OSdark)] into a
    [prefers-color-scheme] query. *)
Definition transformOpenPropsCSS (css fileName : string) (seedHue : Q) : string :=
  let css := Regex.replaceAll Re.import_re 0 "" css in
  let css := Regex.replaceAll Re.where_html_re 0 ":root" css in
  let css := Regex.replaceAll Re.os_dark_re 0 "@media (prefers-color-scheme: dark) {" css in
  let css := if String.eqb fileName "shadows" then injectShadowColor css seedHue
             else css in
  JS.trim css.

(** [prefixOpenPropsCSS]: [--size-3] becomes [--op-size-3]. *)
Definition prefixOpenPropsCSS (css prefix : string) : string :=
  Regex.replaceAll Re.definition_re 4 ("$1--" +:+ prefix +:+ "-$3:") css.

Definition generateOpenPropsCSS (now : string) (name content prefix : string)
    (seedHue : Q) : string :=
  let transformed := transformOpenPropsCSS content name seedHue in
  let prefixed := prefixOpenPropsCSS transformed prefix in
  let title := JS.toUpperCase (JS.charAt0 name) +:+ JS.sliceFrom 1 name +:+ " Tokens" in
  let header := generateHeader now title
                  (Some "Open Props (https://open-props.style)") None in
  header +:+ prefixed +:+ JS.nl.

(** [fetchAllOpenProps]: every name is started in turn, so every known
    name has its request initiated; the call fails when one of them fails
    (the first in the list stands for the rejection that [Promise.all]
    reports).  The result is a [Map]: a name set twice keeps its first
    position and its last text. *)
Fixpoint map_set (name css : string) (m : list (string * string))
  : list (string * string) :=
  match m with
  | [] => [(name, css)]
  | (k, v) :: m' =>
      if String.eqb k name then (k, css) :: m' else (k, v) :: map_set name css m'
  end.

Fixpoint fetch_each (host : Host) (baseUrl : string) (fileNames : list string)
    (reqs : Requests) : Requests * list (string * result string) :=
  match fileNames with
  | [] => (reqs, [])
  | name :: rest =>
      let '(reqs1, content) := fetchOpenProps host baseUrl name reqs in
      let '(reqs2, others) := fetch_each host baseUrl rest reqs1 in
      (reqs2, (name, content) :: others)
  end.

Definition fetchAllOpenProps (host : Host) (clock : nat -> string)
    (baseUrl : string) (fileNames : list string) (prefix : string) (seedHue : Q)
    (reqs : Requests) : Requests * result (list (string * string)) :=
  let '(reqs', started) := fetch_each host baseUrl fileNames reqs in
  (reqs',
   let* fetched :=
     rmap (fun '(i, (name, content)) =>
             let* text := content in
             Ok (name, generateOpenPropsCSS (clock i) name text prefix seedHue))
          (imap (fun i x => (i, x)) started) in
   Ok (fold_left (fun results '(name, css) => map_set name css results) fetched [])).

(* ===================================================================== *)
(** * 8. The semantic renderer ([generateSemanticCSS])                     *)
(* ===================================================================== *)

(** [SchemeColors] as the renderer reads it: an object indexed by role. *)
Abbreviation SchemeColors := (gmap string string).

Record ColorRole : Type := {
  schemeKey : string;
  semanticName : string;
  group : string
}.

Definition role (k n g : string) : ColorRole :=
  {| schemeKey := k; semanticName := n; group := g |}.

(** Color role mapping from Material camelCase to semantic kebab-case;
    the order defines the output order in the CSS file. *)
Definition COLOR_ROLE_MAP : list ColorRole :=
  [ (* Primary *)
    role "primary" "primary" "Primary";
    role "onPrimary" "primary-on" "Primary";
    role "primaryContainer" "primary-container" "Primary";
    role "onPrimaryContainer" "primary-container-on" "Primary";
    (* Secondary *)
    role "secondary" "secondary" "Secondary";
    role "onSecondary" "secondary-on" "Secondary";
    role "secondaryContainer" "secondary-container" "Secondary";
    role "onSecondaryContainer" "secondary-container-on" "Secondary";
    (* Tertiary *)
    role "tertiary" "tertiary" "Tertiary";
    role "onTertiary" "tertiary-on" "Tertiary";
    role "tertiaryContainer" "tertiary-container" "Tertiary";
    role "onTertiaryContainer" "tertiary-container-on" "Tertiary";
    (* Surface *)
    role "surface" "surface" "Surface";
    role "onSurface" "surface-on" "Surface";
    role "surfaceVariant" "surface-variant" "Surface";
    role "onSurfaceVariant" "surface-variant-on" "Surface";
    role "surfaceContainer" "surface-container" "Surface";
    role "surfaceContainerLow" "surface-container-low" "Surface";
    role "surfaceContainerLowest" "surface-container-lowest" "Surface";
    role "surfaceContainerHigh" "surface-container-high" "Surface";
    role "surfaceContainerHighest" "surface-container-highest" "Surface";
    role "surfaceDim" "surface-dim" "Surface";
    role "surfaceBright" "surface-bright" "Surface";
    (* Background *)
    role "background" "background" "Background";
    role "onBackground" "background-on" "Background";
    (* Error *)
    role "error" "error" "Error";
    role "onError" "error-on" "Error";
    role "errorContainer" "error-container" "Error";
    role "onErrorContainer" "error-container-on" "Error";
    (* Outline *)
    role "outline" "outline" "Outline";
    role "outlineVariant" "outline-variant" "Outline";
    (* Inverse *)
    role "inverseSurface" "inverse-surface" "Inverse";
    role "inverseOnSurface" "inverse-surface-on" "Inverse";
    role "inversePrimary" "inverse-primary" "Inverse";
    (* Utility *)
    role "scrim" "scrim" "Utility";
    role "shadow" "shadow-color" "Utility";
    role "surfaceTint" "surface-tint" "Utility" ].

(** Semantic category keys and display names, in output order. *)
Definition SEMANTIC_CATEGORIES : list (string * string) :=
  [ ("space", "Spacing Scale");
    ("radius", "Border Radii");
    ("shadow", "Shadows");
    ("weight", "Font Weights");
    ("leading", "Line Heights");
    ("duration", "Durations");
    ("ease", "Easings");
    ("layer", "Z-Index Layers") ].

Definition starts_with_digit (s : string) : bool :=
  match s with
  | String c _ => JS.is_digit c
  | EmptyString => false
  end.

Definition formatSemanticValue (value primitivesPrefix : string) : string :=
  (* Raw values *)
  if String.eqb value "0" || String.eqb value "none" then value
  (* Numeric values starting with a digit *)
  else if starts_with_digit value then value
  (* Token reference - wrap with var() *)
  else "var(--" +:+ primitivesPrefix +:+ "-" +:+ value +:+ ")".

(** A scheme value that the guard [!lightValue || !darkValue] lets
    through: present and not the empty string. *)
Definition truthy (v : option string) : bool :=
  match v with
  | Some (String _ _) => true
  | _ => false
  end.

(** The body of the loop over [COLOR_ROLE_MAP]; [currentGroup] and
    [lines] are the two variables the loop updates. *)
Fixpoint color_tokens (lib : Culori) (lightScheme darkScheme : SchemeColors)
    (prefixes : Prefixes) (format : ColorFormat) (roles : list ColorRole)
    (currentGroup : string) (lines : list string) : result (list string) :=
  match roles with
  | [] => Ok lines
  | role :: rest =>
      let lightValue := lightScheme !! schemeKey role in
      let darkValue := darkScheme !! schemeKey role in
      if negb (truthy lightValue) || negb (truthy darkValue) then
        color_tokens lib lightScheme darkScheme prefixes format rest currentGroup lines
      else
        (* Add group comment when group changes *)
        let lines1 :=
          if negb (String.eqb (group role) currentGroup) then
            lines ++ (if negb (String.eqb currentGroup "") then [""] else [])
                  ++ ["    /* " +:+ group role +:+ " */"]
          else lines in
        let currentGroup1 :=
          if negb (String.eqb (group role) currentGroup) then group role
          else currentGroup in
        let* lightFormatted := formatColor lib (default "" lightValue) format in
        let* darkFormatted := formatColor lib (default "" darkValue) format in
        let cssVar := "--" +:+ semantic prefixes +:+ "-color-" +:+ semanticName role in
        color_tokens lib lightScheme darkScheme prefixes format rest currentGroup1
          (lines1 ++ ["    " +:+ cssVar +:+ ": light-dark(" +:+ lightFormatted
                      +:+ ", " +:+ darkFormatted +:+ ");"])
  end.

(** The comparator of the key sort: the custom order first, then
    [localeCompare]. *)
Definition KEY_ORDER : list string :=
  ["none"; "xs"; "sm"; "md"; "base"; "lg"; "xl"; "2xl"; "3xl"; "full"].

Fixpoint indexOf (l : list string) (x : string) (i : Z) : Z :=
  match l with
  | [] => (-1)%Z
  | y :: l' => if String.eqb y x then i else indexOf l' x (i + 1)%Z
  end.

Definition key_compare (host : Host) (a b : string) : Z :=
  let aIdx := indexOf KEY_ORDER a 0 in
  let bIdx := indexOf KEY_ORDER b 0 in
  if negb (aIdx =? -1)%Z && negb (bIdx =? -1)%Z then (aIdx - bIdx)%Z
  else if negb (aIdx =? -1)%Z then (-1)%Z
  else if negb (bIdx =? -1)%Z then 1%Z
  else localeCompare host a b.

(** [Array.prototype.sort] with a comparator: a stable sort. *)
Fixpoint insert_by (cmp : string -> string -> Z) (x : string) (l : list string)
  : list string :=
  match l with
  | [] => [x]
  | y :: l' => if (cmp x y <=? 0)%Z then x :: l else y :: insert_by cmp x l'
  end.
Definition sort_by (cmp : string -> string -> Z) (l : list string) : list string :=
  fold_right (insert_by cmp) [] l.

(** [Object.keys(tokens)]. *)
Definition keys (tokens : gmap string string) : list string :=
  (map_to_list tokens).*1.

Definition category_tokens (host : Host) (sem : SemanticConfig)
    (prefixes : Prefixes) (category : string * string) : list string :=
  match sem !! category.1 with
  | None => []
  | Some tokens =>
      if Nat.eqb (length (keys tokens)) 0 then []
      else
        [""; "    /* " +:+ category.2 +:+ " */"]
        ++ map (fun key =>
                  let value := default "" (tokens !! key) in
                  let cssVar := "--" +:+ semantic prefixes +:+ "-"
                                +:+ category.1 +:+ "-" +:+ key in
                  let cssValue := formatSemanticValue value (primitives prefixes) in
                  "    " +:+ cssVar +:+ ": " +:+ cssValue +:+ ";")
               (sort_by (key_compare host) (keys tokens))
  end.

Definition generateSemanticCSS (lib : Culori) (host : Host) (now : string)
    (lightScheme darkScheme : SchemeColors) (sem : SemanticConfig)
    (prefixes : Prefixes) (format : ColorFormat) (seedHue : Q) : result string :=
  let header :=
    generateHeader now "Semantic Tokens (Tier 2) - THE APPLICATION API"
      (Some "Generated from seed color")
      (Some ("Naming: --" +:+ semantic prefixes +:+ "-[category]-[role]

This is the ONLY file developers should reference.
All tokens start with --" +:+ semantic prefixes +:+ "-

Uses CSS light-dark() for reactive theming.")) in
  let lines :=
    [header; "@layer ui.theme {"; "  :root {"; "    color-scheme: light dark;"; ""] in
  (* Generate color tokens with light-dark() *)
  let* lines :=
    color_tokens lib lightScheme darkScheme prefixes format COLOR_ROLE_MAP "" lines in
  let lines :=
    lines
    (* Shadow color token (for atomic shadows) *)
    ++ [""; "    /* Shadow Color (for atomic shadows) */";
        "    --" +:+ semantic prefixes
          +:+ "-color-shadow: light-dark(oklch(0 0 0 / 0.1), oklch(0 0 0 / 0.6));"]
    (* Shadow hue derived from seed *)
    ++ [""; "    /* Shadow Hue (derived from seed color) */";
        "    --" +:+ semantic prefixes +:+ "-shadow-hue: "
          +:+ JS.intToString (JS.round seedHue) +:+ ";"]
    (* Generate non-color semantic tokens *)
    ++ concat (map (category_tokens host sem prefixes) SEMANTIC_CATEGORIES)
    ++ ["  }"; "";
        (* Theme toggle selectors *)
        "  /* Theme Toggles */";
        "  :root[data-theme=" +:+ JS.dq +:+ "light" +:+ JS.dq +:+ "] { color-scheme: light; }";
        "  :root[data-theme=" +:+ JS.dq +:+ "dark" +:+ JS.dq +:+ "] { color-scheme: dark; }";
        (* Close layer *)
        "}"; ""] in
  Ok (JS.join JS.nl lines).

(* ===================================================================== *)
(** * 9. The palette renderer ([generatePalettesCSS])                      *)
(* ===================================================================== *)

(** [Palettes]: palette name to tone step to colour. *)
Abbreviation Palettes := (gmap string (gmap string string)).

(** Palette names in output order. *)
Definition PALETTE_ORDER : list string :=
  ["primary"; "secondary"; "tertiary"; "error"; "neutral"; "neutral-variant"].

(** Tone steps in output order. *)
Definition TONE_STEPS : list string :=
  ["0"; "5"; "10"; "15"; "20"; "25"; "30"; "35"; "40";
   "50"; "60"; "70"; "80"; "90"; "95"; "98"; "99"; "100"].

(** Display names for palette comments. *)
Definition PALETTE_DISPLAY_NAMES : gmap string string :=
  list_to_map
    [ ("primary", "Primary"); ("secondary", "Secondary"); ("tertiary", "Tertiary");
      ("error", "Error"); ("neutral", "Neutral");
      ("neutral-variant", "Neutral Variant") ].

Definition palette_lines (lib : Culori) (prefixes : Prefixes) (format : ColorFormat)
    (paletteName : string) (tones : gmap string string) : result (list string) :=
  let* rows :=
    rmap (fun step =>
            match tones !! step with
            | Some (String c v) =>
                let hexValue := String c v in
                let cssName := "--" +:+ palette prefixes +:+ "-palette-"
                               +:+ paletteName +:+ "-" +:+ step in
                let* cssValue := formatColor lib hexValue format in
                Ok ["  " +:+ cssName +:+ ": " +:+ cssValue +:+ ";"]
            | _ => Ok []
            end) TONE_STEPS in
  Ok (concat rows).

Fixpoint palettes_loop (lib : Culori) (palettes : Palettes) (prefixes : Prefixes)
    (format : ColorFormat) (names : list string) (first : bool)
    (lines : list string) : result (list string) :=
  match names with
  | [] => Ok lines
  | paletteName :: rest =>
      match palettes !! paletteName with
      | None => palettes_loop lib palettes prefixes format rest first lines
      | Some tones =>
          let lines := if negb first then lines ++ [""] else lines in
          let displayName :=
            match PALETTE_DISPLAY_NAMES !! paletteName with
            | Some (String c n) => String c n
            | _ => paletteName
            end in
          let lines := lines ++ ["  /* " +:+ displayName +:+ " palette */"] in
          let* rows := palette_lines lib prefixes format paletteName tones in
          palettes_loop lib palettes prefixes format rest false (lines ++ rows)
      end
  end.

Definition generatePalettesCSS (lib : Culori) (now : string) (palettes : Palettes)
    (seed : string) (prefixes : Prefixes) (format : ColorFormat) : result string :=
  let* seedFormatted := hexToOklch lib seed in
  let header :=
    generateHeader now "Material Design Palettes (Tier 1 Primitives)"
      (Some "Material Theme Builder")
      (Some ("Seed: " +:+ seed +:+ " (" +:+ seedFormatted +:+ ")" +:+ JS.nl
             +:+ "Format: " +:+ JS.toUpperCase (ColorFormat_name format) +:+ JS.nl
             +:+ "Prefix: --" +:+ palette prefixes +:+ "-palette-*")) in
  let* lines := palettes_loop lib palettes prefixes format PALETTE_ORDER true
                  [header; ":root {"] in
  Ok (JS.join JS.nl (lines ++ ["}"; ""])).

(* ===================================================================== *)
(** * 10. [src/generator.ts]: the Material theme                           *)
(* ===================================================================== *)

Inductive SchemeVariant : Type :=
| tonal_spot | content | expressive | fidelity | monochrome | neutral | vibrant.

(** Contrast levels for the scheme variants. *)
Module CONTRAST_LEVELS.
Definition standard : Q := 0%Q.
Definition medium : Q := (1 # 2)%Q.
Definition high : Q := 1%Q.
End CONTRAST_LEVELS.

(** A tonal palette of the engine: [palette.tone(t)] is an ARGB integer. *)
Record TonalPalette : Type := { tone : Z -> Z }.

(** A dynamic scheme of the engine: an ARGB integer for each role, read
    by property name, and the five tonal palettes. *)
Record SchemeInstance : Type := {
  roleArgb : string -> Z;
  primaryPalette : TonalPalette;
  secondaryPalette : TonalPalette;
  tertiaryPalette : TonalPalette;
  neutralPalette : TonalPalette;
  neutralVariantPalette : TonalPalette
}.

(** The colour engine (the npm package @material/material-color-utilities):
    no part of the sources, and assumed deterministic, so a function. *)
Record Engine : Type := {
  Hct : Type;
  Hct_fromInt : Z -> Hct;
  (** [argbFromHex] on a text that is not [#] and three or six
      hexadecimal digits: the integer, or the error it throws *)
  argbFromHex_other : string -> result Z;
  hexFromArgbLower : Z -> string;
  (** [new SchemeClass(sourceHct, isDark, contrastLevel)] *)
  newScheme : SchemeVariant -> Hct -> bool -> Q -> SchemeInstance
}.

Module HexValue.

Definition digit_value (c : ascii) : Z :=
  let n := Z.of_nat (JS.code c) in
  if JS.is_digit c then (n - 48)%Z
  else if JS.in_range 97 102 c then (n - 87)%Z
  else if JS.in_range 65 70 c then (n - 55)%Z
  else 0%Z.

Fixpoint value_go (s : string) (acc : Z) : Z :=
  match s with
  | EmptyString => acc
  | String c s' => value_go s' (16 * acc + digit_value c)%Z
  end.

(** The number that six hexadecimal digits denote. *)
Definition value (s : string) : Z := value_go s 0%Z.

End HexValue.

(** Modelled from the spec: the engine's [argbFromHex] is a function of
    the npm package @material/material-color-utilities, which is not among
    the sources.  The spec has the seed reach the engine as a validated
    6-or-3-hex-digit string, and the engine fail on a string it cannot
    parse: on [#] and three or six hexadecimal digits the result is the
    opaque colour with those red, green and blue digits; on any other text
    the answer is the engine's own ([argbFromHex_other]). *)
Definition argbFromHex (eng : Engine) (text : string) : result Z :=
  match text with
  | String "#" body =>
      if Hex.all_hex body && ((String.length body =? 3) || (String.length body =? 6))
      then Ok (Z.lor 4278190080 (HexValue.value (Hex.six_digits body)))
      else argbFromHex_other eng text
  | _ => argbFromHex_other eng text
  end.

(** Converts an ARGB integer to an uppercase hex string. *)
Definition hexFromArgb (eng : Engine) (argb : Z) : string :=
  JS.toUpperCase (hexFromArgbLower eng argb).

Definition createScheme (eng : Engine) (sourceHct : Hct eng) (isDark : bool)
    (contrastLevel : Q) (variant : SchemeVariant) : SchemeInstance :=
  newScheme eng variant sourceHct isDark contrastLevel.

(** The roles [extractSchemeColors] reads, in the order it lists them. *)
Definition SCHEME_ROLES : list string :=
  [ (* Core colors *)
    "primary"; "surfaceTint"; "onPrimary"; "primaryContainer"; "onPrimaryContainer";
    "secondary"; "onSecondary"; "secondaryContainer"; "onSecondaryContainer";
    "tertiary"; "onTertiary"; "tertiaryContainer"; "onTertiaryContainer";
    "error"; "onError"; "errorContainer"; "onErrorContainer";
    (* Surface colors *)
    "background"; "onBackground"; "surface"; "onSurface"; "surfaceVariant";
    "onSurfaceVariant"; "outline"; "outlineVariant";
    (* Utility colors *)
    "shadow"; "scrim"; "inverseSurface"; "inverseOnSurface"; "inversePrimary";
    (* Fixed colors *)
    "primaryFixed"; "onPrimaryFixed"; "primaryFixedDim"; "onPrimaryFixedVariant";
    "secondaryFixed"; "onSecondaryFixed"; "secondaryFixedDim"; "onSecondaryFixedVariant";
    "tertiaryFixed"; "onTertiaryFixed"; "tertiaryFixedDim"; "onTertiaryFixedVariant";
    (* Surface container hierarchy *)
    "surfaceDim"; "surfaceBright"; "surfaceContainerLowest"; "surfaceContainerLow";
    "surfaceContainer"; "surfaceContainerHigh"; "surfaceContainerHighest" ].

(** Extracts all color tokens from a scheme as hex strings. *)
Definition extractSchemeColors (eng : Engine) (scheme : SchemeInstance) : SchemeColors :=
  list_to_map (map (fun k => (k, hexFromArgb eng (roleArgb scheme k))) SCHEME_ROLES).

(** Tone values used in tonal palettes. *)
Definition TONE_VALUES : list Z :=
  [0; 5; 10; 15; 20; 25; 30; 35; 40; 50; 60; 70; 80; 90; 95; 98; 99; 100]%Z.

Definition extractTonalPalette (eng : Engine) (palette : TonalPalette)
  : gmap string string :=
  fold_left (fun result t => <[JS.intToString t := hexFromArgb eng (tone palette t)]> result)
            TONE_VALUES ∅.

(** The six schemes; the keys with a hyphen are spelled with an
    underscore. *)
Record Schemes : Type := {
  light : SchemeColors;
  light_medium_contrast : SchemeColors;
  light_high_contrast : SchemeColors;
  dark : SchemeColors;
  dark_medium_contrast : SchemeColors;
  dark_high_contrast : SchemeColors
}.

(** Generates all 6 scheme variants (light/dark x 3 contrast levels). *)
Definition generateSchemes (eng : Engine) (sourceHct : Hct eng)
    (variant : SchemeVariant) : Schemes :=
  {| light := extractSchemeColors eng
       (createScheme eng sourceHct false CONTRAST_LEVELS.standard variant);
     light_medium_contrast := extractSchemeColors eng
       (createScheme eng sourceHct false CONTRAST_LEVELS.medium variant);
     light_high_contrast := extractSchemeColors eng
       (createScheme eng sourceHct false CONTRAST_LEVELS.high variant);
     dark := extractSchemeColors eng
       (createScheme eng sourceHct true CONTRAST_LEVELS.standard variant);
     dark_medium_contrast := extractSchemeColors eng
       (createScheme eng sourceHct true CONTRAST_LEVELS.medium variant);
     dark_high_contrast := extractSchemeColors eng
       (createScheme eng sourceHct true CONTRAST_LEVELS.high variant) |}.

(** Generates all 5 tonal palettes from the seed color. *)
Definition generatePalettes (eng : Engine) (sourceHct : Hct eng)
    (variant : SchemeVariant) : Palettes :=
  (* light/standard: the palettes are the same across modes *)
  let scheme := createScheme eng sourceHct false CONTRAST_LEVELS.standard variant in
  list_to_map
    [ ("primary", extractTonalPalette eng (primaryPalette scheme));
      ("secondary", extractTonalPalette eng (secondaryPalette scheme));
      ("tertiary", extractTonalPalette eng (tertiaryPalette scheme));
      ("neutral", extractTonalPalette eng (neutralPalette scheme));
      ("neutral-variant", extractTonalPalette eng (neutralVariantPalette scheme)) ].

Record CoreColors : Type := { primary : string }.

(** The complete Material theme.  [extendedColors] is always the empty
    array, of elements of no known type. *)
Record MaterialTheme : Type := {
  description : string;
  seed : string;
  coreColors : CoreColors;
  extendedColors : list Empty_set;
  schemes : Schemes;
  palettes : Palettes
}.

(** The seed with a [#] in front and in upper case. *)
Definition normalizeSeed (seedHex : string) : string :=
  if JS.startsWith seedHex "#" then JS.toUpperCase seedHex
  else "#" +:+ JS.toUpperCase seedHex.

(** [generateTheme]; [now] is the reading of the clock,
    [new Date().toISOString()]. *)
Definition generateTheme (eng : Engine) (now : string) (seedHex : string)
    (variant : SchemeVariant) : result MaterialTheme :=
  let normalizedSeed := normalizeSeed seedHex in
  (* Convert hex to ARGB, then to HCT *)
  let* argb := argbFromHex eng normalizedSeed in
  let sourceHct := Hct_fromInt eng argb in
  let timestamp := timestamp_of now in
  Ok {| description := "TYPE: CUSTOM" +:+ JS.nl
                       +:+ "Material Theme Builder export " +:+ timestamp;
        seed := normalizedSeed;
        coreColors := {| primary := normalizedSeed |};
        extendedColors := [];
        schemes := generateSchemes eng sourceHct variant;
        palettes := generatePalettes eng sourceHct variant |}.

(** [isValidHexColor]: the expression "/^#?([A-Fa-f0-9]{6}|[A-Fa-f0-9]{3})$/". *)
Definition isValidHexColor (hex : string) : bool :=
  let body := match hex with
              | String "#" s' => s'
              | _ => hex
              end in
  Hex.all_hex body && ((String.length body =? 6) || (String.length body =? 3)).

(* ===================================================================== *)
(** * 11. [src/tokens/index.ts]: the orchestrator                          *)
(* ===================================================================== *)

(** The file system holds the text of each file by path and the set of
    the directories; the console leaves no trace.  A run also threads the
    requests it sends. *)
Record World : Type := {
  fs : gmap string string;
  dirs : gset string;
  requests : Requests
}.

(** A step of the run: it changes the world, and it returns or throws.
    After a throw the world stays as the failing step left it. *)
Definition Run (A : Type) : Type := World -> World * result A.

Definition ret {A} (a : A) : Run A := fun w => (w, Ok a).

(** A step that touches nothing and may throw. *)
Definition throws {A} (r : result A) : Run A := fun w => (w, r).

Definition bind {A B} (m : Run A) (k : A -> Run B) : Run B :=
  fun w =>
    match m w with
    | (w', Ok a) => k a w'
    | (w', Err e) => (w', Err e)
    end.

(** [run* x := m in k]: the step [m], then [k] on what it returns;
    [do* m in k] when it returns nothing. *)
Notation "'run*' x ':=' m 'in' k" := (bind m (fun x => k))
  (at level 10, x pattern, m at level 100, k at level 200).
Notation "'do*' m 'in' k" := (bind m (fun _ => k))
  (at level 10, m at level 100, k at level 200).

(** The directories of a list, outermost first, that can be made before
    the platform refuses one that is missing. *)
Fixpoint makeable (host : Host) (have : gset string) (wanted : list string)
  : list string :=
  match wanted with
  | [] => []
  | d :: rest =>
      if negb (bool_decide (d ∈ have)) && fs_refuses host d then []
      else d :: makeable host have rest
  end.

(** [mkdir(path, { recursive: true })]: the directories on the way to
    [path] and [path] itself are made where they are missing.  The call
    is rejected, and nothing is made, when one of them is a file; it is
    rejected when the platform refuses to make one that is missing, and
    then the ones before it are made. *)
Definition mkdir (host : Host) (path : string) : Run unit :=
  fun w =>
    let wanted := path_dirs host path in
    if existsb (fun d => bool_decide (is_Some (fs w !! d))) wanted then
      (w, Err ("EEXIST: file already exists, mkdir '" +:+ path +:+ "'"))
    else if existsb (fun d => negb (bool_decide (d ∈ dirs w)) && fs_refuses host d)
                    wanted then
      ({| fs := fs w; dirs := dirs w ∪ list_to_set (makeable host (dirs w) wanted);
          requests := requests w |},
       Err ("EACCES: permission denied, mkdir '" +:+ path +:+ "'"))
    else
      ({| fs := fs w; dirs := dirs w ∪ list_to_set wanted; requests := requests w |},
       Ok tt).

(** [writeFile(path, data)]: the file holds [data] afterwards, whatever
    it held.  The call is rejected, and nothing is written, when [path]
    is a directory and when the platform refuses the write; it is
    rejected too when the write breaks, and then the file is left with
    what got through. *)
Definition writeFile (host : Host) (path data : string) : Run unit :=
  fun w =>
    if bool_decide (path ∈ dirs w) then
      (w, Err ("EISDIR: illegal operation on a directory, open '" +:+ path +:+ "'"))
    else
      match fs_write host path data with
      | Refused => (w, Err ("EACCES: permission denied, open '" +:+ path +:+ "'"))
      | Broken remains =>
          ({| fs := <[path := remains]> (fs w); dirs := dirs w; requests := requests w |},
           Err "ENOSPC: no space left on device, write")
      | Accepted =>
          ({| fs := <[path := data]> (fs w); dirs := dirs w; requests := requests w |},
           Ok tt)
      end.

(** [fileExists]: whether [stat] succeeds, as it does on a file and on a
    directory. *)
Definition fileExists (path : string) : Run bool :=
  fun w => (w, Ok (bool_decide (is_Some (fs w !! path)) || bool_decide (path ∈ dirs w))).

Record TokenGeneratorOptions : Type := {
  opt_seed : string;
  opt_output : option string;
  opt_format : option ColorFormat;
  opt_scheme : option SchemeVariant;
  opt_config : option UserConfig
}.

(** The externals of one run; [clock n] is the n-th reading of the clock. *)
Record Env : Type := {
  env_culori : Culori;
  env_engine : Engine;
  env_host : Host;
  env_clock : nat -> string
}.

(** The configuration [generateTokens] resolves: the format and the
    output directory of the options go over those of the user's
    configuration. *)
Definition resolveConfig (options : TokenGeneratorOptions) : TokenConfig :=
  let format := over oklch (opt_format options) in
  let userConfig := over empty_UserConfig (opt_config options) in
  let userDir := field (u_output userConfig) u_dir in
  mergeConfig
    {| u_format := Some format;
       u_prefixes := u_prefixes userConfig;
       u_output :=
         Some {| u_dir :=
                   Some (match given (opt_output options) with
                         | Some o => o
                         | None =>
                             match given userDir with
                             | Some d => d
                             | None => dir (output DEFAULT_CONFIG)
                             end
                         end);
                 u_paletteSubdir := field (u_output userConfig) u_paletteSubdir;
                 u_openpropsSubdir := field (u_output userConfig) u_openpropsSubdir |};
       u_openprops := u_openprops userConfig;
       u_semanticTokens := u_semanticTokens userConfig |}.

Definition appPath (env : Env) (config : TokenConfig) : string :=
  path_join (env_host env) (dir (output config)) "app.css".

(** The last step: app.css only if it doesn't exist. *)
Definition scaffoldApp (env : Env) (config : TokenConfig) : Run unit :=
  run* appExists := fileExists (appPath env config) in
  if negb appExists then writeFile (env_host env) (appPath env config) generateAppCSS
  else ret tt.

(** The loop that writes each adapted Open Props file. *)
Fixpoint write_all (host : Host) (openPropsDir : string)
    (openPropsFiles : list (string * string)) : Run unit :=
  match openPropsFiles with
  | [] => ret tt
  | (name, css) :: rest =>
      do* writeFile host (path_join host openPropsDir (name +:+ ".css")) css in
      write_all host openPropsDir rest
  end.

(** [fetchAllOpenProps] as a step of the run: it adds to the requests. *)
Definition fetching (host : Host) (clock : nat -> string) (baseUrl : string)
    (fileNames : list string) (prefix : string) (seedHue : Q)
  : Run (list (string * string)) :=
  fun w =>
    let '(reqs, fetched) :=
      fetchAllOpenProps host clock baseUrl fileNames prefix seedHue (requests w) in
    ({| fs := fs w; dirs := dirs w; requests := reqs |}, fetched).

Definition generateTokens (env : Env) (options : TokenGeneratorOptions) : Run unit :=
  let seed := opt_seed options in
  let scheme := over tonal_spot (opt_scheme options) in
  let config := resolveConfig options in
  let host := env_host env in
  let join := path_join host in
  let outputDir := dir (output config) in
  let materialDir := join outputDir (paletteSubdir (output config)) in
  let openPropsDir := join outputDir (openpropsSubdir (output config)) in
  let nfiles := length (files (openprops config)) in
  (* Create output directories *)
  do* mkdir host outputDir in
  do* mkdir host materialDir in
  do* mkdir host openPropsDir in
  (* Generate Material theme from seed *)
  run* theme := throws (generateTheme (env_engine env) (env_clock env 0) seed scheme) in
  (* Get seed hue for shadow colors *)
  run* seedHue := throws (getHue (env_culori env) seed) in
  (* Generate material/palettes.css *)
  run* palettesCSS :=
    throws (generatePalettesCSS (env_culori env) (env_clock env 1) (palettes theme)
              seed (prefixes config) (format config)) in
  do* writeFile host (join materialDir "palettes.css") palettesCSS in
  (* Fetch and generate Open Props files *)
  run* openPropsFiles :=
    fetching host (fun i => env_clock env (2 + i))
      (baseUrl (openprops config)) (files (openprops config))
      (primitives (prefixes config)) seedHue in
  do* write_all host openPropsDir openPropsFiles in
  (* Generate semantic.css *)
  run* semanticCSS :=
    throws (generateSemanticCSS (env_culori env) host (env_clock env (2 + nfiles))
              (light (schemes theme)) (dark (schemes theme))
              (semanticTokens config) (prefixes config) (format config) seedHue) in
  do* writeFile host (join outputDir "semantic.css") semanticCSS in
  (* Generate index.css *)
  do* writeFile host (join outputDir "index.css")
        (generateIndexCSS (env_clock env (3 + nfiles)) (files (openprops config))
           (prefixes config) (paletteSubdir (output config))
           (openpropsSubdir (output config))) in
  (* Generate app.css only if it doesn't exist *)
  scaffoldApp env config.

(* ===================================================================== *)
(** * 12. A stand-in environment                                           *)
(* ===================================================================== *)

(** Concrete externals on which the model runs: a colour library that
    answers every hexadecimal colour with one fixed colour, an engine that
    paints every role with the seed, a network that serves one small
    stylesheet, and a clock that advances one second per reading. *)
Module Fixture.

Definition culori : Culori :=
  {| culori_oklch := fun text =>
       if isValidHexColor text
       then Some {| ok_l := Some (62 # 100)%Q; ok_c := Some (1 # 10)%Q;
                    ok_h := Some (2655 # 10)%Q |}
       else None;
     culori_formatHsl := fun text =>
       if isValidHexColor text then Some "hsl(218 61% 67%)" else None;
     culori_formatRgb := fun text =>
       if isValidHexColor text then Some "rgb(118 156 223)" else None;
     culori_formatHex_other := fun _ => None |}.

(** A library that sees a pure gray the way floating point does: a
    chroma that is almost, not exactly, zero, and a hue that is noise. *)
Definition gray : Oklch :=
  {| ok_l := Some (59987 # 100000)%Q; ok_c := Some (1 # 30000000)%Q;
     ok_h := Some (89876 # 1000)%Q |}.

Definition gray_culori : Culori :=
  {| culori_oklch := fun text => if isValidHexColor text then Some gray else None;
     culori_formatHsl := fun _ => None;
     culori_formatRgb := fun _ => None;
     culori_formatHex_other := fun _ => None |}.

Definition hex_digit (n : Z) : ascii :=
  if (n <? 10)%Z then ascii_of_nat (Z.to_nat n + 48)
  else ascii_of_nat (Z.to_nat n + 87).

Definition byte_text (n : Z) : string :=
  String (hex_digit (n / 16)) (String (hex_digit (n mod 16)) EmptyString).

Definition scheme_of (argb : Z) : SchemeInstance :=
  let p := {| tone := fun _ => argb |} in
  {| roleArgb := fun _ => argb;
     primaryPalette := p; secondaryPalette := p; tertiaryPalette := p;
     neutralPalette := p; neutralVariantPalette := p |}.

Definition engine : Engine :=
  {| Hct := Z;
     Hct_fromInt := fun argb => argb;
     argbFromHex_other := fun text => Err ("unexpected hex " +:+ text);
     hexFromArgbLower := fun argb =>
       "#" +:+ byte_text (Z.land (Z.shiftr argb 16) 255)
           +:+ byte_text (Z.land (Z.shiftr argb 8) 255)
           +:+ byte_text (Z.land argb 255);
     newScheme := fun _ hct _ _ => scheme_of hct |}.

Definition stylesheet : string :=
":where(html) {
  --size-1: .25rem;
  --size-2: var(--size-1);
}
".

(** The directories on the way to a path whose parts a slash separates. *)
Fixpoint dirs_of (seen rest : string) : list string :=
  match rest with
  | EmptyString => match seen with EmptyString => [] | _ => [seen] end
  | String c rest' =>
      if Ascii.eqb c "/" then
        match seen with EmptyString => [] | _ => [seen] end
        ++ dirs_of (seen +:+ "/") rest'
      else dirs_of (seen +:+ String c "") rest'
  end.

Definition host : Host :=
  {| net_fetch := fun url =>
       Ok {| resp_ok := true; resp_status := 200; resp_text := stylesheet |};
     native_text := fun name => "function " +:+ name +:+ "() { [native code] }";
     path_join := fun d f => d +:+ "/" +:+ f;
     path_dirs := dirs_of "";
     fs_refuses := fun _ => false;
     fs_write := fun _ _ => Accepted;
     localeCompare := fun a b =>
       match String.compare a b with
       | Lt => (-1)%Z
       | Eq => 0%Z
       | Gt => 1%Z
       end |}.

Definition clock (n : nat) : string :=
  "2024-01-02T03:04:" +:+ (if n <? 10 then "0" else "")
    +:+ JS.intToString (Z.of_nat n) +:+ ".000Z".

Definition env : Env :=
  {| env_culori := culori; env_engine := engine; env_host := host;
     env_clock := clock |}.

(** The same externals an hour later. *)
Definition later_env : Env :=
  {| env_culori := culori; env_engine := engine; env_host := host;
     env_clock := fun n => JS.replaceChar "3" "4" (clock n) |}.

Definition options : TokenGeneratorOptions :=
  {| opt_seed := "#769CDF"; opt_output := Some "out"; opt_format := None;
     opt_scheme := None; opt_config := None |}.

Definition empty_world : World := {| fs := ∅; dirs := ∅; requests := [] |}.

(** A pair of schemes in which the dark one has lost its [primary]. *)
Definition light_scheme : SchemeColors :=
  extractSchemeColors engine (scheme_of 4285963487).
Definition dark_scheme : SchemeColors := delete "primary" light_scheme.

End Fixture.

(* ===================================================================== *)
(** * 13. Properties of the configuration merger                           *)
(* ===================================================================== *)

Section MergeConfig.

(** A user configuration that overrides one entry of one category. *)
Definition only_space_xs : UserConfig :=
  {| u_format := None; u_prefixes := None; u_output := None; u_openprops := None;
     u_semanticTokens := Some {[ "space" := {[ "xs" := "size-1" ]} ]} |}.

(** The entry [name] of the category [cat]. *)
Definition entry (sem : SemanticConfig) (cat name : string) : option string :=
  sem !! cat ≫= fun tokens => tokens !! name.

(** C4, as stated, fails: the default [semantic.space.sm] is [size-3], the
    user overrides only [semantic.space.xs], and the resolved
    configuration has no [semantic.space.sm] any more. *)
Lemma mergeConfig_loses_space_sm :
  entry (semanticTokens DEFAULT_CONFIG) "space" "sm" = Some "size-3"
  /\ (u_semanticTokens only_space_xs ≫= fun sem => entry sem "space" "sm") = None
  /\ entry (semanticTokens (mergeConfig only_space_xs)) "space" "xs" = Some "size-1"
  /\ entry (semanticTokens (mergeConfig only_space_xs)) "space" "sm" = None.
Proof. repeat split; vm_compute; reflexivity. Qed.

(** C4, amended: [mergeConfig] merges the semantic section one category at
    a time.  A category the user does not mention keeps its default
    tokens; a category the user supplies is taken whole from the user. *)
Theorem mergeConfig_semantic_by_category (userConfig : UserConfig) (cat : string) :
  semanticTokens (mergeConfig userConfig) !! cat =
    match u_semanticTokens userConfig ≫= fun sem => sem !! cat with
    | Some tokens => Some tokens
    | None => semanticTokens DEFAULT_CONFIG !! cat
    end.
Proof.
  unfold mergeConfig; simpl.
  destruct (u_semanticTokens userConfig) as [user|]; simpl; [|reflexivity].
  rewrite lookup_union.
  destruct (user !! cat) as [tokens|] eqn:Hu; simpl.
  - destruct (DEFAULT_SEMANTIC !! cat); reflexivity.
  - destruct (DEFAULT_SEMANTIC !! cat); reflexivity.
Qed.

(** The same one-level rule for a nested field: a prefix the user leaves
    out keeps its default. *)
Lemma mergeConfig_prefix_default (userConfig : UserConfig) :
  field (u_prefixes userConfig) u_palette = None ->
  palette (prefixes (mergeConfig userConfig)) = "md".
Proof. intros H. unfold mergeConfig; simpl. rewrite H. reflexivity. Qed.

End MergeConfig.

(* ===================================================================== *)
(** * 14. Properties of hex normalization and of [generateTheme]           *)
(* ===================================================================== *)

Section Normalization.

Definition is_upper_hex (c : ascii) : bool :=
  JS.is_digit c || JS.in_range 65 70 c.

Fixpoint all_upper_hex (s : string) : bool :=
  match s with
  | EmptyString => true
  | String c s' => is_upper_hex c && all_upper_hex s'
  end.

(** The canonical form [#RRGGBB], upper case. *)
Definition canonical (s : string) : bool :=
  match s with
  | String "#" body => all_upper_hex body && (String.length body =? 6)
  | _ => false
  end.

(** The seed without its leading [#], if it has one. *)
Definition strip_hash (s : string) : string :=
  match s with
  | String "#" s' => s'
  | _ => s
  end.

Ltac each_ascii c :=
  destruct c as [[] [] [] [] [] [] [] []]; try reflexivity; try discriminate.

Lemma upper_char_idem c : JS.upper_char (JS.upper_char c) = JS.upper_char c.
Proof. each_ascii c. Qed.

Lemma toUpperCase_idem s : JS.toUpperCase (JS.toUpperCase s) = JS.toUpperCase s.
Proof. induction s as [|c s IH]; simpl; [reflexivity|]. now rewrite upper_char_idem, IH. Qed.

Lemma toUpperCase_length s : String.length (JS.toUpperCase s) = String.length s.
Proof. induction s as [|c s IH]; simpl; congruence. Qed.

Lemma upper_char_hex c : Hex.is_hex_digit c = true -> is_upper_hex (JS.upper_char c) = true.
Proof. each_ascii c. Qed.

Lemma upper_hex_is_hex c : is_upper_hex c = true -> Hex.is_hex_digit c = true.
Proof. each_ascii c. Qed.

Lemma upper_hex_fixed c : is_upper_hex c = true -> JS.upper_char c = c.
Proof. each_ascii c. Qed.

Lemma upper_of_lower_hex c :
  Hex.is_hex_digit c = true -> JS.upper_char (Hex.lower_char c) = JS.upper_char c.
Proof. each_ascii c. Qed.

Lemma upper_char_not_hash c : c <> "#"%char -> JS.upper_char c <> "#"%char.
Proof. each_ascii c; intros H; try congruence; discriminate. Qed.

Lemma all_hex_upper s : Hex.all_hex s = true -> all_upper_hex (JS.toUpperCase s) = true.
Proof.
  induction s as [|c s IH]; simpl; [reflexivity|].
  intros [Hc Hs]%andb_true_iff. now rewrite upper_char_hex, IH.
Qed.

Lemma all_upper_hex_is_hex s : all_upper_hex s = true -> Hex.all_hex s = true.
Proof.
  induction s as [|c s IH]; simpl; [reflexivity|].
  intros [Hc Hs]%andb_true_iff. now rewrite upper_hex_is_hex, IH.
Qed.

Lemma all_upper_hex_fixed s : all_upper_hex s = true -> JS.toUpperCase s = s.
Proof.
  induction s as [|c s IH]; simpl; [reflexivity|].
  intros [Hc Hs]%andb_true_iff. now rewrite upper_hex_fixed, IH.
Qed.

Lemma upper_lower_hex s :
  Hex.all_hex s = true -> JS.toUpperCase (Hex.toLowerCase s) = JS.toUpperCase s.
Proof.
  induction s as [|c s IH]; simpl; [reflexivity|].
  intros [Hc Hs]%andb_true_iff. now rewrite upper_of_lower_hex, IH.
Qed.

(** The seed normalization of [generateTheme] in one formula. *)
Lemma normalizeSeed_strip s :
  normalizeSeed s = "#" +:+ JS.toUpperCase (strip_hash s).
Proof.
  unfold normalizeSeed.
  destruct s as [|c s]; [reflexivity|].
  destruct c as [[] [] [] [] [] [] [] []]; reflexivity.
Qed.

Lemma normalizeSeed_idem s : normalizeSeed (normalizeSeed s) = normalizeSeed s.
Proof.
  rewrite (normalizeSeed_strip (normalizeSeed s)), (normalizeSeed_strip s).
  change (strip_hash ("#" +:+ JS.toUpperCase (strip_hash s)))
    with (JS.toUpperCase (strip_hash s)).
  now rewrite toUpperCase_idem.
Qed.

Lemma normalizeSeed_canonical s : canonical s = true -> normalizeSeed s = s.
Proof.
  destruct s as [|c body]; [discriminate|]. simpl.
  destruct (Ascii.eqb_spec c "#") as [->|Hne].
  - intros [Hb _]%andb_true_iff. rewrite normalizeSeed_strip. simpl.
    now rewrite all_upper_hex_fixed.
  - destruct c as [[] [] [] [] [] [] [] []]; try discriminate. now contradict Hne.
Qed.

Lemma normalizeHex_canonical lib s : canonical s = true -> normalizeHex lib s = Ok s.
Proof.
  destruct s as [|c body]; [discriminate|].
  destruct (Ascii.eqb_spec c "#") as [->|Hne].
  - simpl. intros [Hb Hl]%andb_true_iff.
    unfold normalizeHex, culori_formatHex, Hex.hex_digits.
    rewrite (all_upper_hex_is_hex _ Hb), Hl, orb_true_r. simpl.
    unfold Hex.six_digits.
    apply Nat.eqb_eq in Hl. rewrite Hl. simpl.
    rewrite upper_lower_hex by now apply all_upper_hex_is_hex.
    now rewrite all_upper_hex_fixed.
  - simpl. destruct c as [[] [] [] [] [] [] [] []]; try discriminate. now contradict Hne.
Qed.

End Normalization.

(** C5: hex normalization is canonicalizing and idempotent, for the
    normalizer of the colour formats ([normalizeHex]) and for the seed
    normalization of [generateTheme] ([normalizeSeed]): the three spellings
    of one colour all become [#769CDF], and a value already in the
    canonical form [#RRGGBB], upper case, is returned as it is. *)
Theorem hex_normalization_canonical (lib : Culori) :
  (normalizeHex lib "769cdf" = Ok "#769CDF"
   /\ normalizeHex lib "#769cdf" = Ok "#769CDF"
   /\ normalizeHex lib "#769CDF" = Ok "#769CDF")
  /\ (normalizeSeed "769cdf" = "#769CDF"
      /\ normalizeSeed "#769cdf" = "#769CDF"
      /\ normalizeSeed "#769CDF" = "#769CDF")
  /\ (forall s, canonical s = true ->
        normalizeHex lib s = Ok s /\ normalizeSeed s = s)
  /\ (forall s, normalizeSeed (normalizeSeed s) = normalizeSeed s).
Proof.
  split; [repeat split; reflexivity|].
  split; [repeat split; reflexivity|].
  split.
  - intros s Hs. split.
    + now apply normalizeHex_canonical.
    + now apply normalizeSeed_canonical.
  - apply normalizeSeed_idem.
Qed.

Lemma hex_normalization_canonical_witness :
  normalizeHex Fixture.culori "#00FF7F" = Ok "#00FF7F"
  /\ normalizeSeed "#00FF7F" = "#00FF7F".
Proof.
  destruct (hex_normalization_canonical Fixture.culori) as (_ & _ & H & _).
  apply (H "#00FF7F"). reflexivity.
Defined.

Section GenerateTheme.

Variable eng : Engine.

Lemma valid_seed_body s :
  isValidHexColor s = true ->
  Hex.all_hex (strip_hash s) = true
  /\ (String.length (strip_hash s) = 3 \/ String.length (strip_hash s) = 6).
Proof.
  unfold isValidHexColor. fold (strip_hash s).
  intros [Hh Hl]%andb_true_iff. split; [assumption|].
  apply orb_true_iff in Hl as [Hl|Hl]; apply Nat.eqb_eq in Hl; auto.
Qed.

(** The engine accepts every valid seed once it is normalized. *)
Lemma argbFromHex_valid s :
  isValidHexColor s = true ->
  exists argb, argbFromHex eng (normalizeSeed s) = Ok argb.
Proof.
  intros (Hh & Hl)%valid_seed_body.
  rewrite normalizeSeed_strip.
  change ("#" +:+ JS.toUpperCase (strip_hash s))
    with (String "#" (JS.toUpperCase (strip_hash s))).
  cbn [argbFromHex].
  rewrite (all_upper_hex_is_hex _ (all_hex_upper _ Hh)), toUpperCase_length.
  destruct Hl as [-> | ->]; simpl; eexists; reflexivity.
Qed.

(** C9: for every valid seed, [generateTheme] returns a theme whose [seed]
    is the input seed in upper case behind a [#], and whose
    [coreColors.primary] is that same text: the seed itself, never a
    colour the engine derives. *)
Theorem generateTheme_seed_is_primary (now seedHex : string) (variant : SchemeVariant) :
  isValidHexColor seedHex = true ->
  exists theme,
    generateTheme eng now seedHex variant = Ok theme
    /\ seed theme = "#" +:+ JS.toUpperCase (strip_hash seedHex)
    /\ primary (coreColors theme) = seed theme.
Proof.
  intros Hv. destruct (argbFromHex_valid _ Hv) as [argb Ha].
  unfold generateTheme. rewrite Ha. simpl.
  eexists. split; [reflexivity|]. simpl.
  split; [apply normalizeSeed_strip | reflexivity].
Qed.

(** The fields of a theme that carry colours. *)
Definition color_fields (t : MaterialTheme) :=
  (schemes t, palettes t, seed t, coreColors t, extendedColors t).

(** C10: two calls of [generateTheme] on one seed and one variant, at two
    readings of the clock, agree on [schemes], [palettes], [seed],
    [coreColors] and [extendedColors] (and fail together when the seed is
    refused); their [description] fields agree exactly when the two
    readings fall in the same second, so the whole themes may differ, as
    they do for the two readings given last. *)
Theorem generateTheme_deterministic_but_description
    (now1 now2 seedHex : string) (variant : SchemeVariant) :
  match generateTheme eng now1 seedHex variant,
        generateTheme eng now2 seedHex variant with
  | Ok t1, Ok t2 =>
      color_fields t1 = color_fields t2
      /\ (description t1 = description t2 <-> timestamp_of now1 = timestamp_of now2)
  | Err e1, Err e2 => e1 = e2
  | _, _ => False
  end
  /\ timestamp_of "2024-01-02T03:04:05.678Z" <> timestamp_of "2024-01-02T03:04:06.001Z".
Proof.
  split; [|discriminate].
  unfold generateTheme.
  destruct (argbFromHex eng (normalizeSeed seedHex)) as [argb|e]; simpl; [|reflexivity].
  split; [reflexivity|].
  split.
  - intros H. injection H as H. exact H.
  - intros ->. reflexivity.
Qed.

End GenerateTheme.

Lemma generateTheme_seed_is_primary_witness :
  exists theme,
    generateTheme Fixture.engine (Fixture.clock 0) "769cdf" tonal_spot = Ok theme
    /\ seed theme = "#769CDF"
    /\ primary (coreColors theme) = seed theme.
Proof.
  exact (generateTheme_seed_is_primary Fixture.engine (Fixture.clock 0) "769cdf"
           tonal_spot eq_refl).
Defined.

(* ===================================================================== *)
(** * 15. Properties of [fetchOpenProps]                                   *)
(* ===================================================================== *)

Section FetchOpenProps.

Variable host : Host.

(** A name that is neither a key of the map nor a member of
    [Object.prototype] is refused before any request. *)
Lemma fetchOpenProps_unknown_name (baseUrl fileName : string) (reqs : Requests) :
  OPENPROPS_SOURCE_FILES !! fileName = None ->
  fileName ∉ OBJECT_PROTOTYPE_KEYS ->
  fetchOpenProps host baseUrl fileName reqs
  = (reqs, Err ("Unknown Open Props file: " +:+ fileName)).
Proof.
  intros Hown Hproto. unfold fetchOpenProps, object_get.
  rewrite Hown, bool_decide_eq_false_2 by assumption. reflexivity.
Qed.

Example fetchOpenProps_nonexistent (baseUrl : string) (reqs : Requests) :
  fetchOpenProps host baseUrl "nonexistent" reqs
  = (reqs, Err "Unknown Open Props file: nonexistent").
Proof.
  apply fetchOpenProps_unknown_name; [reflexivity|].
  intros H. apply (bool_decide_eq_true_2 _) in H. vm_compute in H. discriminate H.
Qed.

(** C8 at the name [constructor], which is no key of the file-name map:
    the lookup finds the member that every object literal inherits, the
    guard lets it pass, and a request is initiated. *)
Theorem fetchOpenProps_constructor_is_fetched (baseUrl : string) (reqs : Requests) :
  OPENPROPS_SOURCE_FILES !! "constructor" = None
  /\ fst (fetchOpenProps host baseUrl "constructor" reqs)
     = reqs ++ [baseUrl +:+ "/" +:+ native_text host "constructor"].
Proof.
  split; [reflexivity|].
  unfold fetchOpenProps.
  change (object_get OPENPROPS_SOURCE_FILES "constructor")
    with (Some (VInherited "constructor")).
  cbn [falsy value_text].
  destruct (net_fetch host _) as [response|e]; [|reflexivity].
  destruct (resp_ok response); reflexivity.
Qed.

End FetchOpenProps.

(* ===================================================================== *)
(** * 16. Properties of [hexToOklch]                                       *)
(* ===================================================================== *)

(** Reading a printed number back: what the text of a channel denotes. *)
Module Decimal.

Definition read_nat (s : string) : option N :=
  match s with
  | EmptyString => None
  | _ => option_map N.of_uint (NilEmpty.uint_of_string s)
  end.

(** The text before the first point, and the text after it if there is one. *)
Fixpoint split_point (s : string) : string * option string :=
  match s with
  | EmptyString => (EmptyString, None)
  | String c s' =>
      if Ascii.eqb c "." then (EmptyString, Some s')
      else let '(a, b) := split_point s' in (String c a, b)
  end.

(** [read_fixed f s = Some n]: the text [s] is a numeral with exactly [f]
    decimals (and no point when [f = 0]), and it denotes [n / 10^f]. *)
Definition read_fixed (f : nat) (s : string) : option N :=
  match split_point s, f with
  | (a, None), O => read_nat a
  | (a, Some b), S _ =>
      if (String.length b =? f) && negb (String.length a =? 0)
      then read_nat (a +:+ b) else None
  | _, _ => None
  end.

(** [n / 10^f] is the multiple of [1 / 10^f] nearest to [x], the larger
    one when two are equally near. *)
Definition nearest (f : nat) (x : Q) (n : Z) : Prop :=
  (x * inject_Z (Num.pow10 f) - (1 # 2) < inject_Z n
   /\ inject_Z n <= x * inject_Z (Num.pow10 f) + (1 # 2))%Q.

End Decimal.

Section ToFixed.

Import Decimal.

Fixpoint all_digits (s : string) : bool :=
  match s with
  | EmptyString => true
  | String c s' => JS.is_digit c && all_digits s'
  end.

Lemma string_of_uint_digits d : all_digits (NilEmpty.string_of_uint d) = true.
Proof. induction d; simpl; auto. Qed.

Lemma natToString_digits n : all_digits (JS.natToString n) = true.
Proof. apply string_of_uint_digits. Qed.

Lemma natToString_nonempty n : JS.natToString n <> EmptyString.
Proof.
  unfold JS.natToString. destruct n as [|p]; [discriminate|]. simpl.
  pose proof (DecimalPos.Unsigned.to_uint_nonnil p) as Hn.
  destruct (Pos.to_uint p); try discriminate. now contradict Hn.
Qed.

Lemma read_nat_natToString n : read_nat (JS.natToString n) = Some n.
Proof.
  unfold read_nat. pose proof (natToString_nonempty n) as Hn.
  destruct (JS.natToString n) eqn:E; [now contradict Hn|]. rewrite <- E.
  unfold JS.natToString. rewrite NilEmpty.usu. simpl.
  now rewrite DecimalN.Unsigned.of_to.
Qed.

Lemma zeros_length j : String.length (Num.zeros j) = j.
Proof. induction j; simpl; congruence. Qed.

Lemma zeros_digits j : all_digits (Num.zeros j) = true.
Proof. induction j; simpl; auto. Qed.

Lemma app_cons c (a b : string) : String c a +:+ b = String c (a +:+ b).
Proof. reflexivity. Qed.

Lemma all_digits_app a b :
  all_digits (a +:+ b) = all_digits a && all_digits b.
Proof.
  induction a as [|c a IH]; [reflexivity|].
  rewrite app_cons. simpl. now rewrite IH, andb_assoc.
Qed.

Lemma app_length (a b : string) :
  String.length (a +:+ b) = String.length a + String.length b.
Proof.
  induction a as [|c a IH]; [reflexivity|].
  rewrite app_cons. simpl. now rewrite IH.
Qed.

(** Leading zeros do not change what a numeral denotes. *)
Lemma read_nat_zeros j s n :
  read_nat s = Some n -> read_nat (Num.zeros j +:+ s) = Some n.
Proof.
  intros H. induction j as [|j IH]; [assumption|].
  cbn [Num.zeros]. rewrite app_cons.
  unfold read_nat in *. simpl.
  destruct (Num.zeros j +:+ s) eqn:E; [discriminate IH|].
  destruct (NilEmpty.uint_of_string (String a s0)); [|discriminate].
  simpl in *. assumption.
Qed.

Lemma slice_app n s : JS.slice0 n s +:+ JS.sliceFrom n s = s.
Proof.
  revert s. induction n as [|n IH]; intros [|c s]; simpl; try reflexivity.
  rewrite app_cons. f_equal. apply IH.
Qed.

Lemma slice0_length n s :
  n <= String.length s -> String.length (JS.slice0 n s) = n.
Proof.
  revert s. induction n as [|n IH]; intros [|c s]; simpl; intros H; try lia.
  rewrite IH; lia.
Qed.

Lemma sliceFrom_length n s :
  String.length (JS.sliceFrom n s) = String.length s - n.
Proof.
  revert s. induction n as [|n IH]; intros [|c s]; simpl; try lia. apply IH.
Qed.

Lemma slice0_digits n s : all_digits s = true -> all_digits (JS.slice0 n s) = true.
Proof.
  revert s. induction n as [|n IH]; intros [|c s]; simpl; try reflexivity.
  intros [Hc Hs]%andb_true_iff. now rewrite Hc, IH.
Qed.

Lemma digit_not_point c : JS.is_digit c = true -> Ascii.eqb c "." = false.
Proof. destruct c as [[] [] [] [] [] [] [] []]; try reflexivity; discriminate. Qed.

Lemma split_point_digits a b :
  all_digits a = true -> split_point (a +:+ "." +:+ b) = (a, Some b).
Proof.
  induction a as [|c a IH]; [reflexivity|].
  rewrite app_cons. simpl.
  intros [Hc Ha]%andb_true_iff.
  now rewrite (digit_not_point _ Hc), (IH Ha).
Qed.

Lemma split_point_no_point a :
  all_digits a = true -> split_point a = (a, None).
Proof.
  induction a as [|c a IH]; simpl; [reflexivity|].
  intros [Hc Ha]%andb_true_iff.
  now rewrite (digit_not_point _ Hc), (IH Ha).
Qed.

(** The rounding of [toFixed]. *)
Lemma scaled_nearest f x : nearest f x (Num.scaled f x).
Proof.
  unfold nearest, Num.scaled.
  set (y := (x * inject_Z (Num.pow10 f) + (1 # 2))%Q).
  pose proof (Qfloor_le y) as Hle. pose proof (Qlt_floor y) as Hlt.
  split; [|exact Hle].
  rewrite inject_Z_plus in Hlt.
  apply Qplus_lt_l with (z := 1%Q).
  eapply Qle_lt_trans; [|exact Hlt].
  unfold y. ring_simplify. apply Qle_refl.
Qed.

Lemma pow10_pos f : (0 < Num.pow10 f)%Z.
Proof. unfold Num.pow10. apply Z.pow_pos_nonneg; lia. Qed.

Lemma scaled_nonneg f x : (0 <= x)%Q -> (0 <= Num.scaled f x)%Z.
Proof.
  intros Hx. unfold Num.scaled.
  change 0%Z with (Qfloor 0). apply Qfloor_resp_le.
  apply Qle_trans with (y := (x * inject_Z (Num.pow10 f))%Q).
  - apply Qmult_le_0_compat; [assumption|].
    change 0%Q with (inject_Z 0). rewrite <- Zle_Qle. pose proof (pow10_pos f). lia.
  - rewrite <- (Qplus_0_r (x * inject_Z (Num.pow10 f))) at 1.
    apply Qplus_le_r. discriminate.
Qed.

Lemma intToString_nonneg n : JS.intToString (Z.of_N n) = JS.natToString n.
Proof. destruct n; reflexivity. Qed.

(** What [toFixed] prints for a number that is not negative reads back
    as the nearest numeral with [f] decimals. *)
Lemma toFixed_reads f x :
  (0 <= x)%Q ->
  exists n, read_fixed f (Num.toFixed f x) = Some n /\ nearest f x (Z.of_N n).
Proof.
  intros Hx.
  assert (Hn : (0 <= Num.scaled f x)%Z) by now apply scaled_nonneg.
  exists (Z.to_N (Num.scaled f x)). rewrite Z2N.id by assumption.
  split; [|apply scaled_nearest].
  unfold Num.toFixed.
  assert (Hc : Qcompare x 0 <> Lt).
  { intros Hc. apply Qlt_alt in Hc. apply (Qlt_not_le _ _ Hc Hx). }
  destruct (Qcompare x 0) eqn:Ecmp; try now contradict Hc.
  all: assert (Ha : Num.scaled f (Qabs x) = Num.scaled f x)
         by (unfold Num.scaled; apply Qfloor_comp; now rewrite (Qabs_pos x Hx)).
  all: rewrite Ha; clear Ha.
  all: assert (E : JS.intToString (Num.scaled f x)
                   = JS.natToString (Z.to_N (Num.scaled f x)))
         by (rewrite <- intToString_nonneg, Z2N.id by assumption; reflexivity).
  all: rewrite E; clear E.
  all: set (m0 := JS.natToString (Z.to_N (Num.scaled f x))).
  all: set (m := if String.length m0 <=? f
                 then Num.zeros (f + 1 - String.length m0) +:+ m0 else m0).
  all: assert (Hdig : all_digits m = true)
         by (unfold m; destruct (String.length m0 <=? f);
             [rewrite all_digits_app, zeros_digits|]; apply natToString_digits).
  all: assert (Hread : read_nat m = Some (Z.to_N (Num.scaled f x)))
         by (unfold m; destruct (String.length m0 <=? f);
             [apply read_nat_zeros|]; apply read_nat_natToString).
  all: assert (Hlen : f + 1 <= String.length m)
         by (unfold m; destruct (Nat.leb_spec (String.length m0) f);
             [rewrite app_length, zeros_length|]; lia).
  all: destruct f as [|f']; cbn beta iota;
       [ unfold read_fixed; now rewrite split_point_no_point
       | unfold read_fixed;
         rewrite split_point_digits by now apply slice0_digits ].
  all: rewrite sliceFrom_length, slice0_length by lia.
  all: replace (String.length m - (String.length m - S f') =? S f') with true
         by (symmetry; apply Nat.eqb_eq; lia).
  all: replace (String.length m - S f' =? 0) with false
         by (symmetry; apply Nat.eqb_neq; lia).
  all: cbn [andb negb]; now rewrite slice_app.
Qed.

(** [Math.round] gives the nearest integer, a tie going up. *)
Lemma round_nearest x : nearest 0 x (JS.round x).
Proof.
  pose proof (scaled_nearest 0 x) as H. unfold nearest, Num.scaled in *.
  unfold JS.round.
  assert (E : (x * inject_Z (Num.pow10 0) == x)%Q) by apply Qmult_1_r.
  rewrite (Qfloor_comp _ _ (Qplus_comp _ _ E _ _ (Qeq_refl _))) in H. exact H.
Qed.

End ToFixed.

(** C6: for every hex colour the library parses, with its lightness and
    chroma not negative, [hexToOklch] returns [oklch(L C H)] where [L] is
    the lightness to two decimals; when the chroma is below the threshold
    [C] and [H] are exactly [0] and [0]; otherwise [C] is the chroma to
    three decimals and [H] the hue to the nearest integer. *)
Theorem hexToOklch_rounds (lib : Culori) (hexv : string) (color : Oklch) :
  culori_oklch lib hexv = Some color ->
  (0 <= or0 (ok_l color))%Q ->
  (0 <= or0 (ok_c color))%Q ->
  exists L C H : string,
    hexToOklch lib hexv = Ok ("oklch(" +:+ L +:+ " " +:+ C +:+ " " +:+ H +:+ ")")
    /\ (exists n, Decimal.read_fixed 2 L = Some n
                  /\ Decimal.nearest 2 (or0 (ok_l color)) (Z.of_N n))
    /\ if Num.Qltb (or0 (ok_c color)) Num.lit_0_001
       then C = "0" /\ H = "0"
       else (exists n, Decimal.read_fixed 3 C = Some n
                       /\ Decimal.nearest 3 (or0 (ok_c color)) (Z.of_N n))
            /\ (exists z, H = JS.intToString z
                          /\ Decimal.nearest 0 (or0 (ok_h color)) z).
Proof.
  intros Hparse Hl Hc. unfold hexToOklch. rewrite Hparse.
  destruct (Num.Qltb (or0 (ok_c color)) Num.lit_0_001) eqn:Hthr.
  - exists (Num.toFixed 2 (or0 (ok_l color))), "0", "0".
    split; [reflexivity|]. split; [now apply toFixed_reads | now split].
  - exists (Num.toFixed 2 (or0 (ok_l color))), (Num.toFixed 3 (or0 (ok_c color))),
           (JS.intToString (JS.round (or0 (ok_h color)))).
    split; [reflexivity|]. split; [now apply toFixed_reads|].
    split; [now apply toFixed_reads|].
    eexists; split; [reflexivity | apply round_nearest].
Qed.

Lemma hexToOklch_rounds_witness :
  exists L C H : string,
    hexToOklch Fixture.gray_culori "#808080"
    = Ok ("oklch(" +:+ L +:+ " " +:+ C +:+ " " +:+ H +:+ ")")
    /\ (exists n, Decimal.read_fixed 2 L = Some n
                  /\ Decimal.nearest 2 (59987 # 100000)%Q (Z.of_N n))
    /\ C = "0" /\ H = "0".
Proof.
  apply (hexToOklch_rounds Fixture.gray_culori "#808080" Fixture.gray eq_refl);
    discriminate.
Defined.

(** The pure gray of the stand-in library prints without its noise. *)
Example hexToOklch_gray :
  hexToOklch Fixture.gray_culori "#808080" = Ok "oklch(0.60 0 0)".
Proof. reflexivity. Qed.

(* ===================================================================== *)
(** * 17. Properties of the semantic renderer                              *)
(* ===================================================================== *)

Section SemanticColors.

Variable lib : Culori.
Variables lightScheme darkScheme : SchemeColors.
Variable prefixes : Prefixes.
Variable format : ColorFormat.

(** Both the light and the dark value of the role are there. *)
Definition both_present (r : ColorRole) : bool :=
  truthy (lightScheme !! schemeKey r) && truthy (darkScheme !! schemeKey r).

(** The roles to emit: those with both values, in the declared order. *)
Definition emitted_roles (roles : list ColorRole) : list ColorRole :=
  List.filter both_present roles.

(** The one custom property of a role. *)
Definition declaration (r : ColorRole) : result string :=
  let* l := formatColor lib (default "" (lightScheme !! schemeKey r)) format in
  let* d := formatColor lib (default "" (darkScheme !! schemeKey r)) format in
  let cssVar := "--" +:+ semantic prefixes +:+ "-color-" +:+ semanticName r in
  Ok ("    " +:+ cssVar +:+ ": light-dark(" +:+ l +:+ ", " +:+ d +:+ ");").

(** The emitted roles under their group headers: a header where the
    group changes, never repeated, and an empty line between two groups. *)
Fixpoint grouped (current : string) (rows : list (ColorRole * string)) : list string :=
  match rows with
  | [] => []
  | (r, line) :: rest =>
      (if String.eqb (group r) current then []
       else (if String.eqb current "" then [] else [""])
            ++ ["    /* " +:+ group r +:+ " */"])
      ++ line :: grouped (group r) rest
  end.

Lemma color_tokens_refines (roles : list ColorRole) :
  forall (current : string) (lines decls : list string),
    rmap declaration (emitted_roles roles) = Ok decls ->
    color_tokens lib lightScheme darkScheme prefixes format roles current lines
    = Ok (lines ++ grouped current (combine (emitted_roles roles) decls)).
Proof.
  induction roles as [|r rest IH]; intros current lines decls Hd.
  - simpl in *. injection Hd as <-. simpl. now rewrite app_nil_r.
  - cbn [color_tokens]. unfold emitted_roles in *. cbn [List.filter] in Hd |- *.
    unfold both_present at 1 in Hd. unfold both_present at 1.
    destruct (truthy (lightScheme !! schemeKey r)) eqn:Hl;
      destruct (truthy (darkScheme !! schemeKey r)) eqn:Hk;
      cbn [negb orb andb] in *; try now apply IH.
    cbn [rmap] in Hd. unfold declaration at 1 in Hd.
    destruct (formatColor lib (default "" (lightScheme !! schemeKey r)) format)
      as [l|e]; [|discriminate].
    destruct (formatColor lib (default "" (darkScheme !! schemeKey r)) format)
      as [d|e]; [|discriminate].
    cbn [rbind] in Hd |- *.
    destruct (rmap declaration (List.filter both_present rest)) as [ds|e] eqn:Hds;
      [|discriminate].
    cbn [rbind] in Hd. injection Hd as <-.
    rewrite (IH _ _ ds eq_refl). cbn [combine grouped]. f_equal.
    destruct (String.eqb (group r) current) eqn:Hg; cbn [negb].
    + apply String.eqb_eq in Hg. subst current. now rewrite <- app_assoc.
    + destruct (String.eqb current ""); cbn [negb];
        rewrite <- !app_assoc; reflexivity.
Qed.

End SemanticColors.

(** The lines of semantic.css around the colour tokens: what
    [generateSemanticCSS] pushes before its loop over [COLOR_ROLE_MAP],
    and what it pushes after it. *)
Definition semantic_opening (now : string) (prefixes : Prefixes) : list string :=
  [generateHeader now "Semantic Tokens (Tier 2) - THE APPLICATION API"
     (Some "Generated from seed color")
     (Some ("Naming: --" +:+ semantic prefixes +:+ "-[category]-[role]

This is the ONLY file developers should reference.
All tokens start with --" +:+ semantic prefixes +:+ "-

Uses CSS light-dark() for reactive theming."));
   "@layer ui.theme {"; "  :root {"; "    color-scheme: light dark;"; ""].

Definition semantic_closing (host : Host) (sem : SemanticConfig)
    (prefixes : Prefixes) (seedHue : Q) : list string :=
  [""; "    /* Shadow Color (for atomic shadows) */";
   "    --" +:+ semantic prefixes
     +:+ "-color-shadow: light-dark(oklch(0 0 0 / 0.1), oklch(0 0 0 / 0.6));"]
  ++ [""; "    /* Shadow Hue (derived from seed color) */";
      "    --" +:+ semantic prefixes +:+ "-shadow-hue: "
        +:+ JS.intToString (JS.round seedHue) +:+ ";"]
  ++ concat (map (category_tokens host sem prefixes) SEMANTIC_CATEGORIES)
  ++ ["  }"; "";
      "  /* Theme Toggles */";
      "  :root[data-theme=" +:+ JS.dq +:+ "light" +:+ JS.dq +:+ "] { color-scheme: light; }";
      "  :root[data-theme=" +:+ JS.dq +:+ "dark" +:+ JS.dq +:+ "] { color-scheme: dark; }";
      "}"; ""].

(** The text of the renderer, once the colour loop has returned. *)
Lemma generateSemanticCSS_lines (lib : Culori) (host : Host) (now : string)
    (lightScheme darkScheme : SchemeColors) (sem : SemanticConfig)
    (prefixes : Prefixes) (format : ColorFormat) (seedHue : Q) :
  generateSemanticCSS lib host now lightScheme darkScheme sem prefixes format seedHue
  = let* lines :=
      color_tokens lib lightScheme darkScheme prefixes format COLOR_ROLE_MAP ""
        (semantic_opening now prefixes) in
    Ok (JS.join JS.nl (lines ++ semantic_closing host sem prefixes seedHue)).
Proof.
  unfold generateSemanticCSS, semantic_opening, semantic_closing.
  destruct (color_tokens _ _ _ _ _ _ _ _) as [lines|e]; reflexivity.
Qed.

(** C7: a color-role token is emitted if and only if both the light and
    the dark value of the role are present.  When the values that are
    present all format, [generateSemanticCSS] fails on no absent value
    and returns a text whose colour section, between the opening lines
    and the shadow tokens, holds exactly the declarations of the roles of
    [COLOR_ROLE_MAP] that have both values, in the declared order, each
    group under its comment header; a role that lacks a value has no line
    there. *)
Theorem semantic_color_roles_emitted
    (lib : Culori) (host : Host) (now : string)
    (lightScheme darkScheme : SchemeColors) (sem : SemanticConfig)
    (prefixes : Prefixes) (format : ColorFormat) (seedHue : Q)
    (lines decls : list string) :
  rmap (declaration lib lightScheme darkScheme prefixes format)
       (emitted_roles lightScheme darkScheme COLOR_ROLE_MAP) = Ok decls ->
  generateSemanticCSS lib host now lightScheme darkScheme sem prefixes format seedHue
  = Ok (JS.join JS.nl
          (semantic_opening now prefixes
           ++ grouped "" (combine (emitted_roles lightScheme darkScheme COLOR_ROLE_MAP)
                                  decls)
           ++ semantic_closing host sem prefixes seedHue))
  /\ color_tokens lib lightScheme darkScheme prefixes format COLOR_ROLE_MAP "" lines
     = Ok (lines ++ grouped ""
                      (combine (emitted_roles lightScheme darkScheme COLOR_ROLE_MAP) decls))
  /\ (forall r, In r (emitted_roles lightScheme darkScheme COLOR_ROLE_MAP)
                <-> In r COLOR_ROLE_MAP
                    /\ truthy (lightScheme !! schemeKey r) = true
                    /\ truthy (darkScheme !! schemeKey r) = true)
  /\ length decls = length (emitted_roles lightScheme darkScheme COLOR_ROLE_MAP)
  /\ is_ok (generateSemanticCSS lib host now lightScheme darkScheme sem prefixes
              format seedHue) = true.
Proof.
  intros Hd.
  assert (Htext :
    generateSemanticCSS lib host now lightScheme darkScheme sem prefixes format seedHue
    = Ok (JS.join JS.nl
            (semantic_opening now prefixes
             ++ grouped "" (combine (emitted_roles lightScheme darkScheme COLOR_ROLE_MAP)
                                    decls)
             ++ semantic_closing host sem prefixes seedHue))).
  { rewrite generateSemanticCSS_lines.
    rewrite (color_tokens_refines lib lightScheme darkScheme prefixes format
               COLOR_ROLE_MAP "" _ decls Hd).
    cbn [rbind]. now rewrite <- app_assoc. }
  split; [exact Htext|].
  split; [now apply color_tokens_refines|]. split; [|split].
  - intros r. unfold emitted_roles. rewrite filter_In. unfold both_present.
    rewrite andb_true_iff. tauto.
  - clear Htext. revert decls Hd.
    generalize (emitted_roles lightScheme darkScheme COLOR_ROLE_MAP).
    induction l as [|r l IH]; intros decls Hd; simpl in Hd.
    + now injection Hd as <-.
    + destruct (declaration lib lightScheme darkScheme prefixes format r);
        [|discriminate].
      simpl in Hd.
      destruct (rmap (declaration lib lightScheme darkScheme prefixes format) l)
        as [ds|]; [|discriminate].
      simpl in Hd. injection Hd as <-. simpl. f_equal. now apply (IH ds).
  - now rewrite Htext.
Qed.

Definition fixture_declarations : list string :=
  match rmap (declaration Fixture.culori Fixture.light_scheme Fixture.dark_scheme
                (prefixes DEFAULT_CONFIG) oklch)
             (emitted_roles Fixture.light_scheme Fixture.dark_scheme COLOR_ROLE_MAP) with
  | Ok l => l
  | Err _ => []
  end.

Lemma semantic_color_roles_emitted_witness :
  ~ In (role "primary" "primary" "Primary")
       (emitted_roles Fixture.light_scheme Fixture.dark_scheme COLOR_ROLE_MAP)
  /\ In (role "onPrimary" "primary-on" "Primary")
        (emitted_roles Fixture.light_scheme Fixture.dark_scheme COLOR_ROLE_MAP)
  /\ generateSemanticCSS Fixture.culori Fixture.host (Fixture.clock 0)
       Fixture.light_scheme Fixture.dark_scheme DEFAULT_SEMANTIC
       (prefixes DEFAULT_CONFIG) oklch (2655 # 10)%Q
     = Ok (JS.join JS.nl
             (semantic_opening (Fixture.clock 0) (prefixes DEFAULT_CONFIG)
              ++ grouped "" (combine (emitted_roles Fixture.light_scheme
                                        Fixture.dark_scheme COLOR_ROLE_MAP)
                                     fixture_declarations)
              ++ semantic_closing Fixture.host DEFAULT_SEMANTIC
                   (prefixes DEFAULT_CONFIG) (2655 # 10)%Q)).
Proof.
  assert (Hd : rmap (declaration Fixture.culori Fixture.light_scheme Fixture.dark_scheme
                       (prefixes DEFAULT_CONFIG) oklch)
                    (emitted_roles Fixture.light_scheme Fixture.dark_scheme COLOR_ROLE_MAP)
               = Ok fixture_declarations) by (vm_compute; reflexivity).
  destruct (semantic_color_roles_emitted Fixture.culori Fixture.host (Fixture.clock 0)
              Fixture.light_scheme Fixture.dark_scheme DEFAULT_SEMANTIC
              (prefixes DEFAULT_CONFIG) oklch (2655 # 10)%Q [] fixture_declarations Hd)
    as (Htext & _ & Hin & _ & _).
  split; [|split].
  - intros H. pose proof (proj1 (Hin _) H) as (_ & _ & H').
    vm_compute in H'. discriminate H'.
  - apply (proj2 (Hin _)).
    split; [|split]; [|vm_compute; reflexivity|vm_compute; reflexivity].
    unfold COLOR_ROLE_MAP. right. left. reflexivity.
  - exact Htext.
Defined.


(* ===================================================================== *)
(** * 18. Properties of the orchestrator                                   *)
(* ===================================================================== *)

Section FileNames.

Definition is_separator (c : ascii) : bool :=
  Ascii.eqb c "/" || Ascii.eqb c "\".

Fixpoint no_separator (f : string) : bool :=
  match f with
  | EmptyString => true
  | String c f' => negb (is_separator c) && no_separator f'
  end.

(** The name of a file in a directory: no separator in it, and not one of
    the names that stand for a directory. *)
Definition plain_name (f : string) : bool :=
  no_separator f && negb (String.eqb f "") && negb (String.eqb f ".")
  && negb (String.eqb f "..").

(** What the orchestrator relies on when it joins a directory and a file
    name: the path still ends in that name, so two paths with different
    names are different files. *)
Definition keeps_names (join : string -> string -> string) : Prop :=
  forall d1 d2 f1 f2,
    plain_name f1 = true -> plain_name f2 = true ->
    join d1 f1 = join d2 f2 -> f1 = f2.

(** The names that pass the lookup of [fetchOpenProps]. *)
Definition LOOKUP_NAMES : list string :=
  ["fonts"; "sizes"; "shadows"; "borders"; "easings"; "animations"; "aspects"; "zindex"]
  ++ OBJECT_PROTOTYPE_KEYS.

Definition passes (name : string) : Prop :=
  falsy (object_get OPENPROPS_SOURCE_FILES name) = false.

Lemma passes_lookup name : passes name -> In name LOOKUP_NAMES.
Proof.
  unfold passes, object_get.
  destruct (OPENPROPS_SOURCE_FILES !! name) as [s|] eqn:E.
  - intros _. apply elem_of_list_to_map_2 in E.
    repeat (apply elem_of_cons in E as [E|E]; [injection E as -> _; simpl; tauto|]).
    now apply elem_of_nil in E.
  - destruct (bool_decide (name ∈ OBJECT_PROTOTYPE_KEYS)) eqn:B; [|discriminate].
    intros _. apply bool_decide_eq_true_1 in B. unfold LOOKUP_NAMES.
    apply in_or_app. right. now apply list_elem_of_In.
Qed.

(** The file of a name that passes the lookup is none of the four files
    the orchestrator names itself. *)
Definition css_file_ok (name : string) : bool :=
  plain_name (name +:+ ".css")
  && negb (String.eqb (name +:+ ".css") "app.css")
  && negb (String.eqb (name +:+ ".css") "palettes.css")
  && negb (String.eqb (name +:+ ".css") "semantic.css")
  && negb (String.eqb (name +:+ ".css") "index.css").

Lemma passes_css_file_ok name : passes name -> css_file_ok name = true.
Proof.
  intros H%passes_lookup.
  assert (A : forallb css_file_ok LOOKUP_NAMES = true) by reflexivity.
  rewrite forallb_forall in A. now apply A.
Qed.

Lemma list_of_app (a b : string) :
  list_ascii_of_string (a +:+ b) = list_ascii_of_string a ++ list_ascii_of_string b.
Proof.
  induction a as [|c a IH]; [reflexivity|].
  rewrite app_cons. simpl. now rewrite IH.
Qed.

Lemma list_of_inj (a b : string) :
  list_ascii_of_string a = list_ascii_of_string b -> a = b.
Proof.
  intros H. rewrite <- (string_of_list_ascii_of_string a),
                    <- (string_of_list_ascii_of_string b). now rewrite H.
Qed.

Lemma app_inj_tail (a b s : string) : a +:+ s = b +:+ s -> a = b.
Proof.
  intros H. apply list_of_inj.
  apply (f_equal list_ascii_of_string) in H. rewrite !list_of_app in H.
  now apply app_inv_tail in H.
Qed.

End FileNames.

Section FetchAll.

Variable host : Host.

Lemma fetchOpenProps_ok_passes (baseUrl name text : string) (reqs : Requests) :
  snd (fetchOpenProps host baseUrl name reqs) = Ok text -> passes name.
Proof.
  unfold fetchOpenProps, passes.
  destruct (falsy (object_get OPENPROPS_SOURCE_FILES name)); [discriminate|reflexivity].
Qed.

Lemma fetch_each_ok_passes (baseUrl : string) (names : list string) :
  forall (reqs : Requests) (name text : string),
    In (name, Ok text) (snd (fetch_each host baseUrl names reqs)) -> passes name.
Proof.
  induction names as [|n names IH]; intros reqs name text; simpl; [tauto|].
  destruct (fetchOpenProps host baseUrl n reqs) as [reqs1 content] eqn:E1.
  destruct (fetch_each host baseUrl names reqs1) as [reqs2 others] eqn:E2.
  simpl. intros [H|H].
  - injection H as -> ->.
    apply (fetchOpenProps_ok_passes baseUrl name text reqs). now rewrite E1.
  - apply (IH reqs1 name text). now rewrite E2.
Qed.

Lemma rmap_ok_in {A B} (f : A -> result B) (l : list A) :
  forall l', rmap f l = Ok l' ->
  forall y, In y l' -> exists x, In x l /\ f x = Ok y.
Proof.
  induction l as [|a l IH]; intros l' H y Hy; simpl in H.
  - injection H as <-. destruct Hy.
  - destruct (f a) as [b|] eqn:Ea; [|discriminate]. simpl in H.
    destruct (rmap f l) as [bs|] eqn:Eb; [|discriminate]. simpl in H.
    injection H as <-. destruct Hy as [<-|Hy].
    + exists a. split; [now left | assumption].
    + destruct (IH bs eq_refl y Hy) as (x & Hx & Hfx). exists x. split; [now right | assumption].
Qed.

Lemma map_set_in (n c : string) (m : list (string * string)) :
  forall k v, In (k, v) (map_set n c m) -> (k, v) = (n, c) \/ In (k, v) m.
Proof.
  induction m as [|[k0 v0] m IH]; intros k v; simpl.
  - intros [H|[]]. now left.
  - destruct (String.eqb_spec k0 n) as [->|Hne]; simpl.
    + intros [H|H]; [left; congruence | right; now right].
    + intros [H|H]; [right; now left|].
      destruct (IH k v H) as [H'|H']; [now left | right; now right].
Qed.

Lemma map_set_keys (n c : string) (m : list (string * string)) :
  forall k, In k (map fst (map_set n c m)) -> k = n \/ In k (map fst m).
Proof.
  intros k (kv & <- & H)%in_map_iff. destruct kv as [k v].
  destruct (map_set_in n c m k v H) as [E|E].
  - left. simpl. congruence.
  - right. apply in_map_iff. now exists (k, v).
Qed.

Lemma map_set_NoDup (n c : string) (m : list (string * string)) :
  List.NoDup (map fst m) -> List.NoDup (map fst (map_set n c m)).
Proof.
  induction m as [|[k0 v0] m IH]; simpl; intros Hm.
  - apply List.NoDup_cons_iff. split; [intros [] | assumption].
  - apply List.NoDup_cons_iff in Hm as [Hk Hm].
    destruct (String.eqb_spec k0 n) as [->|Hne]; simpl.
    + apply List.NoDup_cons_iff. now split.
    + apply List.NoDup_cons_iff. split; [|now apply IH].
      intros [E|E]%map_set_keys; [congruence | contradiction].
Qed.

(** The [Map] that [fetchAllOpenProps] fills. *)
Lemma results_map (fetched : list (string * string)) :
  forall acc,
    List.NoDup (map fst acc) ->
    List.NoDup (map fst (fold_left (fun results '(name, css) => map_set name css results)
                              fetched acc))
    /\ forall k v,
         In (k, v) (fold_left (fun results '(name, css) => map_set name css results)
                              fetched acc) ->
         In (k, v) fetched \/ In (k, v) acc.
Proof.
  induction fetched as [|[n c] fetched IH]; intros acc Hacc; simpl.
  - split; [assumption | tauto].
  - destruct (IH (map_set n c acc) (map_set_NoDup n c acc Hacc)) as [Hnd Hin].
    split; [assumption|]. intros k v H.
    destruct (Hin k v H) as [H'|H']; [left; now right|].
    destruct (map_set_in n c acc k v H') as [E|E]; [left; left; congruence | now right].
Qed.

Lemma imap_pair_in {A} (l : list A) :
  forall (i : nat) (x : A) (k : nat),
    In (i, x) (imap (fun j y => (k + j, y)) l) -> In x l.
Proof.
  induction l as [|a l IH]; intros i x k; simpl; [tauto|].
  intros [H|H]; [left; congruence|]. right.
  apply (IH i x (S k)).
  erewrite imap_ext; [exact H|]. intros j y _. simpl. f_equal. lia.
Qed.

(** What [fetchAllOpenProps] returns holds each name once, and only names
    that passed the lookup. *)
Lemma fetchAllOpenProps_ok (clock : nat -> string) (baseUrl : string)
    (fileNames : list string) (prefix : string) (seedHue : Q) (reqs reqs' : Requests)
    (openPropsFiles : list (string * string)) :
  fetchAllOpenProps host clock baseUrl fileNames prefix seedHue reqs
  = (reqs', Ok openPropsFiles) ->
  List.NoDup (map fst openPropsFiles)
  /\ forall name css, In (name, css) openPropsFiles -> passes name.
Proof.
  unfold fetchAllOpenProps.
  destruct (fetch_each host baseUrl fileNames reqs) as [r started] eqn:Es.
  intros H. injection H as _ H.
  destruct (rmap _ _) as [fetched|] eqn:Ef; [|discriminate]. simpl in H.
  injection H as <-.
  destruct (results_map fetched [] (List.NoDup_nil _)) as [Hnd Hin].
  split; [assumption|]. intros name css Hnc.
  destruct (Hin name css Hnc) as [Hf|[]].
  destruct (rmap_ok_in _ _ fetched Ef (name, css) Hf) as ([i [n content]] & Hx & Hfx).
  destruct content as [text|]; [|discriminate]. simpl in Hfx. injection Hfx as -> _.
  apply (fetch_each_ok_passes baseUrl fileNames reqs name text).
  rewrite Es. simpl.
  apply (imap_pair_in started i (name, Ok text) 0). exact Hx.
Qed.

End FetchAll.

Section Runs.

(** One step of a run, then the rest: what holds of every failure of the
    step and of the rest after every return holds of the whole. *)
Lemma step {A B} (m : Run A) (k : A -> Run B) (w : World)
    (P : World * result B -> Prop) :
  (forall w1 e, m w = (w1, Err e) -> P (w1, Err e)) ->
  (forall w1 a, m w = (w1, Ok a) -> P (k a w1)) ->
  P (bind m k w).
Proof.
  intros Hf Hr. unfold bind. destruct (m w) as [w1 [a|e]]; [now apply Hr | now apply Hf].
Qed.

Lemma bind_ok {A B} (m : Run A) (k : A -> Run B) (w w' : World) (b : B) :
  bind m k w = (w', Ok b) -> exists a w1, m w = (w1, Ok a) /\ k a w1 = (w', Ok b).
Proof.
  unfold bind. destruct (m w) as [w1 [a|e]]; [eauto | discriminate].
Qed.

Lemma throws_inv {A} (r : result A) (w w1 : World) (r1 : result A) :
  throws r w = (w1, r1) -> w1 = w /\ r1 = r.
Proof. now intros [= <- <-]. Qed.

Lemma mkdir_cases (host : Host) (path : string) (w : World) :
  (exists e, mkdir host path w = (w, Err e))
  \/ (exists d e,
        mkdir host path w
        = ({| fs := fs w; dirs := dirs w ∪ d; requests := requests w |}, Err e))
  \/ mkdir host path w
     = ({| fs := fs w; dirs := dirs w ∪ list_to_set (path_dirs host path);
           requests := requests w |}, Ok tt).
Proof.
  unfold mkdir. destruct (existsb _ _); [left; eauto|].
  destruct (existsb _ _); [right; left; eauto | now right; right].
Qed.

Lemma writeFile_cases (host : Host) (path data : string) (w : World) :
  (exists e, writeFile host path data w = (w, Err e))
  \/ ((path ∉ dirs w)
      /\ exists remains e,
           writeFile host path data w
           = ({| fs := <[path := remains]> (fs w); dirs := dirs w;
                 requests := requests w |}, Err e))
  \/ ((path ∉ dirs w)
      /\ writeFile host path data w
         = ({| fs := <[path := data]> (fs w); dirs := dirs w;
               requests := requests w |}, Ok tt)).
Proof.
  unfold writeFile. destruct (bool_decide (path ∈ dirs w)) eqn:E; [left; eauto|].
  apply bool_decide_eq_false_1 in E.
  destruct (fs_write host path data) as [| |remains];
    [right; right; now split | left; eauto | right; left; eauto].
Qed.

Lemma scaffoldApp_cases (env : Env) (config : TokenConfig) (w : World) :
  scaffoldApp env config w
  = if bool_decide (is_Some (fs w !! appPath env config))
       || bool_decide (appPath env config ∈ dirs w)
    then (w, Ok tt)
    else writeFile (env_host env) (appPath env config) generateAppCSS w.
Proof.
  unfold scaffoldApp, bind, fileExists.
  destruct (bool_decide _ || bool_decide _); reflexivity.
Qed.

Lemma mkdir_ok (host : Host) (path : string) (w w1 : World) :
  mkdir host path w = (w1, Ok tt) ->
  fs w1 = fs w /\ dirs w1 = dirs w ∪ list_to_set (path_dirs host path)
  /\ requests w1 = requests w.
Proof.
  destruct (mkdir_cases host path w) as [[e E]|[(d & e & E)|E]]; rewrite E;
    [discriminate|discriminate|].
  intros [= <-]. now repeat split.
Qed.

Lemma writeFile_ok (host : Host) (path data : string) (w w1 : World) :
  writeFile host path data w = (w1, Ok tt) ->
  fs w1 = <[path := data]> (fs w) /\ dirs w1 = dirs w /\ requests w1 = requests w.
Proof.
  destruct (writeFile_cases host path data w) as [[e E]|[(_ & remains & e & E)|[_ E]]];
    rewrite E; [discriminate|discriminate|].
  intros [= <-]. now repeat split.
Qed.

Lemma fetching_ok (host : Host) (clock : nat -> string) (baseUrl : string)
    (fileNames : list string) (prefix : string) (seedHue : Q) (w w1 : World)
    (openPropsFiles : list (string * string)) :
  fetching host clock baseUrl fileNames prefix seedHue w = (w1, Ok openPropsFiles) ->
  fs w1 = fs w /\ dirs w1 = dirs w
  /\ fetchAllOpenProps host clock baseUrl fileNames prefix seedHue (requests w)
     = (requests w1, Ok openPropsFiles).
Proof.
  unfold fetching. destruct (fetchAllOpenProps _ _ _ _ _ _ _) as [reqs fetched].
  intros [= <- ->]. now repeat split.
Qed.

Lemma scaffoldApp_ok (env : Env) (config : TokenConfig) (w w1 : World) :
  scaffoldApp env config w = (w1, Ok tt) ->
  dirs w1 = dirs w
  /\ fs w1 = if bool_decide (is_Some (fs w !! appPath env config))
                || bool_decide (appPath env config ∈ dirs w)
             then fs w else <[appPath env config := generateAppCSS]> (fs w).
Proof.
  rewrite scaffoldApp_cases.
  destruct (bool_decide _ || bool_decide _).
  - intros [= <-]. now split.
  - intros H. apply writeFile_ok in H as (Hf & Hd & _). now split.
Qed.

End Runs.

(** The files that the loop over the Open Props files leaves when every
    write is accepted. *)
Definition write_files (host : Host) (directory : string)
    (l : list (string * string)) (m : gmap string string) : gmap string string :=
  fold_left (fun m '(name, css) => <[path_join host directory (name +:+ ".css") := css]> m)
            l m.

Lemma write_all_ok (host : Host) (directory : string) (l : list (string * string)) :
  forall w w', write_all host directory l w = (w', Ok tt) ->
    fs w' = write_files host directory l (fs w)
    /\ dirs w' = dirs w /\ requests w' = requests w.
Proof.
  induction l as [|[n c] l IH]; intros w w' H.
  - injection H as <-. now repeat split.
  - cbn [write_all] in H. apply bind_ok in H as ([] & w1 & H1 & H2).
    destruct (writeFile_cases host (path_join host directory (n +:+ ".css")) c w)
      as [[e E]|[(_ & remains & e & E)|[_ E]]]; rewrite E in H1; [discriminate|discriminate|].
    injection H1 as <-. destruct (IH _ _ H2) as (Hf & Hd & Hr).
    cbn [fs dirs requests] in *. now repeat split.
Qed.

(** ** What every step of a run respects

    A relation between the world before and the world after that holds
    across each step of [generateTokens] holds from the start of a run to
    the world on which the scaffold step works, or to the world in which
    the run failed before it. *)
Section Steps.

Variable env : Env.
Variable options : TokenGeneratorOptions.

Let config := resolveConfig options.
Let host := env_host env.
Let join := path_join host.
Let outputDir := dir (output config).
Let materialDir := join outputDir (paletteSubdir (output config)).
Let openPropsDir := join outputDir (openpropsSubdir (output config)).

Variable R : World -> World -> Prop.
Hypothesis R_refl : forall w, R w w.
Hypothesis R_trans : forall a b c, R a b -> R b c -> R a c.
Hypothesis R_dirs : forall w d,
  R w {| fs := fs w; dirs := dirs w ∪ d; requests := requests w |}.
Hypothesis R_requests : forall w reqs,
  R w {| fs := fs w; dirs := dirs w; requests := reqs |}.

(** A path at which an accepted write respects the relation. *)
Definition writable (p : string) : Prop :=
  forall w data,
    p ∉ dirs w ->
    R w {| fs := <[p := data]> (fs w); dirs := dirs w; requests := requests w |}.

(** What is known of the names of the fetched files. *)
Variable fetched_name : string -> Prop.
Hypothesis fetched_names : forall seedHue reqs reqs' openPropsFiles,
  fetchAllOpenProps host (fun i => env_clock env (2 + i))
    (baseUrl (openprops config)) (files (openprops config))
    (primitives (prefixes config)) seedHue reqs = (reqs', Ok openPropsFiles) ->
  forall name css, In (name, css) openPropsFiles -> fetched_name name.

Hypothesis palettes_writable : writable (join materialDir "palettes.css").
Hypothesis openprops_writable : forall name,
  fetched_name name -> writable (join openPropsDir (name +:+ ".css")).
Hypothesis semantic_writable : writable (join outputDir "semantic.css").
Hypothesis index_writable : writable (join outputDir "index.css").

Lemma mkdir_respects path w w1 r : mkdir host path w = (w1, r) -> R w w1.
Proof.
  destruct (mkdir_cases host path w) as [[e E]|[(d & e & E)|E]]; rewrite E;
    intros [= <- _]; [apply R_refl | apply R_dirs | apply R_dirs].
Qed.

Lemma writeFile_respects path data w w1 r :
  writable path -> writeFile host path data w = (w1, r) -> R w w1.
Proof.
  intros Hp.
  destruct (writeFile_cases host path data w) as [[e E]|[(Hd & remains & e & E)|[Hd E]]];
    rewrite E; intros [= <- _]; [apply R_refl | now apply Hp | now apply Hp].
Qed.

Lemma write_all_respects directory (l : list (string * string)) :
  (forall name css, In (name, css) l -> writable (join directory (name +:+ ".css"))) ->
  forall w w1 r, write_all host directory l w = (w1, r) -> R w w1.
Proof.
  induction l as [|[n c] l IH]; intros Hl w w1 r H.
  - injection H as <- _. apply R_refl.
  - cbn [write_all] in H. unfold bind in H.
    destruct (writeFile host (path_join host directory (n +:+ ".css")) c w)
      as [w2 [[]|e]] eqn:E.
    + apply (R_trans _ w2).
      * apply (writeFile_respects _ _ _ _ _ (Hl n c (or_introl eq_refl)) E).
      * apply (IH (fun name css Hin => Hl name css (or_intror Hin)) _ _ _ H).
    + injection H as <- _.
      apply (writeFile_respects _ _ _ _ _ (Hl n c (or_introl eq_refl)) E).
Qed.

(** Where a run stands when it fails, or when it comes to the scaffold
    step. *)
Definition reaches (w : World) (out : World * result unit) : Prop :=
  exists w8, R w w8
             /\ ((exists e, out = (w8, Err e)) \/ out = scaffoldApp env config w8).

Lemma reaches_failure w w1 e : R w w1 -> reaches w (w1, Err e).
Proof. intros H. exists w1. split; [exact H | left; eauto]. Qed.

Lemma generateTokens_steps (w : World) : reaches w (generateTokens env options w).
Proof.
  unfold generateTokens. cbv zeta.
  fold config. fold host. fold join. fold outputDir. fold materialDir. fold openPropsDir.
  apply step; [intros w1 e E; apply reaches_failure; eapply mkdir_respects; exact E|].
  intros w1 [] E1. pose proof (mkdir_respects _ _ _ _ E1) as H1.
  apply step; [intros w2 e E; apply reaches_failure;
               apply (R_trans _ w1); [exact H1 | eapply mkdir_respects; exact E]|].
  intros w2 [] E2.
  assert (H2 : R w w2) by (apply (R_trans _ w1); [exact H1 | eapply mkdir_respects; exact E2]).
  apply step; [intros w3 e E; apply reaches_failure;
               apply (R_trans _ w2); [exact H2 | eapply mkdir_respects; exact E]|].
  intros w3 [] E3.
  assert (H3 : R w w3) by (apply (R_trans _ w2); [exact H2 | eapply mkdir_respects; exact E3]).
  apply step; [intros w4 e [-> _]%throws_inv; now apply reaches_failure|].
  intros w4 theme [-> _]%throws_inv.
  apply step; [intros w4 e [-> _]%throws_inv; now apply reaches_failure|].
  intros w4 seedHue [-> _]%throws_inv.
  apply step; [intros w4 e [-> _]%throws_inv; now apply reaches_failure|].
  intros w4 palettesCSS [-> _]%throws_inv.
  apply step; [intros w4 e E; apply reaches_failure; apply (R_trans _ w3);
               [exact H3 | eapply writeFile_respects; [exact palettes_writable | exact E]]|].
  intros w4 [] E4.
  assert (H4 : R w w4)
    by (apply (R_trans _ w3);
        [exact H3 | eapply writeFile_respects; [exact palettes_writable | exact E4]]).
  assert (Hfetch : forall w5 r, fetching host (fun i => env_clock env (2 + i))
             (baseUrl (openprops config)) (files (openprops config))
             (primitives (prefixes config)) seedHue w4 = (w5, r) -> R w4 w5).
  { unfold fetching. destruct (fetchAllOpenProps _ _ _ _ _ _ _) as [reqs fetched].
    intros w5 r [= <- _]. apply R_requests. }
  apply step; [intros w5 e E; apply reaches_failure; apply (R_trans _ w4);
               [exact H4 | eapply Hfetch; exact E]|].
  intros w5 openPropsFiles E5.
  assert (H5 : R w w5) by (apply (R_trans _ w4); [exact H4 | eapply Hfetch; exact E5]).
  assert (Hnames : forall name css, In (name, css) openPropsFiles -> fetched_name name).
  { unfold fetching in E5.
    destruct (fetchAllOpenProps _ _ _ _ _ _ _) as [reqs fetched] eqn:Ef.
    injection E5 as _ ->. exact (fetched_names _ _ _ _ Ef). }
  assert (Hall : forall w6 r, write_all host openPropsDir openPropsFiles w5 = (w6, r) ->
                              R w5 w6).
  { apply write_all_respects. intros name css Hin.
    apply openprops_writable. exact (Hnames name css Hin). }
  apply step; [intros w6 e E; apply reaches_failure; apply (R_trans _ w5);
               [exact H5 | eapply Hall; exact E]|].
  intros w6 [] E6.
  assert (H6 : R w w6) by (apply (R_trans _ w5); [exact H5 | eapply Hall; exact E6]).
  apply step; [intros w7 e [-> _]%throws_inv; now apply reaches_failure|].
  intros w7 semanticCSS [-> _]%throws_inv.
  apply step; [intros w7 e E; apply reaches_failure; apply (R_trans _ w6);
               [exact H6 | eapply writeFile_respects; [exact semantic_writable | exact E]]|].
  intros w7 [] E7.
  assert (H7 : R w w7)
    by (apply (R_trans _ w6);
        [exact H6 | eapply writeFile_respects; [exact semantic_writable | exact E7]]).
  apply step; [intros w8 e E; apply reaches_failure; apply (R_trans _ w7);
               [exact H7 | eapply writeFile_respects; [exact index_writable | exact E]]|].
  intros w8 [] E8.
  exists w8. split; [|now right].
  apply (R_trans _ w7);
    [exact H7 | eapply writeFile_respects; [exact index_writable | exact E8]].
Qed.

End Steps.

(** The files after the writes of a run that completes, before the
    scaffold step, and the directories its three [mkdir] calls leave. *)
Definition regenerated (env : Env) (options : TokenGeneratorOptions)
    (palettesCSS : string) (openPropsFiles : list (string * string))
    (semanticCSS indexCSS : string) (m : gmap string string) : gmap string string :=
  let config := resolveConfig options in
  let host := env_host env in
  let outputDir := dir (output config) in
  <[path_join host outputDir "index.css" := indexCSS]>
    (<[path_join host outputDir "semantic.css" := semanticCSS]>
       (write_files host (path_join host outputDir (openpropsSubdir (output config)))
          openPropsFiles
          (<[path_join host (path_join host outputDir (paletteSubdir (output config)))
               "palettes.css" := palettesCSS]> m))).

Definition made_dirs (env : Env) (options : TokenGeneratorOptions) (d : gset string)
  : gset string :=
  let config := resolveConfig options in
  let host := env_host env in
  let outputDir := dir (output config) in
  d ∪ list_to_set (path_dirs host outputDir)
    ∪ list_to_set (path_dirs host (path_join host outputDir (paletteSubdir (output config))))
    ∪ list_to_set (path_dirs host (path_join host outputDir
                                     (openpropsSubdir (output config)))).

Lemma write_files_cons (host : Host) (directory n c : string)
    (l : list (string * string)) (m : gmap string string) :
  write_files host directory ((n, c) :: l) m
  = write_files host directory l (<[path_join host directory (n +:+ ".css") := c]> m).
Proof. reflexivity. Qed.

Section Orchestrator.

(** The texts one run generates, apart from the scaffold. *)
Record Rendered : Type := {
  r_palettes : string;
  r_openprops : list (string * string);
  r_semantic : string;
  r_index : string
}.

(** The generation steps of [generateTokens] without its writes: which
    text each regenerated file is to hold. *)
Definition render (env : Env) (options : TokenGeneratorOptions) (reqs : Requests)
  : result Rendered :=
  let seed := opt_seed options in
  let scheme := over tonal_spot (opt_scheme options) in
  let config := resolveConfig options in
  let nfiles := length (files (openprops config)) in
  let* theme := generateTheme (env_engine env) (env_clock env 0) seed scheme in
  let* seedHue := getHue (env_culori env) seed in
  let* palettesCSS :=
    generatePalettesCSS (env_culori env) (env_clock env 1) (palettes theme)
      seed (prefixes config) (format config) in
  let* openPropsFiles :=
    snd (fetchAllOpenProps (env_host env) (fun i => env_clock env (2 + i))
           (baseUrl (openprops config)) (files (openprops config))
           (primitives (prefixes config)) seedHue reqs) in
  let* semanticCSS :=
    generateSemanticCSS (env_culori env) (env_host env) (env_clock env (2 + nfiles))
      (light (schemes theme)) (dark (schemes theme))
      (semanticTokens config) (prefixes config) (format config) seedHue in
  Ok {| r_palettes := palettesCSS;
        r_openprops := openPropsFiles;
        r_semantic := semanticCSS;
        r_index :=
          generateIndexCSS (env_clock env (3 + nfiles)) (files (openprops config))
            (prefixes config) (paletteSubdir (output config))
            (openpropsSubdir (output config)) |}.

Variable env : Env.
Variable options : TokenGeneratorOptions.

Let config := resolveConfig options.
Let host := env_host env.
Let join := path_join host.
Let outputDir := dir (output config).
Let materialDir := join outputDir (paletteSubdir (output config)).
Let openPropsDir := join outputDir (openpropsSubdir (output config)).

Hypothesis join_keeps_names : keeps_names join.

Lemma write_files_other (directory : string) (l : list (string * string)) :
  forall (m : gmap string string) (p : string),
    (forall name css, In (name, css) l -> join directory (name +:+ ".css") <> p) ->
    write_files host directory l m !! p = m !! p.
Proof.
  induction l as [|[n c] l IH]; intros m p Hp; [reflexivity|].
  rewrite write_files_cons, (IH _ p).
  - apply lookup_insert_ne. apply (Hp n c). now left.
  - intros name css H. apply (Hp name css). now right.
Qed.

Lemma write_files_in (directory : string) (l : list (string * string)) :
  forall (m : gmap string string) (name css : string),
    List.NoDup (map fst l) ->
    (forall n c, In (n, c) l -> passes n) ->
    In (name, css) l ->
    write_files host directory l m !! join directory (name +:+ ".css") = Some css.
Proof.
  induction l as [|[n c] l IH]; intros m name css Hnd Hpass Hin; [destruct Hin|].
  apply List.NoDup_cons_iff in Hnd as [Hn Hnd]. simpl in Hn.
  rewrite write_files_cons.
  destruct Hin as [E|Hin].
  - injection E as -> ->.
    rewrite write_files_other.
    + apply lookup_insert_eq.
    + intros n' c' H' E.
      assert (Hok : css_file_ok name = true)
        by (apply passes_css_file_ok, (Hpass name css); now left).
      assert (Hok' : css_file_ok n' = true)
        by (apply passes_css_file_ok, (Hpass n' c'); now right).
      unfold css_file_ok in Hok, Hok'. rewrite !andb_true_iff in Hok, Hok'.
      apply join_keeps_names in E; [|tauto|tauto].
      apply app_inj_tail in E. subst n'.
      apply Hn. apply in_map_iff. now exists (name, c').
  - apply IH; [assumption | | assumption].
    intros n' c' H'. apply (Hpass n' c'). now right.
Qed.

Lemma plain_fixed_names :
  plain_name "app.css" = true /\ plain_name "palettes.css" = true
  /\ plain_name "semantic.css" = true /\ plain_name "index.css" = true.
Proof. repeat split; reflexivity. Qed.

(** No file that a run regenerates is app.css. *)
Lemma app_apart (d f : string) :
  plain_name f = true -> f <> "app.css" -> join d f <> appPath env config.
Proof.
  intros Hf Hne E. apply Hne.
  apply (join_keeps_names d outputDir); [assumption | reflexivity | exact E].
Qed.

Lemma passes_apart (d name : string) :
  passes name -> join d (name +:+ ".css") <> appPath env config.
Proof.
  intros Hp. pose proof (passes_css_file_ok name Hp) as Hok.
  unfold css_file_ok in Hok. rewrite !andb_true_iff, !negb_true_iff in Hok.
  apply app_apart; [tauto|]. apply String.eqb_neq. tauto.
Qed.

(** A run never writes over an app.css that is there, whether it
    completes or fails on the way. *)
Lemma generateTokens_keeps_app (w w' : World) (r : result unit) (text : string) :
  generateTokens env options w = (w', r) ->
  fs w !! appPath env config = Some text ->
  fs w' !! appPath env config = Some text.
Proof.
  intros Hrun.
  destruct plain_fixed_names as (Happ & Hpal & Hsem & Hidx).
  set (R := fun a b : World => fs a !! appPath env config = Some text ->
                               fs b !! appPath env config = Some text).
  assert (Hw : forall p, p <> appPath env config -> writable R p).
  { intros p Hp a data _ Ha. cbn [fs]. now rewrite lookup_insert_ne. }
  assert (Hsteps : reaches env options R w (generateTokens env options w)).
  { apply (generateTokens_steps env options R) with (fetched_name := passes).
    - intros a Ha. exact Ha.
    - intros a b c Hab Hbc Ha. apply Hbc, Hab, Ha.
    - intros a d Ha. exact Ha.
    - intros a reqs Ha. exact Ha.
    - intros s r1 r2 l E. apply (fetchAllOpenProps_ok _ _ _ _ _ _ _ _ _ E).
    - apply Hw, app_apart; [assumption | discriminate].
    - intros name Hn. apply Hw, passes_apart, Hn.
    - apply Hw, app_apart; [assumption | discriminate].
    - apply Hw, app_apart; [assumption | discriminate]. }
  destruct Hsteps as (w8 & H8 & Hout).
  intros H0. specialize (H8 H0). rewrite Hrun in Hout.
  destruct Hout as [[e E]|E].
  - now injection E as -> _.
  - rewrite scaffoldApp_cases in E.
    rewrite (bool_decide_eq_true_2 (is_Some (fs w8 !! appPath env config))) in E by eauto.
    cbn [orb] in E. now injection E as -> _.
Qed.

(** A run that completes has written the rendered texts and then taken
    the scaffold step: it writes the template where [stat] finds neither
    a file nor a directory. *)
Lemma generateTokens_completes (w w' : World) :
  generateTokens env options w = (w', Ok tt) ->
  exists out,
    render env options (requests w) = Ok out
    /\ List.NoDup (map fst (r_openprops out))
    /\ (forall n c, In (n, c) (r_openprops out) -> passes n)
    /\ dirs w' = made_dirs env options (dirs w)
    /\ fs w'
       = let m := regenerated env options (r_palettes out) (r_openprops out)
                    (r_semantic out) (r_index out) (fs w) in
         if bool_decide (is_Some (m !! appPath env config))
            || bool_decide (appPath env config ∈ dirs w')
         then m else <[appPath env config := generateAppCSS]> m.
Proof.
  intros H. unfold generateTokens in H. cbv zeta in H.
  apply bind_ok in H as ([] & w1 & (Hf1 & Hd1 & Hr1)%mkdir_ok & H).
  apply bind_ok in H as ([] & w2 & (Hf2 & Hd2 & Hr2)%mkdir_ok & H).
  apply bind_ok in H as ([] & w3 & (Hf3 & Hd3 & Hr3)%mkdir_ok & H).
  apply bind_ok in H as (theme & w4 & [-> Ht]%throws_inv & H).
  apply bind_ok in H as (seedHue & w4 & [-> Hh]%throws_inv & H).
  apply bind_ok in H as (palettesCSS & w4 & [-> Hp]%throws_inv & H).
  apply bind_ok in H as ([] & w4 & (Hf4 & Hd4 & Hr4)%writeFile_ok & H).
  apply bind_ok in H as (openPropsFiles & w5 & (Hf5 & Hd5 & Ef)%fetching_ok & H).
  destruct (fetchAllOpenProps_ok _ _ _ _ _ _ _ _ _ Ef) as [Hnd Hpass].
  apply bind_ok in H as ([] & w6 & (Hf6 & Hd6 & Hr6)%write_all_ok & H).
  apply bind_ok in H as (semanticCSS & w7 & [-> Hs]%throws_inv & H).
  apply bind_ok in H as ([] & w7 & (Hf7 & Hd7 & Hr7)%writeFile_ok & H).
  apply bind_ok in H as ([] & w8 & (Hf8 & Hd8 & Hr8)%writeFile_ok & H).
  apply scaffoldApp_ok in H as (Hd9 & Hf9).
  exists {| r_palettes := palettesCSS; r_openprops := openPropsFiles;
            r_semantic := semanticCSS;
            r_index := generateIndexCSS
                         (env_clock env (3 + length (files (openprops (resolveConfig options)))))
                         (files (openprops (resolveConfig options)))
                         (prefixes (resolveConfig options))
                         (paletteSubdir (output (resolveConfig options)))
                         (openpropsSubdir (output (resolveConfig options))) |}.
  split.
  { unfold render. cbv zeta. rewrite <- Ht. cbn [rbind]. rewrite <- Hh. cbn [rbind].
    rewrite <- Hp. cbn [rbind].
    rewrite Hr4, Hr3, Hr2, Hr1 in Ef. rewrite Ef. cbn [snd rbind].
    rewrite <- Hs. reflexivity. }
  cbn [r_palettes r_openprops r_semantic r_index].
  split; [exact Hnd|]. split; [exact Hpass|].
  assert (Hd : dirs w' = made_dirs env options (dirs w)).
  { unfold made_dirs. cbv zeta.
    now rewrite Hd9, Hd8, Hd7, Hd6, Hd5, Hd4, Hd3, Hd2, Hd1. }
  split; [exact Hd|]. cbv zeta.
  assert (Hm : fs w8
               = regenerated env options palettesCSS openPropsFiles semanticCSS
                   (generateIndexCSS
                      (env_clock env (3 + length (files (openprops (resolveConfig options)))))
                      (files (openprops (resolveConfig options)))
                      (prefixes (resolveConfig options))
                      (paletteSubdir (output (resolveConfig options)))
                      (openpropsSubdir (output (resolveConfig options)))) (fs w)).
  { unfold regenerated. cbv zeta.
    now rewrite Hf8, Hf7, Hf6, Hf5, Hf4, Hf3, Hf2, Hf1. }
  rewrite Hf9, <- Hm. now rewrite Hd9.
Qed.

(** None of the regenerated files is app.css. *)
Lemma regenerated_app (palettesCSS : string) (openPropsFiles : list (string * string))
    (semanticCSS indexCSS : string) (m : gmap string string) :
  (forall n c, In (n, c) openPropsFiles -> passes n) ->
  regenerated env options palettesCSS openPropsFiles semanticCSS indexCSS m
    !! appPath env config
  = m !! appPath env config.
Proof.
  intros Hpass. destruct plain_fixed_names as (Happ & Hpal & Hsem & Hidx).
  unfold regenerated. cbv zeta.
  rewrite !lookup_insert_ne by (apply app_apart; [assumption|discriminate]).
  rewrite write_files_other.
  - apply lookup_insert_ne. now apply app_apart.
  - intros name css Hin. apply passes_apart. exact (Hpass name css Hin).
Qed.

(** A run that completes leaves every regenerated file with the text it
    rendered, whatever the file held before. *)
Lemma generateTokens_overwrites (w w' : World) :
  generateTokens env options w = (w', Ok tt) ->
  exists out,
    render env options (requests w) = Ok out
    /\ fs w' !! join materialDir "palettes.css" = Some (r_palettes out)
    /\ (forall name css, In (name, css) (r_openprops out) ->
          fs w' !! join openPropsDir (name +:+ ".css") = Some css)
    /\ fs w' !! join outputDir "semantic.css" = Some (r_semantic out)
    /\ fs w' !! join outputDir "index.css" = Some (r_index out).
Proof.
  intros H. destruct (generateTokens_completes w w' H)
    as (out & Hr & Hnd & Hpass & Hd & Hfs).
  destruct plain_fixed_names as (Happ & Hpal & Hsem & Hidx).
  assert (Hne : forall d1 d2 f1 f2, plain_name f1 = true -> plain_name f2 = true ->
                                    f1 <> f2 -> join d1 f1 <> join d2 f2).
  { intros d1 d2 f1 f2 H1 H2 Hne E. apply Hne. now apply (join_keeps_names d1 d2). }
  assert (Hfile : forall name css, In (name, css) (r_openprops out) ->
            plain_name (name +:+ ".css") = true
            /\ name +:+ ".css" <> "app.css" /\ name +:+ ".css" <> "palettes.css"
            /\ name +:+ ".css" <> "semantic.css" /\ name +:+ ".css" <> "index.css").
  { intros name css Hin.
    pose proof (passes_css_file_ok name (Hpass name css Hin)) as Hok.
    unfold css_file_ok in Hok. rewrite !andb_true_iff, !negb_true_iff in Hok.
    rewrite <- !String.eqb_neq. tauto. }
  assert (Hother : forall p, p <> appPath env config ->
            fs w' !! p
            = regenerated env options (r_palettes out) (r_openprops out)
                (r_semantic out) (r_index out) (fs w) !! p).
  { intros p Hp. rewrite Hfs. cbv zeta.
    destruct (bool_decide _ || bool_decide _); [reflexivity|].
    now apply lookup_insert_ne. }
  exists out. split; [assumption|].
  split; [|split; [|split]].
  - rewrite Hother by (apply app_apart; [assumption|discriminate]).
    unfold regenerated. cbv zeta.
    rewrite !lookup_insert_ne by (apply Hne; [assumption|assumption|discriminate]).
    rewrite write_files_other.
    + apply lookup_insert_eq.
    + intros name css Hin. destruct (Hfile name css Hin) as (? & ? & ? & ? & ?).
      now apply Hne.
  - intros name css Hin. destruct (Hfile name css Hin) as (? & ? & ? & ? & ?).
    rewrite Hother by (apply app_apart; assumption).
    unfold regenerated. cbv zeta.
    rewrite !lookup_insert_ne
      by (apply Hne; [assumption|assumption|]; intros E; symmetry in E; contradiction).
    now apply write_files_in.
  - rewrite Hother by (apply app_apart; [assumption|discriminate]).
    unfold regenerated. cbv zeta.
    rewrite lookup_insert_ne by (apply Hne; [assumption|assumption|discriminate]).
    apply lookup_insert_eq.
  - rewrite Hother by (apply app_apart; [assumption|discriminate]).
    unfold regenerated. cbv zeta. apply lookup_insert_eq.
Qed.

(** The scaffold after a run that completes: the file as it was; where
    there was none, the template, unless the path is a directory. *)
Lemma generateTokens_scaffolds (w w' : World) :
  generateTokens env options w = (w', Ok tt) ->
  fs w' !! appPath env config
  = match fs w !! appPath env config with
    | Some text => Some text
    | None => if bool_decide (appPath env config ∈ dirs w') then None
              else Some generateAppCSS
    end.
Proof.
  intros H. destruct (generateTokens_completes w w' H)
    as (out & Hr & Hnd & Hpass & Hd & Hfs).
  rewrite Hfs. cbv zeta. rewrite (regenerated_app _ _ _ _ _ Hpass).
  destruct (fs w !! appPath env config) as [text|] eqn:E.
  - rewrite (bool_decide_eq_true_2 (is_Some (Some text))) by eauto. cbn [orb].
    now rewrite regenerated_app.
  - rewrite (bool_decide_eq_false_2 (is_Some None)) by (intros [? ?]; discriminate).
    cbn [orb]. destruct (bool_decide (appPath env config ∈ dirs w')).
    + now rewrite regenerated_app.
    + apply lookup_insert_eq.
Qed.

End Orchestrator.

Lemma keeps_names_ext (join1 join2 : string -> string -> string) :
  (forall d f, join2 d f = join1 d f) -> keeps_names join1 -> keeps_names join2.
Proof.
  intros E H d1 d2 f1 f2 H1 H2. rewrite !E. now apply H.
Qed.

(** C3: two runs of [generateTokens] against one output directory.  A
    run keeps an app.css that is there as it found it, whatever text it
    holds and whether the run completes or fails; so does the second
    run.  A run that completes on a path where there was no app.css
    leaves the template there, unless the path is a directory, on which
    [stat] succeeds too.  A second run that completes leaves
    palettes.css, each adapted Open Props file, semantic.css and
    index.css with what it rendered itself.  The path library is taken to
    keep the name of a file in the path it builds. *)
Theorem scaffold_idempotence
    (env1 env2 : Env) (options : TokenGeneratorOptions) (w0 w1 w2 : World)
    (r1 r2 : result unit) :
  keeps_names (path_join (env_host env1)) ->
  (forall d f, path_join (env_host env2) d f = path_join (env_host env1) d f) ->
  generateTokens env1 options w0 = (w1, r1) ->
  generateTokens env2 options w1 = (w2, r2) ->
  let config := resolveConfig options in
  let join := path_join (env_host env1) in
  let outputDir := dir (output config) in
  (forall text, fs w0 !! join outputDir "app.css" = Some text ->
                fs w1 !! join outputDir "app.css" = Some text)
  /\ (forall text, fs w1 !! join outputDir "app.css" = Some text ->
                   fs w2 !! join outputDir "app.css" = Some text)
  /\ (r1 = Ok tt ->
      fs w1 !! join outputDir "app.css"
      = match fs w0 !! join outputDir "app.css" with
        | Some text => Some text
        | None => if bool_decide (join outputDir "app.css" ∈ dirs w1) then None
                  else Some generateAppCSS
        end)
  /\ (r2 = Ok tt ->
      exists out,
        render env2 options (requests w1) = Ok out
        /\ fs w2 !! join (join outputDir (paletteSubdir (output config))) "palettes.css"
           = Some (r_palettes out)
        /\ (forall name css, In (name, css) (r_openprops out) ->
              fs w2 !! join (join outputDir (openpropsSubdir (output config)))
                         (name +:+ ".css") = Some css)
        /\ fs w2 !! join outputDir "semantic.css" = Some (r_semantic out)
        /\ fs w2 !! join outputDir "index.css" = Some (r_index out)).
Proof.
  intros Hk Hj H1 H2 config join outputDir.
  pose proof (keeps_names_ext _ _ Hj Hk) as Hk2.
  split; [|split; [|split]].
  - intros text. apply (generateTokens_keeps_app env1 options Hk w0 w1 r1 text H1).
  - intros text.
    pose proof (generateTokens_keeps_app env2 options Hk2 w1 w2 r2 text H2) as Hkeep.
    unfold appPath in Hkeep. rewrite Hj in Hkeep. exact Hkeep.
  - intros ->. apply (generateTokens_scaffolds env1 options Hk w0 w1 H1).
  - intros ->.
    destruct (generateTokens_overwrites env2 options Hk2 w1 w2 H2)
      as (out & Hr & Hp & Ho & Hsem & Hidx).
    repeat rewrite Hj in Hp. repeat rewrite Hj in Hsem. repeat rewrite Hj in Hidx.
    exists out.
    split; [assumption|]. split; [assumption|]. split; [|split; assumption].
    intros name css Hin. specialize (Ho name css Hin).
    repeat rewrite Hj in Ho. exact Ho.
Qed.

Section FixtureRuns.

Lemma no_separator_slash (a b : string) : no_separator (a +:+ "/" +:+ b) = false.
Proof.
  induction a as [|c a IH]; [reflexivity|].
  rewrite app_cons. simpl. rewrite IH. apply andb_false_r.
Qed.

Lemma slash_join_name (d1 : string) :
  forall d2 f1 f2,
    no_separator f1 = true -> no_separator f2 = true ->
    d1 +:+ "/" +:+ f1 = d2 +:+ "/" +:+ f2 -> f1 = f2.
Proof.
  induction d1 as [|c d1 IH]; intros [|c2 d2] f1 f2 H1 H2 E.
  - change (String "/" f1 = String "/" f2) in E. now injection E.
  - change (String "/" f1 = String c2 (d2 +:+ "/" +:+ f2)) in E.
    injection E as _ E. subst f1. now rewrite no_separator_slash in H1.
  - change (String c (d1 +:+ "/" +:+ f1) = String "/" f2) in E.
    injection E as _ E. subst f2. now rewrite no_separator_slash in H2.
  - rewrite !app_cons in E. injection E as _ E. now apply (IH d2).
Qed.

Lemma fixture_join_keeps_names : keeps_names (path_join Fixture.host).
Proof.
  intros d1 d2 f1 f2 H1 H2 E. unfold plain_name in H1, H2.
  rewrite !andb_true_iff in H1, H2.
  apply (slash_join_name d1 d2); tauto.
Qed.

(** Two runs of the stand-in environment into the directory [out]. *)
Definition first_run : World :=
  (generateTokens Fixture.env Fixture.options Fixture.empty_world).1.
Definition second_run : World :=
  (generateTokens Fixture.later_env Fixture.options first_run).1.

(** A world in which app.css was edited by hand. *)
Definition edited_world : World :=
  {| fs := {[ "out/app.css" := ":root { --sidebar-width: 300px; }" ]};
     dirs := {[ "out" ]}; requests := [] |}.

(** Options that make app.css the directory of the palettes. *)
Definition app_directory_options : TokenGeneratorOptions :=
  {| opt_seed := "#769CDF"; opt_output := Some "out"; opt_format := None;
     opt_scheme := None;
     opt_config :=
       Some {| u_format := None; u_prefixes := None;
               u_output := Some {| u_dir := None; u_paletteSubdir := Some "app.css";
                                   u_openpropsSubdir := None |};
               u_openprops := None; u_semanticTokens := None |} |}.

End FixtureRuns.

Lemma scaffold_idempotence_witness :
  (forall text, fs Fixture.empty_world !! "out/app.css" = Some text ->
                fs first_run !! "out/app.css" = Some text)
  /\ (forall text, fs first_run !! "out/app.css" = Some text ->
                   fs second_run !! "out/app.css" = Some text)
  /\ (Ok tt = Ok tt ->
      fs first_run !! "out/app.css"
      = match fs Fixture.empty_world !! "out/app.css" with
        | Some text => Some text
        | None => if bool_decide ("out/app.css" ∈ dirs first_run) then None
                  else Some generateAppCSS
        end)
  /\ (Ok tt = Ok tt ->
      exists out,
        render Fixture.later_env Fixture.options (requests first_run) = Ok out
        /\ fs second_run !! "out/material/palettes.css" = Some (r_palettes out)
        /\ (forall name css, In (name, css) (r_openprops out) ->
              fs second_run !! ("out/open-props/" +:+ name +:+ ".css") = Some css)
        /\ fs second_run !! "out/semantic.css" = Some (r_semantic out)
        /\ fs second_run !! "out/index.css" = Some (r_index out)).
Proof.
  apply (scaffold_idempotence Fixture.env Fixture.later_env Fixture.options
           Fixture.empty_world first_run second_run (Ok tt) (Ok tt)
           fixture_join_keeps_names).
  - reflexivity.
  - vm_compute. reflexivity.
  - vm_compute. reflexivity.
Defined.

(** The first run of the stand-in environment writes the template, and
    the second run rewrites index.css: its header carries the later
    time. *)
Example second_run_rewrites_index :
  fs first_run !! "out/app.css" = Some generateAppCSS
  /\ fs first_run !! "out/index.css" <> fs second_run !! "out/index.css".
Proof. split; [vm_compute; reflexivity | vm_compute; discriminate]. Qed.

(** A hand edit survives a run. *)
Example hand_edit_survives :
  fs (generateTokens Fixture.env Fixture.options edited_world).1 !! "out/app.css"
  = Some ":root { --sidebar-width: 300px; }"
  /\ is_ok (generateTokens Fixture.env Fixture.options edited_world).2 = true.
Proof. split; vm_compute; reflexivity. Qed.

(** Where the palettes go to a directory named app.css, the run makes
    that directory, [stat] finds it, and no template is written. *)
Example app_directory_is_skipped :
  is_ok (generateTokens Fixture.env app_directory_options Fixture.empty_world).2 = true
  /\ fs (generateTokens Fixture.env app_directory_options Fixture.empty_world).1
       !! "out/app.css" = None
  /\ is_Some (fs (generateTokens Fixture.env app_directory_options Fixture.empty_world).1
                !! "out/app.css/palettes.css").
Proof. split; [|split]; vm_compute; eauto. Qed.


(* ===================================================================== *)
(** * 19. Facts about the regular expressions                              *)
(* ===================================================================== *)

Section RegexFacts.

Import Regex.

Fixpoint takeW (p : ascii -> bool) (s : list ascii) : list ascii :=
  match s with
  | c :: s' => if p c then c :: takeW p s' else []
  | [] => []
  end.

Fixpoint dropW (p : ascii -> bool) (s : list ascii) : list ascii :=
  match s with
  | c :: s' => if p c then dropW p s' else s
  | [] => []
  end.

(** The character before the position reached after reading [x]. *)
Definition last_prev (prev : option ascii) (x : list ascii) : option ascii :=
  fold_left (fun _ c => Some c) x prev.

Lemma takeW_dropW p s : takeW p s ++ dropW p s = s.
Proof. induction s as [|c s IH]; simpl; [reflexivity|]. destruct (p c); simpl; congruence. Qed.

Lemma firstn_minus_app {A} (x y : list A) :
  firstn (length (x ++ y) - length y) (x ++ y) = x.
Proof.
  rewrite length_app, Nat.add_sub. rewrite firstn_app, Nat.sub_diag, firstn_all.
  simpl. apply app_nil_r.
Qed.

(** A greedy star commits to the longest run when its continuation
    cannot start on a character of the class. *)
Lemma star_commit {R} (p : ascii -> bool) (k : cont R) :
  (forall c s' pv cs, p c = true -> k pv (c :: s') cs = None) ->
  forall s prev cs,
    star p prev s cs k = k (last_prev prev (takeW p s)) (dropW p s) cs.
Proof.
  intros Hk. induction s as [|c s IH]; intros prev cs; simpl; [reflexivity|].
  destruct (p c) eqn:Hc; simpl; [|reflexivity].
  rewrite IH.
  destruct (k (last_prev (Some c) (takeW p s)) (dropW p s) cs); [reflexivity|].
  now apply Hk.
Qed.

Lemma name_char_not_space c : Re.name_char c = true -> JS.is_space c = false.
Proof. destruct c as [[] [] [] [] [] [] [] []]; try reflexivity; discriminate. Qed.

Lemma name_char_not_colon c : Re.name_char c = true -> Ascii.eqb ":" c = false.
Proof. destruct c as [[] [] [] [] [] [] [] []]; try reflexivity; discriminate. Qed.

Lemma space_not_colon c : JS.is_space c = true -> Ascii.eqb ":" c = false.
Proof. destruct c as [[] [] [] [] [] [] [] []]; try reflexivity; discriminate. Qed.

(** What the definition pattern matches after its first group: two
    hyphens, a letter, the longest run of name characters, the longest run
    of blanks, and a colon.  The result is the captures and the input
    after the colon. *)
Definition definition_body (g1 : list ascii) (s : list ascii)
  : option (captures * list ascii) :=
  match s with
  | "-"%char :: "-"%char :: l :: s2 =>
      if JS.is_alpha l then
        let name := l :: takeW Re.name_char s2 in
        match dropW JS.is_space (dropW Re.name_char s2) with
        | ":"%char :: s5 =>
            Some ([(3, name); (4, name);
                   (2, ["-"%char; "-"%char]); (1, g1)], s5)
        | _ => None
        end
      else None
  | _ => None
  end.

(** The definition pattern at one position: at the start of a line the
    body may begin at once; otherwise a blank or a semicolon comes first. *)
Definition definition_at (prev : option ascii) (s : list ascii)
  : option (captures * list ascii) :=
  match (if at_line_start prev then definition_body [] s else None) with
  | Some r => Some r
  | None =>
      match s with
      | c :: s' =>
          if JS.is_space c then definition_body [c] s'
          else if Ascii.eqb c ";" then definition_body [c] s'
          else None
      | [] => None
      end
  end.

End RegexFacts.
Section DefinitionPattern.

Import Regex.

Definition definition_tail : regex :=
  Seq (Grp 2 (Lit "--"))
      (Seq (Grp 3 (Grp 4 (Seq (Cls JS.is_alpha) (Star Re.name_char))))
           (Seq (Star JS.is_space) (Lit ":"))).

Lemma take_diff_cons {A} (c : A) (s : list A) :
  firstn (length (c :: s) - length s) (c :: s) = [c].
Proof. simpl length. replace (S (length s) - length s) with 1 by lia. reflexivity. Qed.

Lemma take_diff_cons' {A} (c d : A) (s : list A) :
  firstn (length (c :: d :: s) - length s) (c :: d :: s) = [c; d].
Proof. simpl length. replace (S (S (length s)) - length s) with 2 by lia. reflexivity. Qed.

Lemma dropW_length p s : length (dropW p s) <= length s.
Proof. induction s as [|c s IH]; simpl; [lia|]. destruct (p c); simpl; lia. Qed.

Lemma take_minus_dropW p s :
  firstn (length s - length (dropW p s)) s = takeW p s.
Proof.
  rewrite <- (takeW_dropW p s) at 1 3. apply firstn_minus_app.
Qed.

Lemma take_minus_dropW_cons p l s :
  firstn (length (l :: s) - length (dropW p s)) (l :: s) = l :: takeW p s.
Proof.
  pose proof (dropW_length p s). simpl length.
  replace (S (length s) - length (dropW p s)) with (S (length s - length (dropW p s))) by lia.
  simpl. now rewrite take_minus_dropW.
Qed.

Lemma lit_colon_fails {R} c s pv cs (k : cont R) :
  Ascii.eqb ":" c = false -> lit (list_ascii_of_string ":") pv (c :: s) cs k = None.
Proof. intros H. cbn [lit list_ascii_of_string]. now rewrite H. Qed.

Lemma blanks_then_colon {R} s prev cs (k : cont R) :
  star JS.is_space prev s cs
    (fun prev' s' cs' => lit (list_ascii_of_string ":") prev' s' cs' k)
  = match dropW JS.is_space s with
    | ":"%char :: s5 => k (Some ":"%char) s5 cs
    | _ => None
    end.
Proof.
  rewrite star_commit.
  - destruct (dropW JS.is_space s) as [|c s5]; [reflexivity|].
    cbn [lit list_ascii_of_string].
    destruct (Ascii.eqb_spec ":" c) as [<-|Hne]; [reflexivity|].
    destruct c as [[] [] [] [] [] [] [] []]; try reflexivity. now contradict Hne.
  - intros c s' pv cs' Hc. apply lit_colon_fails. now apply space_not_colon.
Qed.

Ltac fold_colon_cont :=
  change (fun (_ : option ascii) (s' : list ascii) (cs' : captures) =>
            match s' with
            | [] => None
            | d :: s'0 => if Ascii.eqb ":" d then Some (cs', s'0) else None
            end)
    with (fun prev' s' cs' =>
            lit (list_ascii_of_string ":") prev' s' cs'
              (fun (_ : option ascii) s'' cs => Some (cs, s''))).

Lemma run_definition_tail prev s g1 :
  run definition_tail prev s [(1, g1)] (fun _ s' cs => Some (cs, s'))
  = definition_body g1 s.
Proof.
  unfold definition_tail, definition_body. cbn [run].
  destruct s as [|c1 s]; [reflexivity|]. cbn [lit list_ascii_of_string].
  destruct (Ascii.eqb_spec "-" c1) as [<-|];
    [|destruct c1 as [[] [] [] [] [] [] [] []]; try reflexivity; congruence].
  destruct s as [|c2 s]; [reflexivity|].
  destruct (Ascii.eqb_spec "-" c2) as [<-|];
    [|destruct c2 as [[] [] [] [] [] [] [] []]; try reflexivity; congruence].
  destruct s as [|l s2]; [reflexivity|].
  destruct (JS.is_alpha l) eqn:Hl; [|reflexivity].
  rewrite star_commit.
  - cbv beta. fold_colon_cont. rewrite blanks_then_colon.
    destruct (dropW JS.is_space (dropW Re.name_char s2)) as [|c s5] eqn:E; [reflexivity|].
    destruct c as [[] [] [] [] [] [] [] []]; try reflexivity.
    rewrite take_diff_cons', take_minus_dropW_cons. reflexivity.
  - intros c s' pv cs Hc. fold_colon_cont. rewrite blanks_then_colon.
    cbn [dropW]. rewrite (name_char_not_space _ Hc).
    destruct c as [[] [] [] [] [] [] [] []]; try reflexivity; discriminate.
Qed.

(** The definition pattern, decided without backtracking. *)
Lemma match_at_definition prev s :
  match_at Re.definition_re prev s = definition_at prev s.
Proof.
  unfold match_at, definition_at.
  change Re.definition_re
    with (Seq (Grp 1 (Alt Bol (Alt (Cls JS.is_space) (Cls (Re.just ";")))))
              definition_tail).
  cbn [run]. rewrite Nat.sub_diag. change (firstn 0 s) with (@nil ascii).
  rewrite run_definition_tail.
  destruct (if at_line_start prev then definition_body [] s else None);
    [reflexivity|].
  destruct s as [|c s']; [reflexivity|].
  rewrite take_diff_cons, !run_definition_tail. unfold Re.just.
  destruct (JS.is_space c) eqn:Hs.
  - destruct (definition_body [c] s'); [reflexivity|].
    destruct c as [[] [] [] [] [] [] [] []]; try reflexivity; discriminate.
  - destruct (Ascii.eqb c ";"); reflexivity.
Qed.

(** ** Replacing in a text that continues *)

Definition lift (rest' : list ascii) (r : option (captures * list ascii))
  : option (captures * list ascii) :=
  match r with
  | Some (cs, rest) => Some (cs, rest ++ rest')
  | None => None
  end.

Lemma last_prev_cons prev c x : last_prev prev (c :: x) = last_prev (Some c) x.
Proof. reflexivity. Qed.

Lemma last_prev_app prev x y : last_prev prev (x ++ y) = last_prev (last_prev prev x) y.
Proof. unfold last_prev. apply fold_left_app. Qed.

Section ReplaceApp.

Variable r : regex.
Variable ngroups : nat.
Variable tmpl : list ascii.
(** The text that follows. *)
Variable tail : list ascii.

(** The expression matches nothing at the end of the input, a match
    that begins before [tail] is decided before [tail], and the template
    does not refer to the text after the match. *)
Hypothesis no_match_at_end : forall prev, match_at r prev [] = None.
Hypothesis decided_before : forall x prev,
  x <> [] -> match_at r prev (x ++ tail) = lift tail (match_at r prev x).
Hypothesis template_local : forall b m g a1 a2,
  expand ngroups (Found b m g a1) tmpl = expand ngroups (Found b m g a2) tmpl.

Lemma replace_go_app (a : list ascii) :
  forall k pre prev,
    k <= length a ->
    replace_go r ngroups tmpl k pre prev (a ++ tail)
    = replace_go r ngroups tmpl k pre prev a
      ++ replace_go r ngroups tmpl 0 (rev a ++ pre) (last_prev prev a) tail.
Proof.
  induction a as [|c a IH]; intros k pre prev Hk.
  - assert (k = 0) as -> by (simpl in Hk; lia).
    cbn [app rev last_prev fold_left replace_go]. now rewrite no_match_at_end.
  - assert (Hrev : forall p, rev (c :: a) ++ p = rev a ++ c :: p)
      by (intros p; simpl; now rewrite <- app_assoc).
    rewrite Hrev, last_prev_cons.
    destruct k as [|k]; cbn [app replace_go].
    + change (c :: a ++ tail) with ((c :: a) ++ tail).
      rewrite decided_before by discriminate.
      destruct (match_at r prev (c :: a)) as [[cs rest]|]; cbn [lift].
      * rewrite !length_app.
        replace (length (c :: a) + length tail - (length rest + length tail))
          with (length (c :: a) - length rest) by lia.
        set (n := length (c :: a) - length rest).
        assert (Hn : n <= length (c :: a)) by (unfold n; lia).
        rewrite firstn_app.
        replace (n - length (c :: a)) with 0 by lia.
        cbn [firstn]. rewrite app_nil_r.
        rewrite (template_local (rev pre) (firstn n (c :: a)) cs (rest ++ tail) rest).
        rewrite <- app_assoc. f_equal.
        destruct n as [|k]; cbn [app].
        -- f_equal. apply IH. lia.
        -- apply IH. simpl in Hn. lia.
      * cbn [app]. f_equal. apply IH. lia.
    + apply IH. simpl in Hk. lia.
Qed.

End ReplaceApp.

(** Passing over the characters of a match already replaced. *)
Lemma replace_go_skip r ngroups tmpl (x : list ascii) :
  forall pre prev b,
    replace_go r ngroups tmpl (length x) pre prev (x ++ b)
    = replace_go r ngroups tmpl 0 (rev x ++ pre) (last_prev prev x) b.
Proof.
  induction x as [|c x IH]; intros pre prev b; [reflexivity|].
  cbn [length app replace_go]. rewrite IH, last_prev_cons. simpl rev.
  now rewrite <- app_assoc.
Qed.

(** Text in which no match begins is copied as it is. *)
Lemma replace_go_copy r ngroups tmpl (x : list ascii) :
  forall pre prev b,
    (forall y z, x = y ++ z -> z <> [] ->
                 match_at r (last_prev prev y) (z ++ b) = None) ->
    replace_go r ngroups tmpl 0 pre prev (x ++ b)
    = x ++ replace_go r ngroups tmpl 0 (rev x ++ pre) (last_prev prev x) b.
Proof.
  induction x as [|c x IH]; intros pre prev b H; [reflexivity|].
  pose proof (H [] (c :: x) eq_refl ltac:(discriminate)) as H0.
  cbn [app last_prev fold_left] in H0.
  cbn [app replace_go]. rewrite H0.
  f_equal. rewrite IH.
  - rewrite last_prev_cons. simpl rev. now rewrite <- app_assoc.
  - intros y z -> Hz. apply (H (c :: y) z); [reflexivity | assumption].
Qed.

Lemma takeW_app p x y :
  takeW p (x ++ y) = if forallb p x then x ++ takeW p y else takeW p x.
Proof.
  induction x as [|c x IH]; [reflexivity|]. simpl.
  destruct (p c); [|reflexivity]. simpl. rewrite IH. now destruct (forallb p x).
Qed.

Lemma dropW_app p x y :
  dropW p (x ++ y) = if forallb p x then dropW p y else dropW p x ++ y.
Proof.
  induction x as [|c x IH]; [reflexivity|]. simpl.
  destruct (p c); [|reflexivity]. simpl. exact IH.
Qed.

Lemma dropW_all p x : forallb p x = true -> dropW p x = [].
Proof.
  induction x as [|c x IH]; [reflexivity|]. simpl.
  intros [-> H]%andb_true_iff. now apply IH.
Qed.

Lemma dropW_not_all p x :
  forallb p x = false -> exists c z, dropW p x = c :: z /\ p c = false.
Proof.
  induction x as [|c x IH]; [discriminate|]. simpl.
  destruct (p c) eqn:Hc; simpl.
  - apply IH.
  - intros _. now exists c, x.
Qed.

(** A text on which the body of the definition pattern cannot go on:
    its first character is no name character and no colon, and no colon
    follows its leading blanks. *)
Definition blocks (t : list ascii) : Prop :=
  match t with
  | d :: _ => Re.name_char d = false /\ d <> ":"%char
  | [] => False
  end
  /\ match dropW JS.is_space t with
     | ":"%char :: _ => False
     | _ => True
     end.

Lemma alpha_name_char c : JS.is_alpha c = true -> Re.name_char c = true.
Proof. unfold Re.name_char. now intros ->. Qed.

Lemma hyphen_name_char : Re.name_char "-" = true.
Proof. reflexivity. Qed.

Lemma definition_body_app g1 x t :
  blocks t -> definition_body g1 (x ++ t) = lift t (definition_body g1 x).
Proof.
  intros [Hd Hs]. destruct t as [|d t]; [destruct Hd|]. destruct Hd as [Hn Hc].
  assert (Hnot : forall c, Re.name_char c = true -> c <> d) by (intros c H ->; congruence).
  unfold definition_body.
  destruct x as [|c1 x].
  { cbn [app lift].
    destruct d as [[] [] [] [] [] [] [] []]; try reflexivity.
    exfalso. now apply (Hnot _ hyphen_name_char). }
  cbn [app].
  destruct (Ascii.eqb_spec c1 "-") as [->|Hc1];
    [|destruct c1 as [[] [] [] [] [] [] [] []]; try reflexivity; now contradict Hc1].
  destruct x as [|c2 x].
  { cbn [app lift].
    destruct d as [[] [] [] [] [] [] [] []]; try reflexivity.
    exfalso. now apply (Hnot _ hyphen_name_char). }
  cbn [app].
  destruct (Ascii.eqb_spec c2 "-") as [->|Hc2];
    [|destruct c2 as [[] [] [] [] [] [] [] []]; try reflexivity; now contradict Hc2].
  destruct x as [|l x].
  { cbn [app lift].
    destruct (JS.is_alpha d) eqn:Ha; [|reflexivity].
    apply alpha_name_char in Ha. congruence. }
  cbn [app]. destruct (JS.is_alpha l); [|reflexivity].
  rewrite takeW_app, dropW_app.
  assert (Ht : takeW Re.name_char (d :: t) = []) by (simpl; now rewrite Hn).
  assert (Hdr : dropW Re.name_char (d :: t) = d :: t) by (simpl; now rewrite Hn).
  rewrite Ht, Hdr, app_nil_r.
  remember (dropW JS.is_space (d :: t)) as blanks eqn:Eb.
  destruct (forallb Re.name_char x) eqn:Hall.
  - assert (Hx : takeW Re.name_char x = x).
    { pose proof (takeW_dropW Re.name_char x) as E.
      rewrite (dropW_all _ _ Hall), app_nil_r in E. exact E. }
    rewrite (dropW_all _ _ Hall), Hx, <- Eb.
    change (dropW JS.is_space []) with (@nil ascii). cbn [lift].
    destruct blanks as [|e z]; [reflexivity|].
    destruct e as [[] [] [] [] [] [] [] []]; try reflexivity. destruct Hs.
  - rewrite dropW_app, <- Eb.
    destruct (forallb JS.is_space (dropW Re.name_char x)) eqn:Hsp.
    + rewrite (dropW_all _ _ Hsp). cbn [lift].
      destruct blanks as [|e z]; [reflexivity|].
      destruct e as [[] [] [] [] [] [] [] []]; try reflexivity. destruct Hs.
    + destruct (dropW_not_all _ _ Hsp) as (e & z & -> & He).
      cbn [app]. destruct e as [[] [] [] [] [] [] [] []]; reflexivity.
Qed.

Lemma definition_at_app prev x t :
  blocks t -> x <> [] ->
  definition_at prev (x ++ t) = lift t (definition_at prev x).
Proof.
  intros Hb Hx. unfold definition_at.
  destruct (at_line_start prev).
  - rewrite definition_body_app by assumption.
    destruct (definition_body [] x) as [[cs rest]|]; [reflexivity|]. cbn [lift].
    destruct x as [|c x]; [now contradict Hx|]. cbn [app].
    destruct (JS.is_space c); [now apply definition_body_app|].
    destruct (Ascii.eqb c ";"); [now apply definition_body_app | reflexivity].
  - destruct x as [|c x]; [now contradict Hx|]. cbn [app].
    destruct (JS.is_space c); [now apply definition_body_app|].
    destruct (Ascii.eqb c ";"); [now apply definition_body_app | reflexivity].
Qed.

(** ** The template of [prefixOpenPropsCSS] *)

Definition not_dollar (c : ascii) : bool := negb (Ascii.eqb c "$").

Definition template (prefix : string) : list ascii :=
  list_ascii_of_string ("$1--" +:+ prefix +:+ "-$3:").

Lemma expand_plain ngroups m x t :
  forallb not_dollar x = true ->
  expand ngroups m (x ++ t) = x ++ expand ngroups m t.
Proof.
  induction x as [|c x IH]; [reflexivity|]. simpl.
  intros [Hc Hx]%andb_true_iff. unfold not_dollar in Hc. rewrite Hc.
  now rewrite IH.
Qed.

(** With no dollar sign in the prefix, the template stands for the first
    group, two hyphens, the prefix, a hyphen, the third group and a colon. *)
Lemma expand_template m prefix :
  forallb not_dollar (list_ascii_of_string prefix) = true ->
  expand 4 m (template prefix)
  = group_text 1 m ++ list_ascii_of_string "--" ++ list_ascii_of_string prefix
    ++ list_ascii_of_string "-" ++ group_text 3 m ++ list_ascii_of_string ":".
Proof.
  intros Hp. unfold template.
  change ("$1--" +:+ prefix +:+ "-$3:")
    with (String "$" (String "1" (String "-" (String "-" (prefix +:+ "-$3:"))))).
  cbn [list_ascii_of_string]. rewrite list_of_app.
  change (expand 4 m ("$"%char :: "1"%char :: "-"%char :: "-"%char
                      :: list_ascii_of_string prefix ++ list_ascii_of_string "-$3:"))
    with (group_text 1 m
          ++ expand 4 m (["-"%char; "-"%char]
                         ++ list_ascii_of_string prefix ++ list_ascii_of_string "-$3:")).
  rewrite expand_plain by reflexivity.
  rewrite expand_plain by assumption.
  reflexivity.
Qed.

(** ** A definition site *)

Definition delimiter (c : ascii) : bool := JS.is_space c || Ascii.eqb c ";".

Lemma delimiter_facts d :
  delimiter d = true ->
  Re.name_char d = false /\ d <> ":"%char /\ d <> "-"%char
  /\ (JS.is_space d = false -> d = ";"%char).
Proof.
  destruct d as [[] [] [] [] [] [] [] []]; try discriminate;
    intros _; repeat split; try discriminate; try reflexivity;
    intros H; discriminate H.
Qed.

Lemma takeW_blanks_colon ws b :
  forallb JS.is_space ws = true ->
  takeW Re.name_char (ws ++ ":"%char :: b) = []
  /\ dropW Re.name_char (ws ++ ":"%char :: b) = ws ++ ":"%char :: b
  /\ dropW JS.is_space (ws ++ ":"%char :: b) = ":"%char :: b.
Proof.
  intros Hws. split; [|split].
  - destruct ws as [|c ws]; [reflexivity|]. simpl in *.
    apply andb_true_iff in Hws as [Hc _].
    destruct (Re.name_char c) eqn:E; [|reflexivity].
    apply name_char_not_space in E. congruence.
  - destruct ws as [|c ws]; [reflexivity|]. simpl in *.
    apply andb_true_iff in Hws as [Hc _].
    destruct (Re.name_char c) eqn:E; [|reflexivity].
    apply name_char_not_space in E. congruence.
  - rewrite dropW_app, Hws. reflexivity.
Qed.

(** The text of a definition: two hyphens, the name, blanks, a colon. *)
Definition site (l : ascii) (ns ws : list ascii) : list ascii :=
  "-"%char :: "-"%char :: l :: ns ++ ws ++ [":"%char].

Lemma definition_body_site g1 l ns ws b :
  JS.is_alpha l = true ->
  forallb Re.name_char ns = true ->
  forallb JS.is_space ws = true ->
  definition_body g1 (site l ns ws ++ b)
  = Some ([(3, l :: ns); (4, l :: ns); (2, ["-"%char; "-"%char]); (1, g1)], b).
Proof.
  intros Hl Hns Hws. unfold site, definition_body. cbn [app]. rewrite Hl.
  rewrite <- !app_assoc. cbn [app].
  destruct (takeW_blanks_colon ws b Hws) as (Ht & Hd & Hs).
  rewrite takeW_app, dropW_app, Hns, Ht, Hd, Hs, app_nil_r. reflexivity.
Qed.

Lemma definition_at_site prev d l ns ws b :
  delimiter d = true ->
  JS.is_alpha l = true ->
  forallb Re.name_char ns = true ->
  forallb JS.is_space ws = true ->
  definition_at prev (d :: site l ns ws ++ b)
  = Some ([(3, l :: ns); (4, l :: ns); (2, ["-"%char; "-"%char]); (1, [d])], b).
Proof.
  intros Hd Hl Hns Hws.
  destruct (delimiter_facts d Hd) as (_ & _ & Hh & Hsemi).
  unfold definition_at.
  assert (E : definition_body [] (d :: site l ns ws ++ b) = None).
  { unfold definition_body.
    destruct d as [[] [] [] [] [] [] [] []]; reflexivity. }
  rewrite E. destruct (at_line_start prev).
  all: destruct (JS.is_space d) eqn:Hs;
    [now apply definition_body_site|].
  all: rewrite (Hsemi eq_refl); now apply definition_body_site.
Qed.

Lemma site_blocks d l ns ws b :
  delimiter d = true -> blocks (d :: site l ns ws ++ b).
Proof.
  intros Hd. destruct (delimiter_facts d Hd) as (Hn & Hc & Hh & Hsemi).
  split; [now split|]. cbn [dropW].
  destruct (JS.is_space d) eqn:Hs.
  - reflexivity.
  - rewrite (Hsemi eq_refl). exact I.
Qed.

(** ** The rewriting, in the middle of a text *)

(** The global replacement of [prefixOpenPropsCSS] applied to [css] when
    it follows the text [before]. *)
Definition rewrite_after (before css prefix : string) : string :=
  string_of_list_ascii
    (replace_go Re.definition_re 4 (template prefix) 0
       (rev (list_ascii_of_string before))
       (last_prev None (list_ascii_of_string before))
       (list_ascii_of_string css)).

Lemma prefixOpenPropsCSS_rewrite_after css prefix :
  prefixOpenPropsCSS css prefix = rewrite_after "" css prefix.
Proof. reflexivity. Qed.

Section Rewriting.

Variable prefix : string.
Hypothesis prefix_plain : forallb not_dollar (list_ascii_of_string prefix) = true.

Let go := replace_go Re.definition_re 4 (template prefix) 0.

Lemma template_local b m g a1 a2 :
  expand 4 (Found b m g a1) (template prefix)
  = expand 4 (Found b m g a2) (template prefix).
Proof. now rewrite !expand_template. Qed.

Lemma no_match_at_end prev : match_at Re.definition_re prev [] = None.
Proof. rewrite match_at_definition. unfold definition_at. now destruct (at_line_start prev). Qed.

(** The text before a blocking text is rewritten on its own. *)
Lemma go_before (a t : list ascii) pre prev :
  blocks t ->
  go pre prev (a ++ t) = go pre prev a ++ go (rev a ++ pre) (last_prev prev a) t.
Proof.
  intros Hb. unfold go.
  apply (replace_go_app Re.definition_re 4 (template prefix) t).
  - apply no_match_at_end.
  - intros x p Hx. rewrite !match_at_definition. now apply definition_at_app.
  - apply template_local.
  - lia.
Qed.

Lemma site_length l ns ws : length (site l ns ws) = S (S (S (length (ns ++ ws ++ [":"%char])))).
Proof. reflexivity. Qed.

Lemma last_prev_site prev l ns ws : last_prev prev (site l ns ws) = Some ":"%char.
Proof.
  unfold site. rewrite !last_prev_cons, !last_prev_app. reflexivity.
Qed.

(** A definition after a delimiter is given the prefix. *)
Lemma go_site pre prev d l ns ws b :
  delimiter d = true ->
  JS.is_alpha l = true ->
  forallb Re.name_char ns = true ->
  forallb JS.is_space ws = true ->
  go pre prev (d :: site l ns ws ++ b)
  = d :: list_ascii_of_string "--" ++ list_ascii_of_string prefix
      ++ list_ascii_of_string "-" ++ (l :: ns) ++ list_ascii_of_string ":"
      ++ go (rev (site l ns ws) ++ d :: pre) (Some ":"%char) b.
Proof.
  intros Hd Hl Hns Hws. unfold go at 1. cbn [replace_go].
  rewrite match_at_definition, (definition_at_site prev d l ns ws b) by assumption.
  rewrite expand_template by assumption. cbn [group_text groups capture Nat.eqb].
  cbn [length]. rewrite length_app.
  replace (S (length (site l ns ws) + length b) - length b)
    with (S (length (site l ns ws))) by lia.
  rewrite replace_go_skip, last_prev_site.
  cbn [app]. rewrite <- !app_assoc. cbn [app]. rewrite <- ?app_assoc. reflexivity.
Qed.

(** A definition at the very start of the text is given the prefix. *)
Lemma go_site_start l ns ws b :
  JS.is_alpha l = true ->
  forallb Re.name_char ns = true ->
  forallb JS.is_space ws = true ->
  go [] None (site l ns ws ++ b)
  = list_ascii_of_string "--" ++ list_ascii_of_string prefix
      ++ list_ascii_of_string "-" ++ (l :: ns) ++ list_ascii_of_string ":"
      ++ go (rev (site l ns ws)) (Some ":"%char) b.
Proof.
  intros Hl Hns Hws. unfold go at 1.
  change (site l ns ws ++ b)
    with ("-"%char :: ("-"%char :: l :: ns ++ ws ++ [":"%char]) ++ b).
  cbn [replace_go].
  rewrite match_at_definition.
  change ("-"%char :: ("-"%char :: l :: ns ++ ws ++ [":"%char]) ++ b)
    with (site l ns ws ++ b).
  unfold definition_at. cbn [at_line_start].
  rewrite definition_body_site by assumption.
  rewrite expand_template by assumption. cbn [group_text groups capture Nat.eqb].
  rewrite length_app.
  replace (length (site l ns ws) + length b - length b)
    with (S (length ("-"%char :: l :: ns ++ ws ++ [":"%char]))) by (rewrite site_length; simpl; lia).
  rewrite replace_go_skip.
  change (last_prev (Some "-"%char) ("-"%char :: l :: ns ++ ws ++ [":"%char]))
    with (last_prev None (site l ns ws)).
  rewrite last_prev_site.
  change (rev ("-"%char :: l :: ns ++ ws ++ [":"%char]) ++ ["-"%char])
    with (rev (site l ns ws)).
  cbn [app]. rewrite <- !app_assoc. cbn [app]. rewrite <- ?app_assoc. reflexivity.
Qed.

Definition plain_char (c : ascii) : bool := negb (delimiter c).

Lemma plain_char_facts c :
  plain_char c = true ->
  JS.is_space c = false /\ Ascii.eqb c ";" = false /\ JS.is_line_terminator c = false.
Proof.
  destruct c as [[] [] [] [] [] [] [] []]; try discriminate; intros _; repeat split.
Qed.

Lemma definition_at_plain prev c z :
  plain_char c = true ->
  at_line_start prev = false \/ c <> "-"%char ->
  definition_at prev (c :: z) = None.
Proof.
  intros (Hs & Hsemi & _)%plain_char_facts Hor. unfold definition_at.
  rewrite Hs, Hsemi.
  destruct Hor as [-> | Hc]; [reflexivity|].
  assert (E : definition_body [] (c :: z) = None).
  { unfold definition_body.
    destruct c as [[] [] [] [] [] [] [] []]; try reflexivity. now contradict Hc. }
  rewrite E. now destruct (at_line_start prev).
Qed.

Lemma last_prev_plain c y :
  plain_char c = true -> forallb plain_char y = true ->
  at_line_start (last_prev (Some c) y) = false.
Proof.
  revert c. induction y as [|e y IH]; intros c Hc Hy.
  - simpl. now apply plain_char_facts in Hc as (_ & _ & ->).
  - simpl in Hy. apply andb_true_iff in Hy as [He Hy].
    rewrite last_prev_cons. now apply IH.
Qed.

(** What follows an opening parenthesis, up to the next blank or
    semicolon, is copied as it is. *)
Lemma go_reference (a w b : list ascii) pre prev :
  forallb plain_char w = true ->
  go pre prev (a ++ "("%char :: w ++ b)
  = go pre prev a
    ++ "("%char :: w
    ++ go (rev ("("%char :: w) ++ rev a ++ pre) (last_prev (Some "("%char) w) b.
Proof.
  intros Hw.
  rewrite go_before.
  2:{ split; [split; [reflexivity | discriminate] | exact I]. }
  f_equal. unfold go.
  change ("("%char :: w ++ b) with (("("%char :: w) ++ b).
  rewrite replace_go_copy.
  - rewrite last_prev_cons. reflexivity.
  - intros y z E Hz. rewrite match_at_definition.
    destruct z as [|c z]; [now contradict Hz|]. cbn [app].
    destruct y as [|c0 y].
    + simpl in E. injection E as <- _.
      apply definition_at_plain; [reflexivity | right; discriminate].
    + simpl in E. injection E as <- E.
      assert (Hyz : forallb plain_char (y ++ c :: z) = true) by now rewrite <- E.
      rewrite forallb_app in Hyz. apply andb_true_iff in Hyz as [Hy Hcz].
      simpl in Hcz. apply andb_true_iff in Hcz as [Hc _].
      apply definition_at_plain; [assumption | left].
      rewrite last_prev_cons. now apply last_prev_plain.
Qed.

End Rewriting.

(** ** The statements on strings *)

Definition plain_prefix (prefix : string) : bool :=
  forallb not_dollar (list_ascii_of_string prefix).

(** A name the pattern recognizes: a letter, then letters, digits and
    hyphens. *)
Definition property_name (name : string) : bool :=
  match name with
  | String l ns => JS.is_alpha l && forallb Re.name_char (list_ascii_of_string ns)
  | EmptyString => false
  end.

Definition blank (ws : string) : bool :=
  forallb JS.is_space (list_ascii_of_string ws).

(** A text without blank and without semicolon. *)
Definition unbroken (s : string) : bool :=
  forallb plain_char (list_ascii_of_string s).

Lemma string_of_app (x y : list ascii) :
  string_of_list_ascii (x ++ y) = string_of_list_ascii x +:+ string_of_list_ascii y.
Proof.
  apply list_of_inj.
  now rewrite list_of_app, !list_ascii_of_string_of_list_ascii.
Qed.

Lemma list_of_site d name ws b :
  list_ascii_of_string (String d ("--" +:+ name +:+ ws +:+ ":" +:+ b))
  = d :: "-"%char :: "-"%char
      :: list_ascii_of_string name ++ list_ascii_of_string ws
      ++ ":"%char :: list_ascii_of_string b.
Proof.
  change (String d ("--" +:+ name +:+ ws +:+ ":" +:+ b))
    with (String d (String "-" (String "-" (name +:+ ws +:+ String ":" b)))).
  cbn [list_ascii_of_string]. now rewrite !list_of_app.
Qed.

End DefinitionPattern.

Ltac norm_app :=
  repeat (progress (cbn [app list_ascii_of_string];
                    rewrite <- ?app_assoc; rewrite <- ?app_comm_cons)).

Lemma list_of_site_text l ns ws :
  list_ascii_of_string ("--" +:+ String l ns +:+ ws +:+ ":")
  = site l (list_ascii_of_string ns) (list_ascii_of_string ws).
Proof.
  change ("--" +:+ String l ns +:+ ws +:+ ":")
    with (String "-" (String "-" (String l (ns +:+ ws +:+ ":")))).
  cbn [list_ascii_of_string]. now rewrite !list_of_app.
Qed.

Lemma list_of_site_rest l ns ws b :
  list_ascii_of_string ("--" +:+ String l ns +:+ ws +:+ ":" +:+ b)
  = site l (list_ascii_of_string ns) (list_ascii_of_string ws)
    ++ list_ascii_of_string b.
Proof.
  change ("--" +:+ String l ns +:+ ws +:+ ":" +:+ b)
    with (String "-" (String "-" (String l (ns +:+ ws +:+ String ":" b)))).
  cbn [list_ascii_of_string]. rewrite !list_of_app. unfold site.
  norm_app. reflexivity.
Qed.

Lemma list_of_rewritten prefix name :
  list_ascii_of_string ("--" +:+ prefix +:+ "-" +:+ name +:+ ":")
  = list_ascii_of_string "--" ++ list_ascii_of_string prefix
    ++ list_ascii_of_string "-" ++ list_ascii_of_string name ++ list_ascii_of_string ":".
Proof. now rewrite !list_of_app. Qed.

Lemma rev_before (a x : list ascii) d : rev (a ++ d :: x) = rev x ++ d :: rev a ++ [].
Proof. rewrite rev_app_distr. simpl. now rewrite <- app_assoc, app_nil_r. Qed.

(** Where [prefixOpenPropsCSS] does what its comment says: for a prefix
    without a dollar sign it gives the prefix to every definition
    [--name:] that stands after a blank or a semicolon, or at the very
    start of the text, when the name is a letter followed by letters,
    digits and hyphens (blanks before the colon are dropped); and it
    copies as it is a [--name] that stands directly after an opening
    parenthesis, as in [var(--name)].  In each case the text before and
    the text after are rewritten on their own. *)
Theorem prefixOpenPropsCSS_sites
    (prefix name ws ref a b : string) (d : ascii) :
  plain_prefix prefix = true ->
  delimiter d = true ->
  property_name name = true ->
  blank ws = true ->
  unbroken ref = true ->
  prefixOpenPropsCSS (a +:+ String d ("--" +:+ name +:+ ws +:+ ":" +:+ b)) prefix
  = prefixOpenPropsCSS a prefix
    +:+ String d ("--" +:+ prefix +:+ "-" +:+ name +:+ ":")
    +:+ rewrite_after (a +:+ String d ("--" +:+ name +:+ ws +:+ ":")) b prefix
  /\ prefixOpenPropsCSS ("--" +:+ name +:+ ws +:+ ":" +:+ b) prefix
     = "--" +:+ prefix +:+ "-" +:+ name +:+ ":"
       +:+ rewrite_after ("--" +:+ name +:+ ws +:+ ":") b prefix
  /\ prefixOpenPropsCSS (a +:+ "(--" +:+ ref +:+ b) prefix
     = prefixOpenPropsCSS a prefix +:+ "(--" +:+ ref
       +:+ rewrite_after (a +:+ "(--" +:+ ref) b prefix.
Proof.
  intros Hp Hd Hname Hws Href.
  destruct name as [|l ns]; [discriminate|].
  simpl in Hname. apply andb_true_iff in Hname as [Hl Hns].
  unfold plain_prefix in Hp. unfold blank in Hws. unfold unbroken in Href.
  split; [|split].
  - apply list_of_inj.
    unfold prefixOpenPropsCSS, Regex.replaceAll, rewrite_after.
    fold (template prefix).
    rewrite !list_of_app. cbn [list_ascii_of_string].
    rewrite list_of_site_rest, !list_ascii_of_string_of_list_ascii.
    rewrite (go_before prefix Hp) by now apply site_blocks.
    rewrite (go_site prefix Hp) by assumption.
    rewrite list_of_rewritten, list_of_site_text, rev_before.
    rewrite last_prev_app, last_prev_cons, last_prev_site.
    norm_app. reflexivity.
  - apply list_of_inj.
    unfold prefixOpenPropsCSS, Regex.replaceAll, rewrite_after.
    fold (template prefix).
    rewrite list_of_site_rest, !list_of_app, !list_ascii_of_string_of_list_ascii.
    rewrite (go_site_start prefix Hp) by assumption.
    replace (list_ascii_of_string "--" ++ list_ascii_of_string (String l ns)
             ++ list_ascii_of_string ws ++ list_ascii_of_string ":")
      with (site l (list_ascii_of_string ns) (list_ascii_of_string ws))
      by (unfold site; norm_app; reflexivity).
    rewrite last_prev_site.
    norm_app. reflexivity.
  - apply list_of_inj.
    unfold prefixOpenPropsCSS, Regex.replaceAll, rewrite_after.
    fold (template prefix).
    rewrite !list_of_app, !list_ascii_of_string_of_list_ascii.
    change (list_ascii_of_string "(--")
      with ("("%char :: list_ascii_of_string "--").
    norm_app.
    change ("("%char :: "-"%char :: "-"%char
            :: list_ascii_of_string ref ++ list_ascii_of_string b)
      with ("("%char :: ("-"%char :: "-"%char :: list_ascii_of_string ref)
            ++ list_ascii_of_string b).
    rewrite (go_reference prefix Hp) by (simpl; assumption).
    rewrite rev_app_distr, last_prev_app, app_nil_r.
    reflexivity.
Qed.

Lemma prefixOpenPropsCSS_sites_witness :
  prefixOpenPropsCSS (":root {" +:+ String " " ("--" +:+ "size-3" +:+ " " +:+ ":" +:+ " 1rem; }")) "op"
  = prefixOpenPropsCSS ":root {" "op"
    +:+ String " " ("--" +:+ "op" +:+ "-" +:+ "size-3" +:+ ":")
    +:+ rewrite_after (":root {" +:+ String " " ("--" +:+ "size-3" +:+ " " +:+ ":"))
          " 1rem; }" "op"
  /\ prefixOpenPropsCSS ("--" +:+ "size-3" +:+ " " +:+ ":" +:+ " 1rem; }") "op"
     = "--" +:+ "op" +:+ "-" +:+ "size-3" +:+ ":"
       +:+ rewrite_after ("--" +:+ "size-3" +:+ " " +:+ ":") " 1rem; }" "op"
  /\ prefixOpenPropsCSS (":root {" +:+ "(--" +:+ "size-1" +:+ " 1rem; }") "op"
     = prefixOpenPropsCSS ":root {" "op" +:+ "(--" +:+ "size-1"
       +:+ rewrite_after (":root {" +:+ "(--" +:+ "size-1") " 1rem; }" "op".
Proof.
  apply (prefixOpenPropsCSS_sites "op" "size-3" " " "size-1" ":root {" " 1rem; }" " ");
    reflexivity.
Defined.

(** C1: a definition that follows the opening brace of its block at
    once, as in the text [:root{--gap:1px}], is a custom-property
    definition, and [prefixOpenPropsCSS] leaves it without the prefix:
    the leading group of its expression asks for a line start, a blank or
    a semicolon before the two hyphens and forgets the brace.  With a
    blank after the brace the same definition gets the prefix. *)
Lemma prefixOpenPropsCSS_misses_after_brace :
  prefixOpenPropsCSS ":root{--gap:1px}" "op" = ":root{--gap:1px}"
  /\ prefixOpenPropsCSS ":root{ --gap:1px}" "op" = ":root{ --op-gap:1px}".
Proof. split; reflexivity. Qed.

(** A definition and a reference next to each other on one line. *)
Example prefixOpenPropsCSS_adjacent :
  prefixOpenPropsCSS "--a: var(--b);--c: var(--a)" "op"
  = "--op-a: var(--b);--op-c: var(--a)".
Proof. reflexivity. Qed.

(** A name that begins with an underscore is not recognized, and a dollar
    sign in the prefix is read as part of the template. *)
Example prefixOpenPropsCSS_underscore :
  prefixOpenPropsCSS " --_gap: 1px" "op" = " --_gap: 1px".
Proof. reflexivity. Qed.

Example prefixOpenPropsCSS_dollar :
  prefixOpenPropsCSS "--a:1" "$&" = "----a:-a:1".
Proof. reflexivity. Qed.

(** * The shadows file (C2) *)

Section Literals.

Import Regex.

(** [starts t s]: the text [s] begins with [t]. *)
Fixpoint starts (t s : list ascii) : bool :=
  match t, s with
  | [], _ => true
  | c :: t', d :: s' => Ascii.eqb c d && starts t' s'
  | _ :: _, [] => false
  end.

(** [occurs t s]: the text [t] occurs in [s]. *)
Fixpoint occurs (t s : list ascii) : bool :=
  starts t s
  || match s with
     | [] => false
     | _ :: s' => occurs t s'
     end.

Lemma lit_fails {R} t prev s cs (k : cont R) :
  starts t s = false -> lit t prev s cs k = None.
Proof.
  revert prev s. induction t as [|c t IH]; intros prev s H; [discriminate|].
  destruct s as [|d s]; [reflexivity|]. simpl in *.
  destruct (Ascii.eqb c d); [now apply IH | reflexivity].
Qed.

Lemma lit_app {R} t prev s cs (k : cont R) :
  t <> [] -> lit t prev (t ++ s) cs k = k (last_prev prev t) s cs.
Proof.
  revert prev. induction t as [|c t IH]; intros prev Ht; [now contradict Ht|].
  cbn [app lit]. rewrite Ascii.eqb_refl. rewrite last_prev_cons.
  destruct t as [|d t]; [reflexivity|]. now apply IH.
Qed.

Lemma starts_app_long t z y :
  length t <= length z -> starts t (z ++ y) = starts t z.
Proof.
  revert z. induction t as [|c t IH]; intros z H; [reflexivity|].
  destruct z as [|d z]; [simpl in H; lia|]. simpl.
  rewrite IH; [reflexivity | simpl in H; lia].
Qed.

Lemma starts_nth t s :
  starts t s = true ->
  forall i d, i < length t -> nth i s d = nth i t d.
Proof.
  revert s. induction t as [|c t IH]; intros s H i d Hi; [simpl in Hi; lia|].
  destruct s as [|e s]; [discriminate|]. simpl in H.
  apply andb_true_iff in H as [Hc H]. apply Ascii.eqb_eq in Hc as ->.
  destruct i as [|i]; [reflexivity|]. simpl. apply IH; [assumption | simpl in Hi; lia].
Qed.

Lemma occurs_suffix t y z : occurs t (y ++ z) = false -> occurs t z = false.
Proof.
  induction y as [|c y IH]; [trivial|]. cbn [app occurs].
  intros [_ H]%orb_false_iff. now apply IH.
Qed.

Lemma occurs_starts t s : occurs t s = false -> starts t s = false.
Proof. destruct s; simpl; now intros [H _]%orb_false_iff. Qed.

(** A greedy star stops at the end of a run of its class when the rest of
    the expression matches from there. *)
Definition stops (p : ascii -> bool) (s : list ascii) : bool :=
  match s with
  | c :: _ => negb (p c)
  | [] => true
  end.

Lemma star_take {R} (p : ascii -> bool) (k : cont R) w s prev cs r :
  forallb p w = true -> stops p s = true ->
  k (last_prev prev w) s cs = Some r ->
  star p prev (w ++ s) cs k = Some r.
Proof.
  revert prev. induction w as [|d w IH]; intros prev Hw Hs Hk.
  - simpl in *. destruct s as [|c s]; [assumption|].
    simpl in Hs. apply negb_true_iff in Hs. simpl. now rewrite Hs.
  - simpl in Hw. apply andb_true_iff in Hw as [Hd Hw].
    cbn [app star]. rewrite Hd. rewrite (IH (Some d)); auto.
Qed.

Lemma plus_take {R} (p : ascii -> bool) (k : cont R) w s prev cs r :
  w <> [] -> forallb p w = true -> stops p s = true ->
  k (last_prev prev w) s cs = Some r ->
  run (Plus p) prev (w ++ s) cs k = Some r.
Proof.
  intros Hne Hw Hs Hk. destruct w as [|c w]; [now contradict Hne|].
  simpl in Hw. apply andb_true_iff in Hw as [Hc Hw].
  cbn [app run]. rewrite Hc. now apply star_take.
Qed.

(** A character that is not in [t] separates the occurrences of [t]. *)
Definition without (b : ascii) (t : list ascii) : bool :=
  forallb (fun c => negb (Ascii.eqb c b)) t.

Lemma starts_barrier t z b y :
  without b t = true -> starts t (z ++ b :: y) = starts t z.
Proof.
  revert z. induction t as [|c t IH]; intros z Hb; [reflexivity|].
  simpl in Hb. apply andb_true_iff in Hb as [Hc Hb]. apply negb_true_iff in Hc.
  destruct z as [|d z]; cbn [app starts].
  - now rewrite Hc.
  - now rewrite IH.
Qed.

Lemma occurs_barrier t x b y :
  without b t = true -> occurs t (x ++ b :: y) = occurs t x || occurs t y.
Proof.
  intros Hb. induction x as [|c x IH].
  - pose proof (starts_barrier t [] b y Hb) as E. cbn [app] in E.
    cbn [app occurs]. rewrite E. now rewrite orb_false_r.
  - cbn [app occurs]. change (c :: x ++ b :: y) with ((c :: x) ++ b :: y).
    rewrite starts_barrier by assumption. rewrite IH. now rewrite !orb_assoc.
Qed.

(** No occurrence begins on a character other than the first of [t]. *)
Lemma occurs_skip h t x y :
  forallb (fun c => negb (Ascii.eqb h c)) x = true ->
  occurs (h :: t) (x ++ y) = occurs (h :: t) y.
Proof.
  induction x as [|c x IH]; [reflexivity|]. simpl.
  intros [Hc Hx]%andb_true_iff. apply negb_true_iff in Hc.
  rewrite Hc. simpl. destruct y; now apply IH.
Qed.

Lemma last_prev_snoc prev x c : last_prev prev (x ++ [c]) = Some c.
Proof. now rewrite last_prev_app. Qed.

(** One step of the global replacement, at a match that is not empty. *)
Lemma replace_go_match r ngroups tmpl pre prev (m rest : list ascii) cs :
  m <> [] ->
  match_at r prev (m ++ rest) = Some (cs, rest) ->
  replace_go r ngroups tmpl 0 pre prev (m ++ rest)
  = expand ngroups (Found (rev pre) m cs rest) tmpl
    ++ replace_go r ngroups tmpl 0 (rev m ++ pre) (last_prev prev m) rest.
Proof.
  intros Hm H. destruct m as [|c m]; [now contradict Hm|].
  cbn [app replace_go]. change (c :: m ++ rest) with ((c :: m) ++ rest).
  rewrite H, firstn_minus_app. f_equal.
  rewrite length_app, Nat.add_sub. cbn [length].
  rewrite replace_go_skip, last_prev_cons. simpl rev. now rewrite <- app_assoc.
Qed.

(** The leftmost match is not in a text in which no match begins. *)
Lemma search_copy r (x : list ascii) :
  forall pre prev b,
    (forall y z, x = y ++ z -> z <> [] ->
                 match_at r (last_prev prev y) (z ++ b) = None) ->
    search r pre prev (x ++ b) = search r (rev x ++ pre) (last_prev prev x) b.
Proof.
  induction x as [|c x IH]; intros pre prev b H; [reflexivity|].
  pose proof (H [] (c :: x) eq_refl ltac:(discriminate)) as H0.
  cbn [app last_prev fold_left] in H0.
  cbn [app search]. rewrite H0. rewrite IH.
  - rewrite last_prev_cons. simpl rev. now rewrite <- app_assoc.
  - intros y z -> Hz. apply (H (c :: y) z); [reflexivity | assumption].
Qed.

Lemma search_match r pre prev (m rest : list ascii) cs :
  match_at r prev (m ++ rest) = Some (cs, rest) ->
  search r pre prev (m ++ rest) = Some (Found (rev pre) m cs rest).
Proof.
  intros H. destruct (m ++ rest) as [|c s] eqn:E.
  - cbn [search]. rewrite H. destruct m; [|discriminate]. simpl in E. now subst.
  - cbn [search]. rewrite H, <- E, firstn_minus_app. reflexivity.
Qed.

End Literals.

Section ShadowColor.

Import Regex.

Definition shadow_property : list ascii := list_ascii_of_string "--shadow-color:".

(** A value the expression for the shadow colour accepts: digits, blanks
    and percent signs, the first of them no blank. *)
Definition shadow_value (v : list ascii) : bool :=
  match v with
  | c :: _ => negb (JS.is_space c)
  | [] => false
  end && forallb Re.digit_space_percent v.

(** A declaration of the shadow colour. *)
Definition declared (w v : list ascii) : list ascii :=
  shadow_property ++ w ++ v ++ [";"%char].

Lemma shadow_no_match prev s :
  starts shadow_property s = false -> match_at Re.shadow_color_re prev s = None.
Proof.
  intros H. unfold match_at, Re.shadow_color_re. cbn [Re.seq run].
  now apply lit_fails.
Qed.

Lemma shadow_match prev w v y :
  forallb JS.is_space w = true -> shadow_value v = true ->
  match_at Re.shadow_color_re prev (declared w v ++ y)
  = Some ([(1, shadow_property ++ w)], y).
Proof.
  intros Hw [Hv Hall]%andb_true_iff.
  unfold match_at, Re.shadow_color_re, declared. cbn [Re.seq run].
  fold shadow_property. rewrite <- !app_assoc.
  rewrite lit_app by discriminate.
  apply star_take; [assumption | now destruct v |].
  destruct v as [|c v]; [discriminate|].
  simpl in Hall. apply andb_true_iff in Hall as [Hc Hall].
  cbn [app]. rewrite Hc.
  apply star_take; [assumption | reflexivity |].
  cbn [app lit list_ascii_of_string]. rewrite Ascii.eqb_refl.
  rewrite (app_assoc shadow_property w), firstn_minus_app. reflexivity.
Qed.

(** The template of the replacement: the first group, then the tint. *)
Definition tint_template (t : list ascii) : list ascii :=
  "$"%char :: "1"%char :: t ++ [";"%char].

(** A tint: a digit, then digits, blanks and percent signs. *)
Definition tint_text (t : list ascii) : bool :=
  match t with
  | d :: _ => JS.is_digit d
  | [] => false
  end && forallb Re.digit_space_percent t.

Lemma dsp_not_dollar c : Re.digit_space_percent c = true -> not_dollar c = true.
Proof. destruct c as [[] [] [] [] [] [] [] []]; try reflexivity; discriminate. Qed.

Lemma digit_not_space c : JS.is_digit c = true -> JS.is_space c = false.
Proof. destruct c as [[] [] [] [] [] [] [] []]; try reflexivity; discriminate. Qed.

Lemma forallb_impl {A} (p q : A -> bool) l :
  (forall a, p a = true -> q a = true) -> forallb p l = true -> forallb q l = true.
Proof.
  intros H. induction l as [|a l IH]; [reflexivity|]. simpl.
  intros [Ha Hl]%andb_true_iff. rewrite (H _ Ha). now apply IH.
Qed.

Lemma tint_is_value t : tint_text t = true -> shadow_value t = true.
Proof.
  unfold tint_text, shadow_value. intros [Hd Hall]%andb_true_iff.
  rewrite Hall, andb_true_r. destruct t as [|d t]; [discriminate|].
  now rewrite (digit_not_space _ Hd).
Qed.

Lemma expand_tint m t :
  tint_text t = true ->
  expand 1 m (tint_template t) = group_text 1 m ++ t ++ [";"%char].
Proof.
  intros [Hd Hall]%andb_true_iff. destruct t as [|d t]; [discriminate|].
  unfold tint_template.
  assert (E : expand 1 m ("$"%char :: "1"%char :: (d :: t) ++ [";"%char])
              = group_text 1 m ++ expand 1 m ((d :: t) ++ [";"%char])).
  { cbn [app expand]. 
    change (negb (Ascii.eqb "$" "$")) with false. cbv iota.
    change (Ascii.eqb "1" "$") with false.
    change (Ascii.eqb "1" "&") with false.
    change (Ascii.eqb "1" "`") with false.
    change (Ascii.eqb "1" "'") with false.
    change (JS.is_digit "1") with true. cbv iota zeta.
    change (digit_val "1") with 1.
    replace (10 * 1 + digit_val d <=? 1) with false
      by (symmetry; apply Nat.leb_gt; lia).
    rewrite andb_false_r. reflexivity. }
  rewrite E. rewrite expand_plain by (now apply (forallb_impl _ _ _ dsp_not_dollar)).
  reflexivity.
Qed.


(** The global replacement of the shadow colour by the tint [t]. *)
Definition tint (t : list ascii) :=
  replace_go Re.shadow_color_re 1 (tint_template t) 0.

(** A text without the property is copied as it is. *)
Lemma tint_copy t x :
  occurs shadow_property x = false ->
  forall pre prev, tint t pre prev x = x.
Proof.
  unfold tint. induction x as [|c x IH]; intros H pre prev.
  - reflexivity.
  - cbn [replace_go]. rewrite shadow_no_match by now apply occurs_starts.
    f_equal. apply IH. now apply (occurs_suffix _ [c]).
Qed.

(** The property does not overlap itself: no occurrence begins in a text
    without the property and ends in a declaration that follows it. *)
Lemma no_overlap x y z rest :
  occurs shadow_property x = false ->
  x = y ++ z -> z <> [] ->
  starts shadow_property (z ++ shadow_property ++ rest) = false.
Proof.
  intros Hx -> Hz. apply occurs_suffix, occurs_starts in Hx.
  destruct (le_lt_dec (length shadow_property) (length z)) as [Hl|Hl].
  - now rewrite starts_app_long.
  - destruct (starts shadow_property (z ++ shadow_property ++ rest)) eqn:E;
      [exfalso | reflexivity].
    pose proof (starts_nth _ _ E 14 " "%char ltac:(simpl; lia)) as N.
    change (length shadow_property) with 15 in Hl.
    rewrite app_nth2 in N by lia.
    assert (Hk : 1 <= length z) by (destruct z; [now contradict Hz | simpl; lia]).
    remember (length z) as k eqn:Ek. clear - N Hk Hl.
    do 15 (destruct k as [|k]; [try lia; try (vm_compute in N; discriminate N)|]).
    lia.
Qed.

(** A declaration after a text without the property has its value
    replaced by the tint. *)
Lemma tint_declaration t x w v y :
  tint_text t = true ->
  occurs shadow_property x = false ->
  forallb JS.is_space w = true -> shadow_value v = true ->
  forall pre prev,
    tint t pre prev (x ++ declared w v ++ y)
    = x ++ declared w t
        ++ tint t (rev (declared w v) ++ rev x ++ pre) (Some ";"%char) y.
Proof.
  intros Ht Hx Hw Hv pre prev. unfold tint.
  rewrite replace_go_copy.
  2:{ intros y0 z E Hz. apply shadow_no_match.
      unfold declared. rewrite <- !app_assoc. now apply (no_overlap x y0). }
  f_equal.
  rewrite (replace_go_match _ _ _ _ _ (declared w v) y [(1, shadow_property ++ w)]).
  - rewrite expand_tint by assumption. cbn [group_text groups capture Nat.eqb].
    assert (E : last_prev (last_prev prev x) (declared w v) = Some ";"%char).
    { unfold declared. rewrite (app_assoc _ w), (app_assoc _ v). apply last_prev_snoc. }
    rewrite E. f_equal.
  - discriminate.
  - now apply shadow_match.
Qed.

End ShadowColor.

Section DarkSection.

Import Regex.

(** The text of a dark-mode section, with the blanks [b1] to [b6] that the
    two expressions allow: what comes before the content of the inner
    block, and what comes after it. *)
Definition section_open (b1 b2 b3 b4 b5 : list ascii) : list ascii :=
  list_ascii_of_string "@media" ++ b1
  ++ list_ascii_of_string "(prefers-color-scheme:" ++ b2
  ++ list_ascii_of_string "dark)" ++ b3
  ++ list_ascii_of_string "{" ++ b4
  ++ list_ascii_of_string ":" ++ list_ascii_of_string "root" ++ b5
  ++ list_ascii_of_string "{".

Definition section_close (b6 : list ascii) : list ascii :=
  list_ascii_of_string "}" ++ b6 ++ list_ascii_of_string "}".

Definition section_text (b1 b2 b3 b4 b5 content b6 : list ascii) : list ascii :=
  section_open b1 b2 b3 b4 b5 ++ content ++ section_close b6.

Ltac first_branch :=
  match goal with
  | |- match ?a with _ => _ end = Some ?r =>
      let E := fresh "E" in
      assert (E : a = Some r); [| now rewrite E]
  end.

Ltac pass_literal := rewrite lit_app by discriminate; cbv beta.
Ltac pass_blanks := apply star_take; [assumption | reflexivity |].

Lemma section_match (content : regex) (f : captures -> captures)
    b1 b2 b3 b4 b5 body b6 rest prev :
  forallb JS.is_space b1 = true -> forallb JS.is_space b2 = true ->
  forallb JS.is_space b3 = true -> forallb JS.is_space b4 = true ->
  forallb JS.is_space b5 = true -> forallb JS.is_space b6 = true ->
  (forall pv cs (k : cont (captures * list ascii)) s r,
     k (last_prev pv body) (list_ascii_of_string "}" ++ s) (f cs) = Some r ->
     run content pv (body ++ list_ascii_of_string "}" ++ s) cs k = Some r) ->
  match_at (Re.dark_section content) prev
    (section_text b1 b2 b3 b4 b5 body b6 ++ rest)
  = Some (f [], rest).
Proof.
  intros H1 H2 H3 H4 H5 H6 Hc.
  unfold match_at, Re.dark_section, section_text, section_open, section_close.
  cbn [Re.seq run].
  repeat rewrite <- app_assoc.
  pass_literal. pass_blanks. pass_literal. pass_blanks.
  pass_literal. pass_blanks. pass_literal. pass_blanks.
  pass_literal. first_branch.
  pass_literal. pass_blanks. pass_literal.
  apply Hc. pass_literal. pass_blanks. pass_literal. reflexivity.
Qed.

Lemma plain_content body :
  body <> [] -> forallb Re.not_close_brace body = true ->
  forall pv cs (k : cont (captures * list ascii)) s r,
    k (last_prev pv body) (list_ascii_of_string "}" ++ s) cs = Some r ->
    run (Plus Re.not_close_brace) pv (body ++ list_ascii_of_string "}" ++ s) cs k
    = Some r.
Proof. intros Hne Hb pv cs k s r Hk. now apply plus_take. Qed.

Lemma captured_content body :
  body <> [] -> forallb Re.not_close_brace body = true ->
  forall pv cs (k : cont (captures * list ascii)) s r,
    k (last_prev pv body) (list_ascii_of_string "}" ++ s) ((1, body) :: cs) = Some r ->
    run (Grp 1 (Plus Re.not_close_brace)) pv
      (body ++ list_ascii_of_string "}" ++ s) cs k
    = Some r.
Proof.
  intros Hne Hb pv cs k s r Hk. cbn [run].
  change (match body ++ list_ascii_of_string "}" ++ s with
          | [] => None
          | c :: s' =>
              if Re.not_close_brace c
              then star Re.not_close_brace (Some c) s' cs
                     (fun prev' s'0 cs' =>
                        k prev' s'0
                          ((1, firstn (length (body ++ list_ascii_of_string "}" ++ s)
                                       - length s'0)
                                 (body ++ list_ascii_of_string "}" ++ s)) :: cs'))
              else None
          end)
    with (run (Plus Re.not_close_brace) pv (body ++ list_ascii_of_string "}" ++ s) cs
            (fun prev' s'0 cs' =>
               k prev' s'0
                 ((1, firstn (length (body ++ list_ascii_of_string "}" ++ s)
                              - length s'0)
                        (body ++ list_ascii_of_string "}" ++ s)) :: cs'))).
  apply plus_take; [assumption | assumption | reflexivity |].
  now rewrite firstn_minus_app.
Qed.

(** No section begins on a character other than the at sign. *)
Lemma section_no_match content prev c s :
  c <> "@"%char -> match_at (Re.dark_section content) prev (c :: s) = None.
Proof.
  intros Hc. unfold match_at, Re.dark_section. cbn [Re.seq run].
  apply lit_fails.
  change (list_ascii_of_string "@media")
    with ("@"%char :: list_ascii_of_string "media").
  cbn [starts]. destruct (Ascii.eqb_spec "@" c) as [E|E]; [congruence | reflexivity].
Qed.

End DarkSection.

Section TintedLayout.

Import Regex.

Definition not_at_sign (c : ascii) : bool := negb (Ascii.eqb c "@").

Lemma space_facts c :
  JS.is_space c = true ->
  not_at_sign c = true /\ Re.not_close_brace c = true /\ not_dollar c = true
  /\ Ascii.eqb "-" c = false.
Proof. destruct c as [[] [] [] [] [] [] [] []]; try discriminate; now intros _. Qed.

Lemma value_facts c :
  Re.digit_space_percent c = true ->
  not_at_sign c = true /\ Re.not_close_brace c = true /\ not_dollar c = true.
Proof. destruct c as [[] [] [] [] [] [] [] []]; try discriminate; now intros _. Qed.

Lemma forallb_declared (p : ascii -> bool) w v :
  (forall c, JS.is_space c = true -> p c = true) ->
  (forall c, Re.digit_space_percent c = true -> p c = true) ->
  forallb p shadow_property = true -> p ";"%char = true ->
  forallb JS.is_space w = true -> forallb Re.digit_space_percent v = true ->
  forallb p (declared w v) = true.
Proof.
  intros Hs Hd Hp Hsemi Hw Hv. unfold declared.
  rewrite !forallb_app, Hp, (forallb_impl _ _ _ Hs Hw), (forallb_impl _ _ _ Hd Hv).
  simpl. now rewrite Hsemi.
Qed.

(** The opening of the section as the first rewrites leave it, [b] being
    the blanks between the two opening braces. *)
Definition normal_open (b : list ascii) : list ascii :=
  section_open [" "%char] [" "%char] [" "%char] b [" "%char].

Lemma normal_open_text b y :
  normal_open b ++ y
  = "@"%char :: list_ascii_of_string "media (prefers-color-scheme: dark) "
    ++ "{"%char :: b ++ list_ascii_of_string ":root " ++ "{"%char :: y.
Proof.
  unfold normal_open, section_open. repeat rewrite <- app_assoc. reflexivity.
Qed.

Lemma occurs_blank t b :
  forallb JS.is_space b = true -> occurs shadow_property (b ++ t) = occurs shadow_property t.
Proof.
  intros Hb. apply (occurs_skip "-"%char).
  apply (forallb_impl JS.is_space); [|assumption].
  intros c Hc. apply space_facts in Hc as (_ & _ & _ & ->). reflexivity.
Qed.

Lemma occurs_normal_open x b y :
  forallb JS.is_space b = true ->
  occurs shadow_property x = false -> occurs shadow_property y = false ->
  occurs shadow_property (x ++ normal_open b ++ y) = false.
Proof.
  intros Hb Hx Hy. rewrite normal_open_text.
  rewrite occurs_barrier, Hx by reflexivity.
  rewrite occurs_barrier by reflexivity.
  rewrite occurs_blank by assumption.
  rewrite occurs_barrier, Hy by reflexivity. reflexivity.
Qed.

Lemma occurs_section_close x b y :
  forallb JS.is_space b = true ->
  occurs shadow_property x = false -> occurs shadow_property y = false ->
  occurs shadow_property (x ++ section_close b ++ y) = false.
Proof.
  intros Hb Hx Hy. unfold section_close. repeat rewrite <- app_assoc.
  change (list_ascii_of_string "}") with ["}"%char]. cbn [app].
  rewrite occurs_barrier, Hx by reflexivity.
  rewrite occurs_blank by assumption.
  pose proof (occurs_barrier shadow_property [] "}"%char y eq_refl) as E.
  cbn [app] in E. rewrite E, Hy. reflexivity.
Qed.

(** The global replacement on a text of the layout: both declarations
    receive the tint, and nothing else changes. *)
Lemma tint_layout t x w1 v1 m b da w2 v2 db b' rest pre prev :
  tint_text t = true ->
  occurs shadow_property x = false -> occurs shadow_property m = false ->
  occurs shadow_property da = false -> occurs shadow_property db = false ->
  occurs shadow_property rest = false ->
  forallb JS.is_space w1 = true -> shadow_value v1 = true ->
  forallb JS.is_space w2 = true -> shadow_value v2 = true ->
  forallb JS.is_space b = true -> forallb JS.is_space b' = true ->
  tint t pre prev
    (x ++ declared w1 v1 ++ m
     ++ normal_open b ++ (da ++ declared w2 v2 ++ db) ++ section_close b' ++ rest)
  = x ++ declared w1 t ++ m
    ++ normal_open b ++ (da ++ declared w2 t ++ db) ++ section_close b' ++ rest.
Proof.
  intros Ht Hx Hm Hda Hdb Hrest Hw1 Hv1 Hw2 Hv2 Hb Hb'.
  rewrite tint_declaration by assumption. do 2 f_equal.
  replace (m ++ normal_open b ++ (da ++ declared w2 v2 ++ db) ++ section_close b' ++ rest)
    with ((m ++ normal_open b ++ da) ++ declared w2 v2 ++ db ++ section_close b' ++ rest)
    by (repeat rewrite <- app_assoc; reflexivity).
  rewrite tint_declaration by (try assumption; now apply occurs_normal_open).
  rewrite tint_copy by now apply occurs_section_close.
  repeat rewrite <- app_assoc. reflexivity.
Qed.

(** The same for the content of the dark block alone. *)
Lemma tint_content t da w v db :
  tint_text t = true ->
  occurs shadow_property da = false -> occurs shadow_property db = false ->
  forallb JS.is_space w = true -> shadow_value v = true ->
  tint t [] None (da ++ declared w v ++ db) = da ++ declared w t ++ db.
Proof.
  intros Ht Hda Hdb Hw Hv.
  rewrite tint_declaration by assumption. now rewrite tint_copy.
Qed.

(** The leftmost section of a text that has no at sign before it. *)
Lemma find_section (content : regex) (f : captures -> captures) x b body b' rest :
  forallb not_at_sign x = true ->
  forallb JS.is_space b = true -> forallb JS.is_space b' = true ->
  (forall pv cs (k : cont (captures * list ascii)) s r,
     k (last_prev pv body) (list_ascii_of_string "}" ++ s) (f cs) = Some r ->
     run content pv (body ++ list_ascii_of_string "}" ++ s) cs k = Some r) ->
  exec (Re.dark_section content)
    (x ++ (normal_open b ++ body ++ section_close b') ++ rest)
  = Some (Found x (normal_open b ++ body ++ section_close b') (f []) rest).
Proof.
  intros Hx Hb Hb' Hc. unfold exec. rewrite search_copy.
  - rewrite (search_match _ _ _ _ _ (f [])).
    + now rewrite app_nil_r, rev_involutive.
    + now apply section_match.
  - intros y z -> Hz. destruct z as [|c z]; [now contradict Hz|].
    apply section_no_match.
    rewrite forallb_app in Hx. apply andb_true_iff in Hx as [_ Hx].
    simpl in Hx. apply andb_true_iff in Hx as [Hc' _].
    intros ->. discriminate.
Qed.

End TintedLayout.

(** ** The layout of the shadows file *)

(** A declaration of the shadow colour, with the blanks after the colon. *)
Definition shadow_declaration (blanks value : string) : string :=
  "--shadow-color:" +:+ blanks +:+ value +:+ ";".

(** The dark-mode section as the first rewrites leave it. *)
Definition dark_section_text (blanks content blanks' : string) : string :=
  "@media (prefers-color-scheme: dark) {" +:+ blanks +:+ ":root {"
  +:+ content +:+ "}" +:+ blanks' +:+ "}".

(** The dark-mode declarations under the theme attribute and under the
    media query. *)
Definition themed_dark_section (content : string) : string :=
  "[data-theme=" +:+ JS.dq +:+ "dark" +:+ JS.dq +:+ "] {" +:+ content +:+ "}

@media (prefers-color-scheme: dark) {
  :root:not([data-theme=" +:+ JS.dq +:+ "light" +:+ JS.dq +:+ "]) {" +:+ content +:+ "}
}".

Definition light_tint (seedHue : Q) : string :=
  JS.intToString (JS.round seedHue) +:+ " 10% 15%".

Definition dark_tint (seedHue : Q) : string :=
  JS.intToString (JS.round seedHue) +:+ " 30% 5%".

(** The parts of a shadows file: the root block with its declaration of
    the shadow colour, then the dark-mode section with its own. *)
Record ShadowsLayout : Type := {
  preamble : string;        (* the text up to the declaration of the root block *)
  root_blanks : string;
  root_value : string;      (* the default shadow colour *)
  interlude : string;       (* from there to the dark-mode section *)
  open_blanks : string;     (* between the two opening braces of the section *)
  dark_before : string;     (* the dark-mode declarations before the shadow colour *)
  dark_blanks : string;
  dark_value : string;
  dark_after : string;      (* the dark-mode declarations after it *)
  close_blanks : string;    (* between the two closing braces *)
  postlude : string
}.

Definition dark_declarations (l : ShadowsLayout) (value : string) : string :=
  dark_before l +:+ shadow_declaration (dark_blanks l) value +:+ dark_after l.

(** The text of the layout once the imports are removed and the root
    selector and the media query are rewritten. *)
Definition rewritten_text (l : ShadowsLayout) : string :=
  preamble l +:+ shadow_declaration (root_blanks l) (root_value l) +:+ interlude l
  +:+ dark_section_text (open_blanks l) (dark_declarations l (dark_value l))
        (close_blanks l)
  +:+ postlude l.

(** The text the adapter is to make of it. *)
Definition adapted_text (l : ShadowsLayout) (seedHue : Q) : string :=
  preamble l +:+ shadow_declaration (root_blanks l) (light_tint seedHue)
  +:+ interlude l
  +:+ themed_dark_section (dark_declarations l (dark_tint seedHue))
  +:+ postlude l.

Definition no_shadow_color (s : string) : bool :=
  negb (occurs shadow_property (list_ascii_of_string s)).

Definition no_at_sign (s : string) : bool :=
  forallb not_at_sign (list_ascii_of_string s).

(** The content of a block: no closing brace, and no dollar sign. *)
Definition block_content (s : string) : bool :=
  forallb (fun c => Re.not_close_brace c && not_dollar c) (list_ascii_of_string s).

Definition color_value (v : string) : bool := shadow_value (list_ascii_of_string v).

(** The two declarations of the shadow colour are the only ones, the
    section is the first thing with an at sign, and its block is one
    block. *)
Definition well_formed (l : ShadowsLayout) : bool :=
  no_at_sign (preamble l) && no_at_sign (interlude l)
  && block_content (dark_before l) && block_content (dark_after l)
  && no_shadow_color (preamble l) && no_shadow_color (interlude l)
  && no_shadow_color (dark_before l) && no_shadow_color (dark_after l)
  && no_shadow_color (postlude l)
  && blank (root_blanks l) && color_value (root_value l)
  && blank (dark_blanks l) && color_value (dark_value l)
  && blank (open_blanks l) && blank (close_blanks l).

(** The first three rewrites of [transformOpenPropsCSS]. *)
Definition media_rewritten (css : string) : string :=
  Regex.replaceAll Re.os_dark_re 0 "@media (prefers-color-scheme: dark) {"
    (Regex.replaceAll Re.where_html_re 0 ":root"
       (Regex.replaceAll Re.import_re 0 "" css)).

Section Shadows.

Import Regex.

Lemma transform_shadows css seedHue :
  transformOpenPropsCSS css "shadows" seedHue
  = JS.trim (injectShadowColor (media_rewritten css) seedHue).
Proof. reflexivity. Qed.

Lemma list_of_template t :
  list_ascii_of_string ("$1" +:+ t +:+ ";") = tint_template (list_ascii_of_string t).
Proof.
  change ("$1" +:+ t +:+ ";") with (String "$" (String "1" (t +:+ ";"))).
  cbn [list_ascii_of_string]. now rewrite list_of_app.
Qed.

Lemma list_of_declaration w v :
  list_ascii_of_string (shadow_declaration w v)
  = declared (list_ascii_of_string w) (list_ascii_of_string v).
Proof. unfold shadow_declaration, declared. now rewrite !list_of_app. Qed.

Lemma list_of_section b c b' :
  list_ascii_of_string (dark_section_text b c b')
  = normal_open (list_ascii_of_string b) ++ list_ascii_of_string c
    ++ section_close (list_ascii_of_string b').
Proof.
  unfold dark_section_text. rewrite !list_of_app.
  unfold normal_open, section_open, section_close.
  repeat rewrite <- app_assoc. reflexivity.
Qed.

Lemma all_digits_list s :
  all_digits s = true -> forallb JS.is_digit (list_ascii_of_string s) = true.
Proof. induction s as [|c s IH]; [reflexivity|]. simpl. now intros [-> H]%andb_true_iff; rewrite IH. Qed.

Lemma round_nonneg x : (0 <= x)%Q -> (0 <= JS.round x)%Z.
Proof.
  intros Hx. unfold JS.round. change 0%Z with (Qfloor 0). apply Qfloor_resp_le.
  apply Qle_trans with (y := x); [assumption|].
  rewrite <- (Qplus_0_r x) at 1. apply Qplus_le_r. discriminate.
Qed.

Lemma digit_value_char c : JS.is_digit c = true -> Re.digit_space_percent c = true.
Proof. unfold Re.digit_space_percent. now intros ->. Qed.

(** A tint begins with the digits of the rounded hue. *)
Lemma tint_text_hue seedHue suffix :
  (0 <= seedHue)%Q ->
  forallb Re.digit_space_percent (list_ascii_of_string suffix) = true ->
  tint_text (list_ascii_of_string (JS.intToString (JS.round seedHue) +:+ suffix)) = true.
Proof.
  intros Hx Hs. apply round_nonneg in Hx.
  rewrite <- (Z2N.id _ Hx), intToString_nonneg.
  pose proof (natToString_digits (Z.to_N (JS.round seedHue))) as Hd.
  pose proof (natToString_nonempty (Z.to_N (JS.round seedHue))) as Hne.
  apply all_digits_list in Hd. rewrite list_of_app.
  destruct (JS.natToString (Z.to_N (JS.round seedHue))) as [|d ds]; [now contradict Hne|].
  cbn [list_ascii_of_string] in *. simpl in Hd. apply andb_true_iff in Hd as [Hd Hds].
  unfold tint_text. cbn [app]. rewrite Hd. cbn [forallb].
  rewrite (digit_value_char _ Hd), forallb_app, Hs.
  now rewrite (forallb_impl _ _ _ digit_value_char Hds).
Qed.


Lemma expand_plain_all ngroups m x :
  forallb not_dollar x = true -> expand ngroups m x = x.
Proof.
  intros H. rewrite <- (app_nil_r x) at 1. rewrite expand_plain by assumption.
  simpl. apply app_nil_r.
Qed.

Lemma occurs_false s : no_shadow_color s = true ->
  occurs shadow_property (list_ascii_of_string s) = false.
Proof. unfold no_shadow_color. now intros H%negb_true_iff. Qed.

Lemma block_content_facts s :
  block_content s = true ->
  forallb Re.not_close_brace (list_ascii_of_string s) = true
  /\ forallb not_dollar (list_ascii_of_string s) = true.
Proof.
  unfold block_content. intros H. split.
  - apply (forallb_impl _ _ _ (fun c Hc => proj1 (proj1 (andb_true_iff _ _) Hc)) H).
  - apply (forallb_impl _ _ _ (fun c Hc => proj2 (proj1 (andb_true_iff _ _) Hc)) H).
Qed.

Section Layout.

Variable l : ShadowsLayout.
Variable seedHue : Q.
Hypothesis hue_nonneg : (0 <= seedHue)%Q.
Hypothesis layout_ok : well_formed l = true.

Let light := list_ascii_of_string (light_tint seedHue).
Let dark := list_ascii_of_string (dark_tint seedHue).
Let x := list_ascii_of_string (preamble l).
Let w1 := list_ascii_of_string (root_blanks l).
Let m := list_ascii_of_string (interlude l).
Let b := list_ascii_of_string (open_blanks l).
Let da := list_ascii_of_string (dark_before l).
Let w2 := list_ascii_of_string (dark_blanks l).
Let db := list_ascii_of_string (dark_after l).
Let b' := list_ascii_of_string (close_blanks l).
Let rest := list_ascii_of_string (postlude l).

Lemma light_is_tint : tint_text light = true.
Proof. now apply tint_text_hue. Qed.

Lemma dark_is_tint : tint_text dark = true.
Proof. now apply tint_text_hue. Qed.

Lemma layout_facts :
  (forallb not_at_sign x = true /\ forallb not_at_sign m = true)
  /\ (block_content (dark_before l) = true /\ block_content (dark_after l) = true)
  /\ (occurs shadow_property x = false /\ occurs shadow_property m = false
      /\ occurs shadow_property da = false /\ occurs shadow_property db = false
      /\ occurs shadow_property rest = false)
  /\ (forallb JS.is_space w1 = true
      /\ shadow_value (list_ascii_of_string (root_value l)) = true
      /\ forallb JS.is_space w2 = true
      /\ shadow_value (list_ascii_of_string (dark_value l)) = true)
  /\ forallb JS.is_space b = true /\ forallb JS.is_space b' = true.
Proof.
  pose proof layout_ok as H. unfold well_formed in H.
  repeat (apply andb_true_iff in H as [H ?]).
  repeat split; try assumption; now apply occurs_false.
Qed.

(** The text of the layout, with the values [v1] and [v2] of the two
    declarations. *)
Let text (v1 v2 : list ascii) : list ascii :=
  (x ++ declared w1 v1 ++ m)
  ++ (normal_open b ++ (da ++ declared w2 v2 ++ db) ++ section_close b') ++ rest.

Lemma list_of_rewritten_text :
  list_ascii_of_string (rewritten_text l)
  = text (list_ascii_of_string (root_value l)) (list_ascii_of_string (dark_value l)).
Proof.
  unfold rewritten_text, dark_declarations, text.
  rewrite !list_of_app, list_of_section, !list_of_app, !list_of_declaration.
  repeat rewrite <- app_assoc. reflexivity.
Qed.

Lemma light_pass :
  replaceAll Re.shadow_color_re 1 ("$1" +:+ light_tint seedHue +:+ ";")
    (rewritten_text l)
  = string_of_list_ascii (text light light).
Proof.
  destruct layout_facts as (_ & _ & (Hx & Hm & Hda & Hdb & Hrest)
                            & (Hw1 & Hv1 & Hw2 & Hv2) & Hb & Hb').
  unfold replaceAll. f_equal.
  rewrite list_of_template, list_of_rewritten_text. unfold text.
  repeat rewrite <- app_assoc.
  pose proof (tint_layout light x w1 (list_ascii_of_string (root_value l)) m b da w2
                (list_ascii_of_string (dark_value l)) db b' rest [] None
                light_is_tint Hx Hm Hda Hdb Hrest Hw1 Hv1 Hw2 Hv2 Hb Hb') as E.
  unfold tint in E. repeat rewrite <- app_assoc in E. exact E.
Qed.

Lemma tint_values t :
  tint_text t = true -> forallb Re.digit_space_percent t = true.
Proof. unfold tint_text. now intros [_ H]%andb_true_iff. Qed.

(** The content of the dark block, with the value [v] of its declaration. *)
Let content (v : list ascii) : list ascii := da ++ declared w2 v ++ db.

Lemma content_no_brace t :
  tint_text t = true -> forallb Re.not_close_brace (content t) = true.
Proof.
  intros Ht%tint_values.
  destruct layout_facts as (_ & (Hda%block_content_facts & Hdb%block_content_facts)
                            & _ & (_ & _ & Hw2 & _) & _).
  unfold content, da, db. rewrite !forallb_app.
  rewrite (proj1 Hda), (proj1 Hdb), forallb_declared; try assumption; try reflexivity.
  - intros c Hc. now apply space_facts in Hc.
  - intros c Hc. now apply value_facts in Hc.
Qed.

Lemma content_no_dollar t :
  tint_text t = true -> forallb not_dollar (content t) = true.
Proof.
  intros Ht%tint_values.
  destruct layout_facts as (_ & (Hda%block_content_facts & Hdb%block_content_facts)
                            & _ & (_ & _ & Hw2 & _) & _).
  unfold content, da, db. rewrite !forallb_app.
  rewrite (proj2 Hda), (proj2 Hdb), forallb_declared; try assumption; try reflexivity.
  - intros c Hc. now apply space_facts in Hc.
  - intros c Hc. now apply value_facts in Hc.
Qed.

Lemma content_not_empty t : content t <> [].
Proof. unfold content. destruct da; discriminate. Qed.

Lemma before_section_no_at t :
  tint_text t = true -> forallb not_at_sign (x ++ declared w1 t ++ m) = true.
Proof.
  intros Ht%tint_values.
  destruct layout_facts as ((Hx & Hm) & _ & _ & (Hw1 & _) & _).
  unfold x, m in *.
  rewrite !forallb_app, Hx, Hm, forallb_declared; try assumption; try reflexivity.
  - intros c Hc. now apply space_facts in Hc.
  - intros c Hc. now apply value_facts in Hc.
Qed.

Lemma injectShadowColor_layout :
  injectShadowColor (rewritten_text l) seedHue = adapted_text l seedHue.
Proof.
  destruct layout_facts as (_ & _ & (Hx & Hm & Hda & Hdb & Hrest)
                            & (Hw1 & Hv1 & Hw2 & Hv2) & Hb & Hb').
  unfold injectShadowColor. cbv zeta.
  fold (light_tint seedHue). fold (dark_tint seedHue).
  rewrite light_pass, list_ascii_of_string_of_list_ascii.
  unfold text at 1. fold (content light). unfold Re.dark_section_re.
  rewrite (find_section _ (cons (1, content light))).
  2:{ now apply before_section_no_at, light_is_tint. }
  2:{ assumption. }
  2:{ assumption. }
  2:{ apply captured_content; [apply content_not_empty|].
      now apply content_no_brace, light_is_tint. }
  cbn [group_text groups capture Nat.eqb].
  assert (D : replaceAll Re.shadow_color_re 1 ("$1" +:+ dark_tint seedHue +:+ ";")
                (string_of_list_ascii (content light))
              = dark_declarations l (dark_tint seedHue)).
  { apply list_of_inj. unfold replaceAll, dark_declarations.
    rewrite !list_ascii_of_string_of_list_ascii, list_of_template.
    rewrite !list_of_app, list_of_declaration.
    apply tint_content; try assumption; [apply dark_is_tint|].
    apply tint_is_value, light_is_tint. }
  rewrite D. fold (themed_dark_section (dark_declarations l (dark_tint seedHue))).
  unfold replaceFirst. rewrite list_ascii_of_string_of_list_ascii.
  unfold text at 1. fold (content light). unfold Re.dark_block_re.
  rewrite (find_section _ (fun cs => cs)).
  2:{ now apply before_section_no_at, light_is_tint. }
  2:{ assumption. }
  2:{ assumption. }
  2:{ apply plain_content; [apply content_not_empty|].
      now apply content_no_brace, light_is_tint. }
  cbn [before after].
  rewrite expand_plain_all.
  - apply list_of_inj. rewrite list_ascii_of_string_of_list_ascii.
    unfold adapted_text. rewrite !list_of_app, list_of_declaration.
    repeat rewrite <- app_assoc. reflexivity.
  - unfold themed_dark_section.
    assert (C : forallb not_dollar
                  (list_ascii_of_string (dark_declarations l (dark_tint seedHue))) = true).
    { unfold dark_declarations. rewrite !list_of_app, list_of_declaration.
      apply (content_no_dollar dark), dark_is_tint. }
    rewrite !list_of_app, !forallb_app, C. reflexivity.
Qed.

End Layout.

End Shadows.



(** A stylesheet in the layout of the shadows file of Open Props. *)
Definition shadows_source : string :=
"@import 'props.media.css';

:where(html) {
  --shadow-color: 220 3% 15%;
  --shadow-strength: 1%;
  --inner-shadow-highlight: inset 0 -.5px 0 0 #fff, inset 0 .5px 0 0 #0001;
  --shadow-1: 0 1px 2px -1px hsl(var(--shadow-color) / calc(var(--shadow-strength) + 9%));
  --shadow-2:
    0 3px 5px -2px hsl(var(--shadow-color) / calc(var(--shadow-strength) + 3%)),
    0 7px 14px -5px hsl(var(--shadow-color) / calc(var(--shadow-strength) + 5%));
  --inner-shadow-0: inset 0 0 0 1px hsl(var(--shadow-color) / calc(var(--shadow-strength) + 9%));
}

@media (--OSdark) {
  :where(html) {
    --shadow-color: 220 40% 2%;
    --shadow-strength: 25%;
    --inner-shadow-highlight: inset 0 -.5px 0 0 #fff1, inset 0 .5px 0 0 #0007;
  }
}
".

(** Its parts. *)
Definition shadows_layout : ShadowsLayout := {|
  preamble := ":root {
  ";
  root_blanks := " ";
  root_value := "220 3% 15%";
  interlude := "
  --shadow-strength: 1%;
  --inner-shadow-highlight: inset 0 -.5px 0 0 #fff, inset 0 .5px 0 0 #0001;
  --shadow-1: 0 1px 2px -1px hsl(var(--shadow-color) / calc(var(--shadow-strength) + 9%));
  --shadow-2:
    0 3px 5px -2px hsl(var(--shadow-color) / calc(var(--shadow-strength) + 3%)),
    0 7px 14px -5px hsl(var(--shadow-color) / calc(var(--shadow-strength) + 5%));
  --inner-shadow-0: inset 0 0 0 1px hsl(var(--shadow-color) / calc(var(--shadow-strength) + 9%));
}

";
  open_blanks := "
  ";
  dark_before := "
    ";
  dark_blanks := " ";
  dark_value := "220 40% 2%";
  dark_after := "
    --shadow-strength: 25%;
    --inner-shadow-highlight: inset 0 -.5px 0 0 #fff1, inset 0 .5px 0 0 #0007;
  ";
  close_blanks := "
";
  postlude := "
"
|}.


(** The text it stands for, at the hue 265.5. *)
Example shadows_source_adapted :
  transformOpenPropsCSS shadows_source "shadows" (2655 # 10)
  = ":root {
  --shadow-color: 266 10% 15%;
  --shadow-strength: 1%;
  --inner-shadow-highlight: inset 0 -.5px 0 0 #fff, inset 0 .5px 0 0 #0001;
  --shadow-1: 0 1px 2px -1px hsl(var(--shadow-color) / calc(var(--shadow-strength) + 9%));
  --shadow-2:
    0 3px 5px -2px hsl(var(--shadow-color) / calc(var(--shadow-strength) + 3%)),
    0 7px 14px -5px hsl(var(--shadow-color) / calc(var(--shadow-strength) + 5%));
  --inner-shadow-0: inset 0 0 0 1px hsl(var(--shadow-color) / calc(var(--shadow-strength) + 9%));
}

[data-theme=" +:+ JS.dq +:+ "dark" +:+ JS.dq +:+ "] {
    --shadow-color: 266 30% 5%;
    --shadow-strength: 25%;
    --inner-shadow-highlight: inset 0 -.5px 0 0 #fff1, inset 0 .5px 0 0 #0007;
  }

@media (prefers-color-scheme: dark) {
  :root:not([data-theme=" +:+ JS.dq +:+ "light" +:+ JS.dq +:+ "]) {
    --shadow-color: 266 30% 5%;
    --shadow-strength: 25%;
    --inner-shadow-highlight: inset 0 -.5px 0 0 #fff1, inset 0 .5px 0 0 #0007;
  }
}".
Proof. vm_compute. reflexivity. Qed.

(** Outside the range of a hue the dark tint is lost: the minus sign of
    a negative hue is no part of a value, so the second replacement finds
    nothing to replace. *)
Example negative_hue_keeps_light_tint :
  injectShadowColor
    ("@media (prefers-color-scheme: dark) { :root { --shadow-color: 1%; } }") (-(5 # 1))
  = "[data-theme=" +:+ JS.dq +:+ "dark" +:+ JS.dq +:+ "] { --shadow-color: -5 10% 15%; }

@media (prefers-color-scheme: dark) {
  :root:not([data-theme=" +:+ JS.dq +:+ "light" +:+ JS.dq +:+ "]) { --shadow-color: -5 10% 15%; }
}".
Proof. vm_compute. reflexivity. Qed.

(* ===================================================================== *)
(** * The three rewrites of [transformOpenPropsCSS]                        *)
(* ===================================================================== *)

Section Rewrites.

Import Regex.

(** A text in which the expression matches nowhere is copied as it is. *)
Lemma replace_go_none r ngroups tmpl (x : list ascii) :
  (forall prev y z, x = y ++ z -> match_at r prev z = None) ->
  forall pre prev, replace_go r ngroups tmpl 0 pre prev x = x.
Proof.
  induction x as [|c x IH]; intros H pre prev.
  - cbn [replace_go]. now rewrite (H prev [] []).
  - cbn [replace_go]. rewrite (H prev [] (c :: x)) by reflexivity.
    f_equal. apply IH. intros p y z ->. now apply (H p (c :: y) z).
Qed.

Lemma search_none r (x : list ascii) :
  (forall prev y z, x = y ++ z -> match_at r prev z = None) ->
  forall pre prev, search r pre prev x = None.
Proof.
  induction x as [|c x IH]; intros H pre prev.
  - cbn [search]. now rewrite (H prev [] []).
  - cbn [search]. rewrite (H prev [] (c :: x)) by reflexivity.
    apply IH. intros p y z ->. now apply (H p (c :: y) z).
Qed.

(** An expression that begins with the literal [t] matches only where
    [t] stands. *)
Definition begins_with (r : regex) (t : list ascii) : Prop :=
  forall prev s, starts t s = false -> match_at r prev s = None.

Lemma begins_with_none r t x :
  begins_with r t -> occurs t x = false ->
  forall prev y z, x = y ++ z -> match_at r prev z = None.
Proof.
  intros Hr Hx prev y z ->. apply Hr.
  now apply occurs_starts, (occurs_suffix t y).
Qed.

Lemma occurs_app_false t x y :
  occurs t (x ++ y) = false -> occurs t y = false.
Proof. apply occurs_suffix. Qed.

(** A literal whose first character is not met again in it cannot begin
    in a text without it and end in a copy of it that follows. *)
Lemma no_overlap_head h t x y z rest :
  without h t = true ->
  occurs (h :: t) x = false ->
  x = y ++ z -> z <> [] ->
  starts (h :: t) (z ++ (h :: t) ++ rest) = false.
Proof.
  intros Ht Hx -> Hz. apply occurs_suffix, occurs_starts in Hx.
  destruct (le_lt_dec (length (h :: t)) (length z)) as [Hl|Hl].
  - now rewrite starts_app_long.
  - destruct (starts (h :: t) (z ++ (h :: t) ++ rest)) eqn:E; [exfalso | reflexivity].
    pose proof (starts_nth _ _ E (length z) h Hl) as N.
    rewrite app_nth2, Nat.sub_diag in N by lia. cbn [app nth] in N.
    destruct z as [|c z]; [now contradict Hz|]. cbn [length nth] in N.
    simpl in Hl. unfold without in Ht. rewrite forallb_forall in Ht.
    assert (Hin : In (nth (length z) t h) t) by (apply nth_In; lia).
    apply Ht in Hin. rewrite <- N, Ascii.eqb_refl in Hin. discriminate.
Qed.

(** One replacement, of a match [m] that follows a text [x] in which no
    match begins, by a template without dollar sign. *)
Lemma replace_go_once r ngroups tmpl x m rest cs pre prev :
  forallb not_dollar tmpl = true ->
  (forall y z, x = y ++ z -> z <> [] ->
               match_at r (last_prev prev y) (z ++ m ++ rest) = None) ->
  m <> [] ->
  match_at r (last_prev prev x) (m ++ rest) = Some (cs, rest) ->
  replace_go r ngroups tmpl 0 pre prev (x ++ m ++ rest)
  = x ++ tmpl
    ++ replace_go r ngroups tmpl 0 (rev m ++ rev x ++ pre)
         (last_prev (last_prev prev x) m) rest.
Proof.
  intros Ht Hx Hm Hmatch.
  rewrite replace_go_copy by assumption. f_equal.
  rewrite (replace_go_match _ _ _ _ _ m rest cs) by assumption.
  now rewrite expand_plain_all.
Qed.

End Rewrites.

Section Idioms.

Import Regex.

Lemma run_Seq {R} a b prev s cs (k : cont R) :
  run (Seq a b) prev s cs k = run a prev s cs (fun prev' s' cs' => run b prev' s' cs' k).
Proof. reflexivity. Qed.

Lemma run_Lit {R} t prev s cs (k : cont R) :
  run (Lit t) prev s cs k = lit (list_ascii_of_string t) prev s cs k.
Proof. reflexivity. Qed.

Lemma run_Star {R} p prev s cs (k : cont R) :
  run (Star p) prev s cs k = star p prev s cs k.
Proof. reflexivity. Qed.

Lemma cls_take {R} p (k : cont R) c s prev cs :
  p c = true -> run (Cls p) prev (c :: s) cs k = k (Some c) s cs.
Proof. intros H. cbn [run]. now rewrite H. Qed.

Lemma opt_take {R} p (k : cont R) c s prev cs r :
  p c = true -> k (Some c) s cs = Some r -> run (Opt p) prev (c :: s) cs k = Some r.
Proof. intros H Hk. cbn [run]. now rewrite H, Hk. Qed.

Lemma opt_skip {R} p (k : cont R) s prev cs :
  stops p s = true -> run (Opt p) prev s cs k = k prev s cs.
Proof.
  intros H. destruct s as [|c s]; [reflexivity|]. cbn [run].
  simpl in H. apply negb_true_iff in H. now rewrite H.
Qed.

(** The three expressions begin with a literal. *)
Definition IMPORT : list ascii := list_ascii_of_string "@import".
Definition MEDIA : list ascii := list_ascii_of_string "@media".
Definition WHERE_HTML : list ascii := list_ascii_of_string ":where(html)".

Lemma import_begins : begins_with Re.import_re IMPORT.
Proof.
  intros prev s H. unfold match_at, Re.import_re. cbn [Re.seq].
  rewrite run_Seq, run_Lit. now apply lit_fails.
Qed.

Lemma os_dark_begins : begins_with Re.os_dark_re MEDIA.
Proof.
  intros prev s H. unfold match_at, Re.os_dark_re. cbn [Re.seq].
  rewrite run_Seq, run_Lit. now apply lit_fails.
Qed.

Lemma where_begins : begins_with Re.where_html_re WHERE_HTML.
Proof.
  intros prev s H. unfold match_at, Re.where_html_re.
  rewrite run_Lit. now apply lit_fails.
Qed.

Lemma where_match prev rest :
  match_at Re.where_html_re prev (WHERE_HTML ++ rest) = Some ([], rest).
Proof.
  unfold match_at, Re.where_html_re, WHERE_HTML. rewrite run_Lit.
  now rewrite lit_app by discriminate.
Qed.

(** The query for a dark scheme as Open Props spells it, with the blanks
    the expression allows. *)
Definition os_dark_query (b1 b2 : list ascii) : list ascii :=
  MEDIA ++ b1 ++ list_ascii_of_string "(--OSdark)" ++ b2 ++ list_ascii_of_string "{".

Lemma os_dark_match prev b1 b2 rest :
  forallb JS.is_space b1 = true -> forallb JS.is_space b2 = true ->
  match_at Re.os_dark_re prev (os_dark_query b1 b2 ++ rest) = Some ([], rest).
Proof.
  intros H1 H2. unfold match_at, Re.os_dark_re, os_dark_query, MEDIA. cbn [Re.seq].
  repeat rewrite <- app_assoc.
  rewrite run_Seq, run_Lit, lit_app by discriminate. cbv beta.
  rewrite run_Seq, run_Star. apply star_take; [assumption | reflexivity |].
  rewrite run_Seq, run_Lit, lit_app by discriminate. cbv beta.
  rewrite run_Seq, run_Star. apply star_take; [assumption | reflexivity |].
  rewrite run_Lit, lit_app by discriminate. reflexivity.
Qed.

(** An import statement: the keyword, blanks, the quoted path, blanks,
    and maybe a semicolon and more blanks. *)
Record ImportStatement : Type := {
  imp_blanks : list ascii;
  imp_open : ascii;
  imp_path : list ascii;
  imp_close : ascii;
  imp_blanks_after : list ascii;
  imp_semicolon : option (list ascii)    (* the blanks after the semicolon *)
}.

Definition import_text (i : ImportStatement) : list ascii :=
  IMPORT ++ imp_blanks i ++ imp_open i :: imp_path i ++ imp_close i
  :: imp_blanks_after i
  ++ match imp_semicolon i with
     | Some b => ";"%char :: b
     | None => []
     end.

Definition import_ok (i : ImportStatement) : bool :=
  negb (Nat.eqb (length (imp_blanks i)) 0) && forallb JS.is_space (imp_blanks i)
  && Re.quote (imp_open i) && Re.quote (imp_close i)
  && negb (Nat.eqb (length (imp_path i)) 0) && forallb Re.not_quote (imp_path i)
  && forallb JS.is_space (imp_blanks_after i)
  && match imp_semicolon i with
     | Some b => forallb JS.is_space b
     | None => true
     end.

(** What may follow an import statement for the statement to end there:
    no blank, and no semicolon when the statement has none. *)
Definition ends_import (i : ImportStatement) (rest : list ascii) : bool :=
  stops JS.is_space rest
  && match imp_semicolon i with
     | Some _ => true
     | None => stops (Re.just ";") rest
     end.

Lemma space_not_newline_stop rest :
  stops JS.is_space rest = true -> stops (Re.just (ascii_of_nat 10)) rest = true.
Proof.
  destruct rest as [|c rest]; [reflexivity|]. simpl.
  destruct c as [[] [] [] [] [] [] [] []]; try reflexivity; discriminate.
Qed.

Lemma import_match prev i rest :
  import_ok i = true -> ends_import i rest = true ->
  match_at Re.import_re prev (import_text i ++ rest) = Some ([], rest).
Proof.
  unfold import_ok, ends_import.
  intros H [Hs He]%andb_true_iff.
  repeat (apply andb_true_iff in H as [H ?]).
  apply negb_true_iff, Nat.eqb_neq in H.
  match goal with Hp : negb (length (imp_path i) =? 0) = true |- _ =>
    apply negb_true_iff, Nat.eqb_neq in Hp end.
  unfold match_at, Re.import_re, import_text, IMPORT. cbn [Re.seq].
  repeat rewrite <- app_assoc. cbn [app]. repeat rewrite <- app_assoc. cbn [app].
  rewrite run_Seq, run_Lit, lit_app by discriminate. cbv beta.
  rewrite run_Seq. apply plus_take;
    [now destruct (imp_blanks i) | assumption
     | simpl; destruct (imp_open i) as [[] [] [] [] [] [] [] []]; try reflexivity; discriminate |].
  rewrite run_Seq, cls_take by assumption.
  rewrite run_Seq. apply plus_take;
    [now destruct (imp_path i) | assumption
     | simpl; unfold Re.not_quote; now rewrite negb_involutive |].
  rewrite run_Seq, cls_take by assumption.
  rewrite run_Seq, run_Star.
  destruct (imp_semicolon i) as [b|].
  - rewrite <- app_assoc. cbn [app].
    apply star_take; [assumption | reflexivity |].
    rewrite run_Seq. apply opt_take; [reflexivity|].
    rewrite run_Seq, run_Star. apply star_take; [assumption | assumption |].
    rewrite opt_skip by now apply space_not_newline_stop. reflexivity.
  - rewrite app_nil_r. apply star_take; [assumption | assumption |].
    rewrite run_Seq, opt_skip by assumption.
    rewrite run_Seq, run_Star.
    rewrite <- (app_nil_l rest) at 1. apply star_take; [reflexivity | assumption |].
    rewrite opt_skip by now apply space_not_newline_stop. reflexivity.
Qed.

End Idioms.

Section Interleaved.

Import Regex.

(** A text made of plain segments with idioms in between: [seg0], then
    each idiom followed by its segment. *)
Definition interleaved {A} (text_of : A -> list ascii) (seg0 : list ascii)
    (l : list (A * list ascii)) : list ascii :=
  seg0 ++ concat (map (fun '(a, seg) => text_of a ++ seg) l).

(** What follows a segment: the end of the text, or an at sign. *)
Definition at_boundary (rest : list ascii) : Prop :=
  rest = [] \/ exists rest', rest = "@"%char :: rest'.

Variable r : regex.
Variable ngroups : nat.
Variable tmpl : list ascii.
Hypothesis tmpl_plain : forallb not_dollar tmpl = true.
Hypothesis begins_at : forall prev c s, c <> "@"%char -> match_at r prev (c :: s) = None.
Hypothesis not_empty : forall prev, match_at r prev [] = None.

Variable A : Type.
Variable text_of : A -> list ascii.
Hypothesis text_at : forall a, exists t, text_of a = "@"%char :: t.

Lemma not_at_sign_neq c : not_at_sign c = true -> c <> "@"%char.
Proof. unfold not_at_sign. intros H ->. discriminate. Qed.

Lemma interleaved_boundary (l : list (A * list ascii)) :
  at_boundary (concat (map (fun '(a, seg) => text_of a ++ seg) l)).
Proof.
  destruct l as [|[a seg] l]; [now left|]. right.
  destruct (text_at a) as [t E]. simpl. rewrite E. now eexists.
Qed.

Lemma at_free_copy (x b : list ascii) pre prev :
  forallb not_at_sign x = true ->
  replace_go r ngroups tmpl 0 pre prev (x ++ b)
  = x ++ replace_go r ngroups tmpl 0 (rev x ++ pre) (last_prev prev x) b.
Proof.
  intros Hx. apply replace_go_copy. intros y z -> Hz.
  destruct z as [|c z]; [now contradict Hz|]. cbn [app]. apply begins_at.
  rewrite forallb_app in Hx. apply andb_true_iff in Hx as [_ Hx].
  simpl in Hx. apply andb_true_iff in Hx as [Hc _]. now apply not_at_sign_neq.
Qed.

(** Every idiom the expression matches is replaced by the template, and
    the segments are copied. *)
Lemma replace_interleaved (l : list (A * list ascii)) :
  forall seg0 pre prev,
    forallb not_at_sign seg0 = true ->
    Forall (fun '(a, seg) =>
              forallb not_at_sign seg = true
              /\ forall prev rest, at_boundary rest ->
                   match_at r prev (text_of a ++ seg ++ rest) = Some ([], seg ++ rest)) l ->
    replace_go r ngroups tmpl 0 pre prev (interleaved text_of seg0 l)
    = interleaved (fun _ => tmpl) seg0 l.
Proof.
  unfold interleaved.
  induction l as [|[a seg] l IH]; intros seg0 pre prev H0 Hl.
  - cbn [map concat]. rewrite !app_nil_r. apply replace_go_none.
    intros p y z ->. destruct z as [|c z]; [apply not_empty|]. apply begins_at.
    rewrite forallb_app in H0. apply andb_true_iff in H0 as [_ H0].
    simpl in H0. apply andb_true_iff in H0 as [Hc _]. now apply not_at_sign_neq.
  - apply Forall_cons_iff in Hl as [[Hseg Hm] Hl]. cbn [map concat].
    rewrite at_free_copy by assumption. f_equal.
    rewrite <- app_assoc.
    rewrite (replace_go_match _ _ _ _ _ (text_of a) _ []).
    + rewrite expand_plain_all by assumption. rewrite <- app_assoc. f_equal.
      now apply IH.
    + destruct (text_at a) as [t ->]. discriminate.
    + apply Hm, interleaved_boundary.
Qed.

End Interleaved.

(** A text without the root selector idiom of Open Props. *)
Definition no_where_html (s : string) : bool :=
  negb (occurs WHERE_HTML (list_ascii_of_string s)).

Section Adapter.

Import Regex.

Definition ROOT : list ascii := list_ascii_of_string ":root".
Definition DARK_QUERY : list ascii :=
  list_ascii_of_string "@media (prefers-color-scheme: dark) {".

Lemma transform_unfold css fileName seedHue :
  transformOpenPropsCSS css fileName seedHue
  = JS.trim (if String.eqb fileName "shadows"
             then injectShadowColor (media_rewritten css) seedHue
             else media_rewritten css).
Proof. reflexivity. Qed.

Lemma media_rewritten_list (t t1 t2 t3 : list ascii) :
  replace_go Re.import_re 0 [] 0 [] None t = t1 ->
  replace_go Re.where_html_re 0 ROOT 0 [] None t1 = t2 ->
  replace_go Re.os_dark_re 0 DARK_QUERY 0 [] None t2 = t3 ->
  media_rewritten (string_of_list_ascii t) = string_of_list_ascii t3.
Proof.
  intros <- <- <-. unfold media_rewritten, replaceAll.
  now rewrite !list_ascii_of_string_of_list_ascii.
Qed.

Lemma at_free_no_occurrence t x :
  forallb not_at_sign x = true -> occurs ("@"%char :: t) x = false.
Proof.
  intros H. rewrite <- (app_nil_r x), occurs_skip; [reflexivity|].
  apply (forallb_impl not_at_sign); [|assumption].
  intros c Hc. unfold not_at_sign in Hc. now rewrite Ascii.eqb_sym.
Qed.

Lemma import_copy x :
  forallb not_at_sign x = true ->
  forall pre prev, replace_go Re.import_re 0 [] 0 pre prev x = x.
Proof.
  intros H. apply replace_go_none.
  apply (begins_with_none _ IMPORT); [apply import_begins|].
  now apply at_free_no_occurrence.
Qed.

Lemma os_dark_copy x :
  forallb not_at_sign x = true ->
  forall pre prev, replace_go Re.os_dark_re 0 DARK_QUERY 0 pre prev x = x.
Proof.
  intros H. apply replace_go_none.
  apply (begins_with_none _ MEDIA); [apply os_dark_begins|].
  now apply at_free_no_occurrence.
Qed.

Lemma where_copy x :
  occurs WHERE_HTML x = false ->
  forall pre prev, replace_go Re.where_html_re 0 ROOT 0 pre prev x = x.
Proof.
  intros H. apply replace_go_none.
  now apply (begins_with_none _ WHERE_HTML); [apply where_begins|].
Qed.

(** A text with neither idiom is left as it is by the three rewrites. *)
Lemma media_rewritten_plain css :
  no_at_sign css = true -> no_where_html css = true ->
  media_rewritten css = css.
Proof.
  intros Ha Hw. unfold no_where_html in Hw. apply negb_true_iff in Hw.
  rewrite <- (string_of_list_ascii_of_string css) at 1.
  rewrite (media_rewritten_list _ (list_ascii_of_string css)
             (list_ascii_of_string css) (list_ascii_of_string css)).
  - apply string_of_list_ascii_of_string.
  - now apply import_copy.
  - now apply where_copy.
  - now apply os_dark_copy.
Qed.

Lemma dark_section_nowhere content x :
  forallb not_at_sign x = true ->
  forall prev y z, x = y ++ z -> match_at (Re.dark_section content) prev z = None.
Proof.
  intros H prev y z ->. destruct z as [|c z].
  - unfold match_at, Re.dark_section. cbn [Re.seq]. rewrite run_Seq, run_Lit.
    now apply lit_fails.
  - apply section_no_match.
    rewrite forallb_app in H. apply andb_true_iff in H as [_ H].
    simpl in H. apply andb_true_iff in H as [Hc _]. now apply not_at_sign_neq.
Qed.

(** Without a declaration of the shadow colour and without an at sign,
    the injection of the shadow colour changes nothing. *)
Lemma injectShadowColor_plain css seedHue :
  no_at_sign css = true -> no_shadow_color css = true ->
  injectShadowColor css seedHue = css.
Proof.
  intros Ha Hs. apply occurs_false in Hs. unfold injectShadowColor. cbv zeta.
  assert (E : replaceAll Re.shadow_color_re 1
                ("$1" +:+ (JS.intToString (JS.round seedHue) +:+ " 10% 15%") +:+ ";") css
              = css).
  { unfold replaceAll. rewrite list_of_template.
    fold (tint (list_ascii_of_string (JS.intToString (JS.round seedHue) +:+ " 10% 15%"))).
    rewrite tint_copy by assumption. apply string_of_list_ascii_of_string. }
  rewrite E. unfold exec, Re.dark_section_re.
  now rewrite (search_none _ _ (dark_section_nowhere _ _ Ha)).
Qed.

End Adapter.



Section AdapterIdioms.

Import Regex.

(** A segment between two idioms: no at sign, and no root selector idiom. *)
Definition plain_segment (seg : list ascii) : bool :=
  forallb not_at_sign seg && negb (occurs WHERE_HTML seg).

Lemma plain_segment_facts seg :
  plain_segment seg = true ->
  forallb not_at_sign seg = true /\ occurs WHERE_HTML seg = false.
Proof. unfold plain_segment. now intros [H W%negb_true_iff]%andb_true_iff. Qed.

Lemma begins_at_sign r t :
  begins_with r ("@"%char :: t) ->
  forall prev c s, c <> "@"%char -> match_at r prev (c :: s) = None.
Proof.
  intros Hr prev c s Hc. apply Hr. cbn [starts].
  destruct (Ascii.eqb_spec "@" c) as [E|E]; [congruence | reflexivity].
Qed.

Lemma begins_not_empty r h t : begins_with r (h :: t) -> forall prev, match_at r prev [] = None.
Proof. intros Hr prev. now apply Hr. Qed.

Lemma ROOT_plain : forallb not_dollar ROOT = true.
Proof. reflexivity. Qed.

Lemma DARK_QUERY_plain : forallb not_dollar DARK_QUERY = true.
Proof. reflexivity. Qed.

(** ** The root selector *)

(** The segments with the separator [sep] before each but the first. *)
Definition joined (sep seg0 : list ascii) (segs : list (list ascii)) : list ascii :=
  seg0 ++ concat (map (fun seg => sep ++ seg) segs).

Lemma where_pass (segs : list (list ascii)) :
  forall seg0 pre prev,
    occurs WHERE_HTML seg0 = false ->
    forallb (fun seg => negb (occurs WHERE_HTML seg)) segs = true ->
    replace_go Re.where_html_re 0 ROOT 0 pre prev (joined WHERE_HTML seg0 segs)
    = joined ROOT seg0 segs.
Proof.
  unfold joined. induction segs as [|seg segs IH]; intros seg0 pre prev H0 Hl.
  - cbn [map concat]. rewrite !app_nil_r. now apply where_copy.
  - simpl in Hl. apply andb_true_iff in Hl as [Hseg%negb_true_iff Hl].
    cbn [map concat]. rewrite <- !app_assoc.
    rewrite (replace_go_once _ _ _ _ _ _ []).
    + f_equal. f_equal. now apply IH.
    + apply ROOT_plain.
    + intros y z E Hz. apply where_begins.
      now apply (no_overlap_head _ _ seg0 y).
    + discriminate.
    + apply where_match.
Qed.

Lemma forallb_concat {A} (p : A -> bool) (l : list (list A)) :
  forallb p (concat l) = forallb (forallb p) l.
Proof.
  induction l as [|x l IH]; [reflexivity|]. simpl. now rewrite forallb_app, IH.
Qed.

Lemma joined_at_free sep seg0 segs :
  forallb not_at_sign sep = true ->
  forallb not_at_sign seg0 = true ->
  forallb (forallb not_at_sign) segs = true ->
  forallb not_at_sign (joined sep seg0 segs) = true.
Proof.
  intros Hsep H0 Hl. unfold joined. rewrite forallb_app, H0, forallb_concat.
  simpl. induction segs as [|s segs IH]; [reflexivity|].
  simpl in *. apply andb_true_iff in Hl as [Hs Hl].
  now rewrite forallb_app, Hsep, Hs, IH.
Qed.

Lemma plain_segments_facts segs :
  forallb plain_segment segs = true ->
  forallb (forallb not_at_sign) segs = true
  /\ forallb (fun seg => negb (occurs WHERE_HTML seg)) segs = true.
Proof.
  induction segs as [|s segs IH]; [now split|]. simpl.
  intros [[Ha Hw]%andb_true_iff Hl]%andb_true_iff.
  destruct (IH Hl) as [IH1 IH2]. now rewrite Ha, Hw, IH1, IH2.
Qed.

End AdapterIdioms.



Section AdapterQueries.

Import Regex.

(** ** The media query for a dark scheme *)

Definition query_text (b : list ascii * list ascii) : list ascii :=
  os_dark_query b.1 b.2.

Definition query_ok (q : (list ascii * list ascii) * list ascii) : bool :=
  forallb JS.is_space q.1.1 && forallb JS.is_space q.1.2 && plain_segment q.2.

Lemma space_not_colon_b c : JS.is_space c = true -> negb (Ascii.eqb ":" c) = true.
Proof. destruct c as [[] [] [] [] [] [] [] []]; try reflexivity; discriminate. Qed.

Lemma space_not_at c : JS.is_space c = true -> not_at_sign c = true.
Proof. intros H. now apply space_facts in H. Qed.

Lemma query_text_tail b1 b2 rest :
  os_dark_query b1 b2 ++ rest
  = "@"%char :: (list_ascii_of_string "media" ++ b1
                 ++ list_ascii_of_string "(--OSdark)" ++ b2
                 ++ list_ascii_of_string "{") ++ rest.
Proof. unfold os_dark_query, MEDIA. repeat rewrite <- app_assoc. reflexivity. Qed.

Lemma queries_no_import (l : list ((list ascii * list ascii) * list ascii)) :
  forall seg0,
    forallb not_at_sign seg0 = true ->
    forallb query_ok l = true ->
    occurs IMPORT (interleaved query_text seg0 l) = false.
Proof.
  unfold interleaved.
  induction l as [|[[b1 b2] seg] l IH]; intros seg0 H0 Hl.
  - cbn [map concat]. rewrite app_nil_r. now apply at_free_no_occurrence.
  - simpl in Hl. apply andb_true_iff in Hl as [Hq Hl].
    unfold query_ok in Hq. cbn [fst snd] in Hq.
    apply andb_true_iff in Hq as [[H1 H2]%andb_true_iff [Hseg _]%plain_segment_facts].
    cbn [map concat]. unfold query_text at 1. cbn [fst snd].
    assert (Hskip : forall x y, forallb not_at_sign x = true ->
                                occurs IMPORT (x ++ y) = occurs IMPORT y).
    { intros x y Hx. apply (occurs_skip "@"%char).
      apply (forallb_impl not_at_sign); [|assumption].
      intros c Hc. unfold not_at_sign in Hc. now rewrite Ascii.eqb_sym. }
    rewrite Hskip by assumption.
    rewrite <- app_assoc, query_text_tail.
    cbn [occurs]. rewrite orb_false_iff. split; [reflexivity|].
    rewrite Hskip.
    + now apply IH.
    + rewrite !forallb_app.
      rewrite (forallb_impl _ _ _ space_not_at H1), (forallb_impl _ _ _ space_not_at H2).
      reflexivity.
Qed.

Lemma queries_no_where (l : list ((list ascii * list ascii) * list ascii)) :
  forall seg0,
    occurs WHERE_HTML seg0 = false ->
    forallb query_ok l = true ->
    occurs WHERE_HTML (interleaved query_text seg0 l) = false.
Proof.
  unfold interleaved.
  induction l as [|[[b1 b2] seg] l IH]; intros seg0 H0 Hl.
  - cbn [map concat]. now rewrite app_nil_r.
  - simpl in Hl. apply andb_true_iff in Hl as [Hq Hl].
    unfold query_ok in Hq. cbn [fst snd] in Hq.
    apply andb_true_iff in Hq as [[H1 H2]%andb_true_iff [_ Hseg]%plain_segment_facts].
    cbn [map concat]. unfold query_text at 1. cbn [fst snd].
    rewrite <- app_assoc, query_text_tail.
    rewrite occurs_barrier, H0 by reflexivity. cbn [orb].
    unfold WHERE_HTML.
    change (list_ascii_of_string ":where(html)")
      with (":"%char :: list_ascii_of_string "where(html)").
    rewrite occurs_skip.
    + now apply IH.
    + rewrite !forallb_app.
      rewrite (forallb_impl _ _ _ space_not_colon_b H1),
              (forallb_impl _ _ _ space_not_colon_b H2).
      reflexivity.
Qed.

Lemma os_dark_pass (l : list ((list ascii * list ascii) * list ascii)) seg0 :
  forallb not_at_sign seg0 = true ->
  forallb query_ok l = true ->
  replace_go Re.os_dark_re 0 DARK_QUERY 0 [] None (interleaved query_text seg0 l)
  = interleaved (fun _ => DARK_QUERY) seg0 l.
Proof.
  intros H0 Hl.
  apply (replace_interleaved Re.os_dark_re 0 DARK_QUERY DARK_QUERY_plain
           (begins_at_sign _ _ os_dark_begins)
           (begins_not_empty _ _ _ os_dark_begins)).
  - intros [b1 b2]. unfold query_text, os_dark_query, MEDIA. now eexists.
  - assumption.
  - clear H0. induction l as [|[[b1 b2] seg] l IH]; [constructor|].
    simpl in Hl. apply andb_true_iff in Hl as [Hq Hl].
    unfold query_ok in Hq. cbn [fst snd] in Hq.
    apply andb_true_iff in Hq as [[H1 H2]%andb_true_iff [Hseg _]%plain_segment_facts].
    constructor; [|now apply IH]. split; [assumption|].
    intros prev rest _. now apply os_dark_match.
Qed.

End AdapterQueries.



Section AdapterImports.

Import Regex.

(** ** Import statements *)

Definition import_item_ok (x : ImportStatement * list ascii) : bool :=
  import_ok x.1 && ends_import x.1 x.2 && forallb not_at_sign x.2.

Lemma stops_boundary p seg rest :
  p "@"%char = false -> stops p seg = true -> at_boundary rest ->
  stops p (seg ++ rest) = true.
Proof.
  intros Hp Hs Hb. destruct seg as [|c seg]; [|exact Hs].
  destruct Hb as [->|[rest' ->]]; [reflexivity|]. simpl. now rewrite Hp.
Qed.

Lemma ends_import_boundary i seg rest :
  ends_import i seg = true -> at_boundary rest -> ends_import i (seg ++ rest) = true.
Proof.
  unfold ends_import. intros [Hs He]%andb_true_iff Hb.
  rewrite stops_boundary by auto. cbn [andb].
  destruct (imp_semicolon i); [reflexivity|]. now apply stops_boundary.
Qed.

Lemma import_pass (l : list (ImportStatement * list ascii)) seg0 :
  forallb not_at_sign seg0 = true ->
  forallb import_item_ok l = true ->
  replace_go Re.import_re 0 [] 0 [] None (interleaved import_text seg0 l)
  = seg0 ++ concat (map snd l).
Proof.
  intros H0 Hl.
  rewrite (replace_interleaved Re.import_re 0 [] eq_refl
             (begins_at_sign _ _ import_begins)
             (begins_not_empty _ _ _ import_begins)).
  - unfold interleaved. f_equal; f_equal; apply map_ext; now intros [a seg].
  - intros i. unfold import_text, IMPORT. now eexists.
  - assumption.
  - clear H0. induction l as [|[i seg] l IH]; [constructor|].
    simpl in Hl. apply andb_true_iff in Hl as [Hq Hl].
    unfold import_item_ok in Hq. cbn [fst snd] in Hq.
    apply andb_true_iff in Hq as [[Hi He]%andb_true_iff Hseg].
    constructor; [|now apply IH]. split; [assumption|].
    intros prev rest Hb. apply import_match; [assumption|].
    now apply ends_import_boundary.
Qed.

Lemma segments_at_free (l : list (ImportStatement * list ascii)) seg0 :
  forallb not_at_sign seg0 = true ->
  forallb import_item_ok l = true ->
  forallb not_at_sign (seg0 ++ concat (map snd l)) = true.
Proof.
  intros H0 Hl. rewrite forallb_app, H0, forallb_concat. simpl.
  induction l as [|[i seg] l IH]; [reflexivity|].
  simpl in Hl. apply andb_true_iff in Hl as [Hq Hl].
  unfold import_item_ok in Hq. apply andb_true_iff in Hq as [_ Hseg].
  simpl. cbn [snd] in Hseg. now rewrite Hseg, IH.
Qed.

End AdapterImports.



Example transformOpenPropsCSS_imports_example :
  transformOpenPropsCSS "@import 'props.media.css';

:root { --a: 1; }" "sizes" 0%Q = ":root { --a: 1; }".
Proof. reflexivity. Qed.

(* ===================================================================== *)
(** * [src/generator.ts], browser side: scheme colours as CSS properties   *)
(* ===================================================================== *)

(** The expression "/([A-Z])/g". *)
Definition upper_case_re : Regex.regex := Regex.Grp 1 (Regex.Cls JS.is_upper).

(** The capital letters of Latin-1 beyond A to Z: U+00C0 to U+00DE
    without the multiplication sign U+00D7. *)
Definition latin_capital (c : ascii) : bool :=
  JS.in_range 192 222 c && negb (Nat.eqb (JS.code c) 215).

(** [String.prototype.toLowerCase] on the code units a [string] holds:
    the letters A to Z and the capital letters of Latin-1 go to the
    letter thirty-two places up, every other code unit stays. *)
Definition lower_code_unit (c : ascii) : ascii :=
  if JS.is_upper c || latin_capital c then ascii_of_nat (JS.code c + 32) else c.

Fixpoint toLowerCase (s : string) : string :=
  match s with
  | EmptyString => EmptyString
  | String c s' => String (lower_code_unit c) (toLowerCase s')
  end.

(** Convert camelCase to kebab-case. *)
Definition camelToKebab (str : string) : string :=
  toLowerCase (Regex.replaceAll upper_case_re 1 "-$1" str).

(** [Object.entries(colors)]: the keys of an object in the order of their
    insertion, each with its value.  Assigning to a property of [props]
    keeps the place of a name that is there and changes its value. *)
Definition schemeToCSSProperties (colors : list (string * string))
  : list (string * string) :=
  fold_left (fun props '(key, value) =>
               let cssName := "--" +:+ camelToKebab key in
               map_set cssName value props)
            colors [].

Section CamelToKebab.

Import Regex.

(** What [camelToKebab] makes of one character. *)
Definition kebab_char (c : ascii) : list ascii :=
  if JS.is_upper c then ["-"%char; lower_code_unit c] else [lower_code_unit c].

Definition kebab (s : list ascii) : list ascii := flat_map kebab_char s.

Definition hyphenated (c : ascii) : list ascii :=
  if JS.is_upper c then ["-"%char; c] else [c].

Lemma upper_case_match prev c s :
  match_at upper_case_re prev (c :: s)
  = if JS.is_upper c then Some ([(1, [c])], s) else None.
Proof.
  unfold match_at, upper_case_re. cbn [run].
  destruct (JS.is_upper c); [|reflexivity].
  now rewrite take_diff_cons.
Qed.

Lemma upper_case_replace (s : list ascii) :
  forall pre prev,
    replace_go upper_case_re 1 (list_ascii_of_string "-$1") 0 pre prev s
    = flat_map hyphenated s.
Proof.
  induction s as [|c s IH]; intros pre prev; [reflexivity|].
  cbn [replace_go flat_map]. rewrite upper_case_match. unfold hyphenated at 1.
  destruct (JS.is_upper c).
  - cbn [length]. replace (S (length s) - length s) with 1 by lia.
    cbn [firstn]. rewrite IH. reflexivity.
  - cbn [app]. now rewrite IH.
Qed.

Lemma list_of_toLowerCase s :
  list_ascii_of_string (toLowerCase s) = map lower_code_unit (list_ascii_of_string s).
Proof. induction s as [|c s IH]; [reflexivity|]. simpl. now rewrite IH. Qed.

Lemma hyphen_lower : lower_code_unit "-" = "-"%char.
Proof. reflexivity. Qed.

(** [camelToKebab], one character at a time: a hyphen goes before each
    capital from A to Z, and every capital becomes a small letter. *)
Lemma camelToKebab_chars s :
  list_ascii_of_string (camelToKebab s) = kebab (list_ascii_of_string s).
Proof.
  unfold camelToKebab, replaceAll.
  rewrite list_of_toLowerCase, list_ascii_of_string_of_list_ascii, upper_case_replace.
  unfold kebab. induction (list_ascii_of_string s) as [|c l IH]; [reflexivity|].
  cbn [flat_map]. rewrite map_app, IH. f_equal.
  unfold hyphenated, kebab_char. destruct (JS.is_upper c) eqn:E; reflexivity.
Qed.

Definition no_hyphen (s : string) : bool :=
  forallb (fun c => negb (Ascii.eqb c "-")) (list_ascii_of_string s).

Definition no_latin_capital (s : string) : bool :=
  forallb (fun c => negb (latin_capital c)) (list_ascii_of_string s).

Lemma lower_not_capital c :
  JS.is_upper c = false -> latin_capital c = false -> lower_code_unit c = c.
Proof. unfold lower_code_unit. now intros -> ->. Qed.

Lemma upper_lower_char c : JS.is_upper c = true -> JS.upper_char (lower_code_unit c) = c.
Proof. destruct c as [[] [] [] [] [] [] [] []]; try discriminate; reflexivity. Qed.

Lemma lower_char_inj c d :
  JS.is_upper c = true -> JS.is_upper d = true ->
  lower_code_unit c = lower_code_unit d -> c = d.
Proof.
  intros Hc Hd E. rewrite <- (upper_lower_char c Hc), <- (upper_lower_char d Hd).
  now rewrite E.
Qed.

Lemma kebab_inj (s t : list ascii) :
  forallb (fun c => negb (Ascii.eqb c "-")) s = true ->
  forallb (fun c => negb (Ascii.eqb c "-")) t = true ->
  forallb (fun c => negb (latin_capital c)) s = true ->
  forallb (fun c => negb (latin_capital c)) t = true ->
  kebab s = kebab t -> s = t.
Proof.
  revert t. induction s as [|c s IH]; intros t Hs Ht Ls Lt E.
  - destruct t as [|d t]; [reflexivity|]. exfalso.
    cbn [kebab flat_map] in E. unfold kebab_char in E.
    destruct (JS.is_upper d); discriminate.
  - simpl in Hs. apply andb_true_iff in Hs as [Hc Hs].
    apply negb_true_iff, Ascii.eqb_neq in Hc.
    simpl in Ls. apply andb_true_iff in Ls as [Lc Ls]. apply negb_true_iff in Lc.
    destruct t as [|d t].
    { exfalso. cbn [kebab flat_map] in E. unfold kebab_char in E.
      destruct (JS.is_upper c); discriminate. }
    simpl in Ht. apply andb_true_iff in Ht as [Hd Ht].
    apply negb_true_iff, Ascii.eqb_neq in Hd.
    simpl in Lt. apply andb_true_iff in Lt as [Ld Lt]. apply negb_true_iff in Ld.
    cbn [kebab flat_map] in E. unfold kebab_char in E. fold (kebab s) (kebab t) in E.
    destruct (JS.is_upper c) eqn:Uc, (JS.is_upper d) eqn:Ud; cbn [app] in E.
    + injection E as El E. apply lower_char_inj in El; [|assumption|assumption].
      subst d. f_equal. now apply IH.
    + injection E as El E. rewrite (lower_not_capital d Ud Ld) in El. now contradict Hd.
    + injection E as El E. rewrite (lower_not_capital c Uc Lc) in El. now contradict Hc.
    + injection E as El E.
      rewrite (lower_not_capital c Uc Lc), (lower_not_capital d Ud Ld) in El.
      subst d. f_equal. now apply IH.
Qed.

End CamelToKebab.


Example camelToKebab_role :
  camelToKebab "onPrimaryContainer" = "on-primary-container"
  /\ camelToKebab "surfaceContainerHighest" = "surface-container-highest"
  /\ camelToKebab "primary" = "primary".
Proof. repeat split; reflexivity. Qed.

(** With a hyphen in a name the kebab form can be that of another name,
    and so it can with a capital of Latin-1: U+00C9 and U+00E9 have one
    kebab form. *)
Example camelToKebab_collision :
  camelToKebab "aB" = camelToKebab "a-b"
  /\ camelToKebab (String (ascii_of_nat 201) "") = camelToKebab (String (ascii_of_nat 233) "")
  /\ String (ascii_of_nat 201) "" <> String (ascii_of_nat 233) "".
Proof. split; [reflexivity | split; [reflexivity | discriminate]]. Qed.


Section SchemeProperties.

Definition property_of (entry : string * string) : string * string :=
  ("--" +:+ camelToKebab entry.1, entry.2).

(** A key that [camelToKebab] keeps apart from every other such key. *)
Definition plain_key (key : string) : bool := no_hyphen key && no_latin_capital key.

Lemma map_set_fresh name value (m : list (string * string)) :
  ~ In name (map fst m) -> map_set name value m = m ++ [(name, value)].
Proof.
  induction m as [|[k v] m IH]; intros H; [reflexivity|]. simpl.
  destruct (String.eqb_spec k name) as [->|Hne].
  - exfalso. apply H. now left.
  - f_equal. apply IH. intros Hin. apply H. now right.
Qed.

Lemma property_name_inj k1 k2 :
  plain_key k1 = true -> plain_key k2 = true ->
  "--" +:+ camelToKebab k1 = "--" +:+ camelToKebab k2 -> k1 = k2.
Proof.
  unfold plain_key. intros [H1 L1]%andb_true_iff [H2 L2]%andb_true_iff E.
  apply (f_equal list_ascii_of_string) in E.
  rewrite !list_of_app in E. apply app_inv_head in E.
  rewrite !camelToKebab_chars in E.
  apply list_of_inj, kebab_inj; assumption.
Qed.

Lemma schemeToCSSProperties_from (colors : list (string * string)) :
  forall acc,
    List.NoDup (map fst (acc ++ colors)) ->
    forallb (fun e => plain_key e.1) (acc ++ colors) = true ->
    fold_left (fun props '(key, value) =>
                 map_set ("--" +:+ camelToKebab key) value props)
              colors (map property_of acc)
    = map property_of (acc ++ colors).
Proof.
  induction colors as [|[k v] colors IH]; intros acc Hnd Hh.
  - now rewrite app_nil_r.
  - cbn [fold_left]. rewrite map_set_fresh.
    + change (map property_of acc ++ [("--" +:+ camelToKebab k, v)])
        with (map property_of acc ++ map property_of [(k, v)]).
      rewrite <- map_app.
      replace (acc ++ (k, v) :: colors) with ((acc ++ [(k, v)]) ++ colors)
        by now rewrite <- app_assoc.
      apply IH; now rewrite <- app_assoc.
    + rewrite map_map. intros ((k2, v2) & E & Hin)%in_map_iff.
      cbn [property_of fst] in E.
      rewrite forallb_app in Hh. apply andb_true_iff in Hh as [Hacc Hcol].
      rewrite forallb_forall in Hacc. pose proof (Hacc _ Hin) as Hk2.
      simpl in Hcol. apply andb_true_iff in Hcol as [Hk _].
      apply property_name_inj in E; [|assumption|assumption]. cbn [fst] in E. subst k2.
      rewrite map_app in Hnd. apply List.NoDup_remove_2 in Hnd.
      apply Hnd. apply in_or_app. left. apply in_map_iff. now exists (k, v2).
Qed.

End SchemeProperties.



(** Two keys that differ in a capital of Latin-1 share one property. *)
Example schemeToCSSProperties_shared :
  schemeToCSSProperties [(String (ascii_of_nat 201) "", "#000000");
                         (String (ascii_of_nat 233) "", "#FFFFFF")]
  = [("--" +:+ String (ascii_of_nat 233) "", "#FFFFFF")].
Proof. reflexivity. Qed.

(* ===================================================================== *)
(** * Sorted output: the imports of index.css, the keys of a category     *)
(* ===================================================================== *)

From Stdlib Require Import Sorting.Sorted Sorting.Permutation.

Section InsertionSort.

Variable A : Type.
Variable le : A -> A -> bool.
Hypothesis le_total : forall x y, le x y = true \/ le y x = true.
Hypothesis le_trans : forall x y z, le x y = true -> le y z = true -> le x z = true.

Fixpoint ins (x : A) (l : list A) : list A :=
  match l with
  | [] => [x]
  | y :: l' => if le x y then x :: l else y :: ins x l'
  end.

Definition isort (l : list A) : list A := fold_right ins [] l.

Lemma ins_perm x l : Permutation (ins x l) (x :: l).
Proof.
  induction l as [|y l IH]; [reflexivity|]. simpl.
  destruct (le x y); [reflexivity|].
  rewrite IH. apply perm_swap.
Qed.

Lemma isort_perm l : Permutation (isort l) l.
Proof.
  induction l as [|x l IH]; [reflexivity|]. simpl.
  rewrite ins_perm. now apply perm_skip.
Qed.

Lemma ins_sorted x l :
  StronglySorted (fun a b => le a b = true) l ->
  StronglySorted (fun a b => le a b = true) (ins x l).
Proof.
  induction l as [|y l IH]; intros Hl; simpl.
  - constructor; constructor.
  - apply StronglySorted_inv in Hl as [Hl Hy].
    destruct (le x y) eqn:E.
    + constructor; [now constructor|]. constructor; [assumption|].
      rewrite List.Forall_forall in *. intros z Hz. apply (le_trans x y z E). now apply Hy.
    + constructor; [now apply IH|].
      rewrite List.Forall_forall in *. intros z Hz.
      apply (Permutation_in _ (ins_perm x l)) in Hz. destruct Hz as [<-|Hz].
      * destruct (le_total x y) as [H|H]; [congruence | assumption].
      * now apply Hy.
Qed.

Lemma isort_sorted l : StronglySorted (fun a b => le a b = true) (isort l).
Proof.
  induction l as [|x l IH]; [constructor|]. simpl. now apply ins_sorted.
Qed.

Hypothesis le_antisym : forall x y, le x y = true -> le y x = true -> x = y.

Lemma sorted_unique (l1 : list A) :
  forall l2,
    StronglySorted (fun a b => le a b = true) l1 ->
    StronglySorted (fun a b => le a b = true) l2 ->
    Permutation l1 l2 -> l1 = l2.
Proof.
  induction l1 as [|x l1 IH]; intros l2 H1 H2 P.
  - apply Permutation_nil in P. now subst.
  - destruct l2 as [|y l2]; [apply Permutation_sym, Permutation_nil in P; discriminate|].
    apply StronglySorted_inv in H1 as [H1 Hx]. apply StronglySorted_inv in H2 as [H2 Hy].
    rewrite List.Forall_forall in Hx, Hy.
    assert (E : x = y).
    { assert (Hin1 : In x (y :: l2)) by (apply (Permutation_in _ P); now left).
      assert (Hin2 : In y (x :: l1))
        by (apply (Permutation_in _ (Permutation_sym P)); now left).
      destruct Hin1 as [->|Hin1]; [reflexivity|].
      destruct Hin2 as [->|Hin2]; [reflexivity|].
      apply le_antisym; [now apply Hx | now apply Hy]. }
    subst y. f_equal. apply IH; [assumption | assumption |].
    now apply Permutation_cons_inv in P.
Qed.

Lemma isort_invariant l1 l2 : Permutation l1 l2 -> isort l1 = isort l2.
Proof.
  intros P. apply sorted_unique; try apply isort_sorted.
  now rewrite !isort_perm.
Qed.

End InsertionSort.

Section CodeUnitOrder.

Lemma ascii_compare_trans a b c :
  Ascii.compare a b <> Gt -> Ascii.compare b c <> Gt -> Ascii.compare a c <> Gt.
Proof.
  unfold Ascii.compare. rewrite !N.compare_le_iff. lia.
Qed.

Lemma ascii_compare_eq a b : Ascii.compare a b = Eq -> a = b.
Proof. apply Ascii.compare_eq_iff. Qed.

Lemma ascii_compare_lt_trans a b c :
  Ascii.compare a b = Lt -> Ascii.compare b c = Lt -> Ascii.compare a c = Lt.
Proof. unfold Ascii.compare. rewrite !N.compare_lt_iff. lia. Qed.

Lemma string_compare_refl s : String.compare s s = Eq.
Proof.
  induction s as [|c s IH]; [reflexivity|]. simpl.
  unfold Ascii.compare. now rewrite N.compare_refl.
Qed.

Lemma string_leb_trans s1 :
  forall s2 s3, String.leb s1 s2 = true -> String.leb s2 s3 = true ->
                String.leb s1 s3 = true.
Proof.
  unfold String.leb.
  induction s1 as [|a s1 IH]; intros [|b s2] [|c s3]; simpl; try easy.
  destruct (Ascii.compare a b) eqn:Eab; try easy;
    destruct (Ascii.compare b c) eqn:Ebc; try easy; intros H1 H2.
  - apply ascii_compare_eq in Eab, Ebc. subst b c.
    unfold Ascii.compare. rewrite N.compare_refl. now apply (IH s2 s3).
  - apply ascii_compare_eq in Eab. subst b. now rewrite Ebc.
  - apply ascii_compare_eq in Ebc. subst c. now rewrite Eab.
  - now rewrite (ascii_compare_lt_trans a b c).
Qed.

Lemma insert_sorted_ins x l : insert_sorted x l = ins string String.leb x l.
Proof. induction l as [|y l IH]; [reflexivity|]. simpl. now rewrite IH. Qed.

Lemma sort_strings_isort l : sort_strings l = isort string String.leb l.
Proof.
  induction l as [|x l IH]; [reflexivity|].
  unfold sort_strings, isort in *. simpl. now rewrite IH, insert_sorted_ins.
Qed.

(** The sort by code units puts a list in one order, however it was
    ordered before. *)
Lemma sort_strings_invariant l1 l2 :
  Permutation l1 l2 -> sort_strings l1 = sort_strings l2.
Proof.
  intros P. rewrite !sort_strings_isort.
  apply isort_invariant; try assumption.
  - apply String.leb_total.
  - intros x y z. apply string_leb_trans.
  - apply String.leb_antisym.
Qed.

End CodeUnitOrder.

(** The lines of index.css around the imports of the Open Props files,
    and the import line of one file. *)
Definition index_opening (now : string) (prefixes : Prefixes) (paletteSubdir : string)
  : list string :=
  [generateHeader now "Tokens Layer - Main Entry Point" None
     (Some ("Prefix Legend:
  --" +:+ palette prefixes +:+ "-palette-* = Material Design palettes (raw color steps)
  --" +:+ primitives prefixes +:+ "-*      = Open Props primitives (raw values)
  --" +:+ semantic prefixes +:+ "-*        = Application tokens (USE THESE!)

Tier 1: Warehouses (Primitives)
Tier 2: Showroom (Semantic)
Tier 3: App-Specific (manual)"));
   "/* === Tier 1: Warehouses (Primitives) === */";
   "@import " +:+ JS.dq +:+ "./" +:+ paletteSubdir +:+ "/palettes.css" +:+ JS.dq +:+ ";"].

Definition index_import (openpropsSubdir name : string) : string :=
  "@import " +:+ JS.dq +:+ "./" +:+ openpropsSubdir +:+ "/"
    +:+ name +:+ ".css" +:+ JS.dq +:+ ";".

Definition index_closing : list string :=
  [""; "/* === Tier 2: Showroom (Semantic) === */";
   "@import " +:+ JS.dq +:+ "./semantic.css" +:+ JS.dq +:+ ";";
   ""; "/* === Tier 3: App-Specific === */";
   "@import " +:+ JS.dq +:+ "./app.css" +:+ JS.dq +:+ ";";
   ""].

(** X7: the order in which the configuration lists the Open Props files
    does not reach index.css.  The text of [generateIndexCSS] is its
    opening lines, then one import line per listed name, the names in
    ascending order by code unit and each as often as it is listed, then
    its closing lines; so two lists with the same names, in any order,
    give the same text. *)
Theorem generateIndexCSS_order (now : string) (files1 files2 : list string)
    (prefixes : Prefixes) (paletteSubdir openpropsSubdir : string) :
  Permutation files1 files2 ->
  exists sortedFiles,
    generateIndexCSS now files1 prefixes paletteSubdir openpropsSubdir
    = JS.join JS.nl (index_opening now prefixes paletteSubdir
                     ++ map (index_import openpropsSubdir) sortedFiles
                     ++ index_closing)
    /\ generateIndexCSS now files2 prefixes paletteSubdir openpropsSubdir
       = generateIndexCSS now files1 prefixes paletteSubdir openpropsSubdir
    /\ StronglySorted (fun a b => String.leb a b = true) sortedFiles
    /\ Permutation sortedFiles files1.
Proof.
  intros P. exists (sort_strings files1). split; [|split; [|split]].
  - reflexivity.
  - unfold generateIndexCSS. now rewrite (sort_strings_invariant files1 files2 P).
  - rewrite sort_strings_isort. apply isort_sorted.
    + apply String.leb_total.
    + intros x y z. apply string_leb_trans.
  - rewrite sort_strings_isort. apply isort_perm.
Qed.

Lemma generateIndexCSS_order_witness :
  exists sortedFiles,
    generateIndexCSS "2024-01-02T03:04:05.000Z" ["sizes"; "fonts"]
      (prefixes DEFAULT_CONFIG) "material" "open-props"
    = JS.join JS.nl (index_opening "2024-01-02T03:04:05.000Z" (prefixes DEFAULT_CONFIG)
                       "material"
                     ++ map (index_import "open-props") sortedFiles
                     ++ index_closing)
    /\ generateIndexCSS "2024-01-02T03:04:05.000Z" ["fonts"; "sizes"]
         (prefixes DEFAULT_CONFIG) "material" "open-props"
       = generateIndexCSS "2024-01-02T03:04:05.000Z" ["sizes"; "fonts"]
           (prefixes DEFAULT_CONFIG) "material" "open-props"
    /\ StronglySorted (fun a b => String.leb a b = true) sortedFiles
    /\ Permutation sortedFiles ["sizes"; "fonts"].
Proof.
  apply generateIndexCSS_order. apply perm_swap.
Defined.

Example generateIndexCSS_imports :
  generateIndexCSS "2024-01-02T03:04:05.000Z" ["sizes"; "fonts"; "sizes"]
    (prefixes DEFAULT_CONFIG) "material" "open-props"
  = JS.join JS.nl (index_opening "2024-01-02T03:04:05.000Z" (prefixes DEFAULT_CONFIG)
                     "material"
                   ++ map (index_import "open-props") ["fonts"; "sizes"; "sizes"]
                   ++ index_closing).
Proof. reflexivity. Qed.

Section KeyOrder.

Variable host : Host.

(** What the key sort needs of [localeCompare]: any two names compare one
    way or the other, and the comparison is transitive. *)
Hypothesis locale_total : forall a b,
  (localeCompare host a b <= 0)%Z \/ (localeCompare host b a <= 0)%Z.
Hypothesis locale_trans : forall a b c,
  (localeCompare host a b <= 0)%Z -> (localeCompare host b c <= 0)%Z ->
  (localeCompare host a c <= 0)%Z.

Lemma indexOf_range l x :
  forall i, (0 <= i)%Z ->
    indexOf l x i = (-1)%Z \/ (i <= indexOf l x i)%Z.
Proof.
  induction l as [|y l IH]; intros i Hi; simpl; [now left|].
  destruct (String.eqb y x); [right; lia|].
  destruct (IH (i + 1)%Z ltac:(lia)) as [H|H]; [now left | right; lia].
Qed.

Lemma indexOf_not_in l x : forall i, ~ In x l -> indexOf l x i = (-1)%Z.
Proof.
  induction l as [|y l IH]; intros i H; [reflexivity|]. simpl.
  destruct (String.eqb_spec y x) as [->|_]; [exfalso; apply H; now left|].
  apply IH. intros Hin. apply H. now right.
Qed.

Lemma indexOf_in l x : forall i, (0 <= i)%Z -> In x l -> indexOf l x i <> (-1)%Z.
Proof.
  induction l as [|y l IH]; intros i Hi H; [destruct H|]. simpl.
  destruct (String.eqb_spec y x) as [->|Hne]; [lia|].
  destruct H as [H|H]; [contradiction|]. apply IH; [lia | assumption].
Qed.

Definition key_le (a b : string) : bool := (key_compare host a b <=? 0)%Z.

Lemma key_compare_cases a b :
  let ia := indexOf KEY_ORDER a 0 in
  let ib := indexOf KEY_ORDER b 0 in
  (ia <> (-1)%Z /\ ib <> (-1)%Z /\ key_compare host a b = (ia - ib)%Z)
  \/ (ia <> (-1)%Z /\ ib = (-1)%Z /\ key_compare host a b = (-1)%Z)
  \/ (ia = (-1)%Z /\ ib <> (-1)%Z /\ key_compare host a b = 1%Z)
  \/ (ia = (-1)%Z /\ ib = (-1)%Z /\ key_compare host a b = localeCompare host a b).
Proof.
  intros ia ib. unfold key_compare. fold ia ib.
  destruct (Z.eqb_spec ia (-1)), (Z.eqb_spec ib (-1)); simpl; tauto.
Qed.

Lemma key_le_total a b : key_le a b = true \/ key_le b a = true.
Proof.
  unfold key_le. rewrite !Z.leb_le.
  destruct (key_compare_cases a b) as [H|[H|[H|H]]],
           (key_compare_cases b a) as [H'|[H'|[H'|H']]];
    try lia.
  destruct H as (_ & _ & ->), H' as (_ & _ & ->). apply locale_total.
Qed.

Lemma key_le_trans a b c : key_le a b = true -> key_le b c = true -> key_le a c = true.
Proof.
  unfold key_le. rewrite !Z.leb_le.
  destruct (key_compare_cases a b) as [H|[H|[H|H]]],
           (key_compare_cases b c) as [H1|[H1|[H1|H1]]],
           (key_compare_cases a c) as [H2|[H2|[H2|H2]]];
    try lia.
  destruct H as (_ & _ & ->), H1 as (_ & _ & ->), H2 as (_ & _ & ->).
  apply locale_trans.
Qed.

Lemma insert_by_ins x l : insert_by (key_compare host) x l = ins string key_le x l.
Proof. induction l as [|y l IH]; [reflexivity|]. simpl. now rewrite IH. Qed.

Lemma sort_by_isort l : sort_by (key_compare host) l = isort string key_le l.
Proof.
  induction l as [|x l IH]; [reflexivity|].
  unfold sort_by, isort in *. simpl. now rewrite IH, insert_by_ins.
Qed.

(** The line of one token of a category. *)
Definition token_line (prefixes : Prefixes) (category : string)
    (tokens : gmap string string) (key : string) : string :=
  "    " +:+ ("--" +:+ semantic prefixes +:+ "-" +:+ category +:+ "-" +:+ key)
  +:+ ": " +:+ formatSemanticValue (default "" (tokens !! key)) (primitives prefixes)
  +:+ ";".

Lemma category_tokens_sorted (sem : SemanticConfig) (prefixes : Prefixes)
    (category displayName : string) (tokens : gmap string string) :
  sem !! category = Some tokens ->
  keys tokens <> [] ->
  exists sortedKeys,
    category_tokens host sem prefixes (category, displayName)
    = [""; "    /* " +:+ displayName +:+ " */"]
      ++ map (token_line prefixes category tokens) sortedKeys
    /\ Permutation sortedKeys (keys tokens)
    /\ StronglySorted (fun a b => (key_compare host a b <= 0)%Z) sortedKeys
    /\ (forall a b, In a KEY_ORDER -> ~ In b KEY_ORDER ->
                    (key_compare host a b < 0)%Z /\ (key_compare host b a > 0)%Z).
Proof.
  intros Hsem Hk. exists (sort_by (key_compare host) (keys tokens)).
  split; [|split; [|split]].
  - unfold category_tokens. cbn [fst snd]. rewrite Hsem.
    destruct (keys tokens) eqn:E; [now contradict Hk|]. reflexivity.
  - rewrite sort_by_isort. apply isort_perm.
  - rewrite sort_by_isort.
    pose proof (isort_sorted string key_le key_le_total key_le_trans (keys tokens)) as S.
    induction S as [|x l S IH F]; constructor; [assumption|].
    rewrite List.Forall_forall in *. intros y Hy. apply Z.leb_le. now apply F.
  - intros a b Ha Hb.
    pose proof (indexOf_in KEY_ORDER a 0 ltac:(lia) Ha) as Hia.
    pose proof (indexOf_not_in KEY_ORDER b 0 Hb) as Hib.
    destruct (key_compare_cases a b) as [H|[H|[H|H]]],
             (key_compare_cases b a) as [H'|[H'|[H'|H']]]; lia.
Qed.

End KeyOrder.

(** X8: inside a category of the semantic file the tokens stand in one
    fixed order.  For each listed category that the configuration fills,
    the text [generateSemanticCSS] returns holds an empty line, the
    comment line of the category and then one line per key, the keys
    none, xs, sm, md, base, lg, xl, 2xl, 3xl and full first, in this
    order, and the other keys after them as [localeCompare] orders
    them. *)
Theorem generateSemanticCSS_key_order (lib : Culori) (host : Host) (now : string)
    (lightScheme darkScheme : SchemeColors) (sem : SemanticConfig)
    (prefixes : Prefixes) (format : ColorFormat) (seedHue : Q) (text : string)
    (category displayName : string) (tokens : gmap string string) :
  (forall a b, (localeCompare host a b <= 0)%Z \/ (localeCompare host b a <= 0)%Z) ->
  (forall a b c, (localeCompare host a b <= 0)%Z -> (localeCompare host b c <= 0)%Z ->
                 (localeCompare host a c <= 0)%Z) ->
  generateSemanticCSS lib host now lightScheme darkScheme sem prefixes format seedHue
  = Ok text ->
  In (category, displayName) SEMANTIC_CATEGORIES ->
  sem !! category = Some tokens ->
  keys tokens <> [] ->
  exists (before after sortedKeys : list string),
    text = JS.join JS.nl
             (before
              ++ [""; "    /* " +:+ displayName +:+ " */"]
              ++ map (token_line prefixes category tokens) sortedKeys
              ++ after)
    /\ Permutation sortedKeys (keys tokens)
    /\ StronglySorted (fun a b => (key_compare host a b <= 0)%Z) sortedKeys
    /\ (forall a b, In a KEY_ORDER -> ~ In b KEY_ORDER ->
                    (key_compare host a b < 0)%Z /\ (key_compare host b a > 0)%Z).
Proof.
  intros Ht Htr Htext Hin Hsem Hk.
  destruct (category_tokens_sorted host Ht Htr sem prefixes category displayName tokens
              Hsem Hk) as (sortedKeys & Hblock & Hperm & Hsorted & Horder).
  rewrite generateSemanticCSS_lines in Htext.
  destruct (color_tokens _ _ _ _ _ _ _ _) as [lines|e]; [|discriminate].
  cbn [rbind] in Htext. injection Htext as <-.
  apply in_split in Hin as (pre & post & Hsplit).
  exists (lines
          ++ [""; "    /* Shadow Color (for atomic shadows) */";
              "    --" +:+ semantic prefixes
                +:+ "-color-shadow: light-dark(oklch(0 0 0 / 0.1), oklch(0 0 0 / 0.6));"]
          ++ [""; "    /* Shadow Hue (derived from seed color) */";
              "    --" +:+ semantic prefixes +:+ "-shadow-hue: "
                +:+ JS.intToString (JS.round seedHue) +:+ ";"]
          ++ concat (map (category_tokens host sem prefixes) pre)).
  exists (concat (map (category_tokens host sem prefixes) post)
          ++ ["  }"; "";
              "  /* Theme Toggles */";
              "  :root[data-theme=" +:+ JS.dq +:+ "light" +:+ JS.dq
                +:+ "] { color-scheme: light; }";
              "  :root[data-theme=" +:+ JS.dq +:+ "dark" +:+ JS.dq
                +:+ "] { color-scheme: dark; }";
              "}"; ""]).
  exists sortedKeys.
  split; [|split; [exact Hperm | split; [exact Hsorted | exact Horder]]].
  unfold semantic_closing. rewrite Hsplit, map_app, concat_app.
  cbn [map concat]. rewrite Hblock. f_equal.
  repeat rewrite <- app_assoc. reflexivity.
Qed.

Lemma fixture_locale_le a b :
  (localeCompare Fixture.host a b <= 0)%Z <-> String.leb a b = true.
Proof.
  unfold String.leb. simpl. destruct (String.compare a b); split; intros H; try lia; easy.
Qed.

Definition spacing_tokens : gmap string string :=
  tokens_of [("xs", "size-2"); ("sm", "size-3"); ("md", "size-4");
             ("lg", "size-5"); ("xl", "size-6"); ("2xl", "size-7")].

(** The semantic file of the default configuration for schemes without
    colours. *)
Definition plain_semantic_text : string :=
  match generateSemanticCSS Fixture.culori Fixture.host "2024-01-02T03:04:05.000Z"
          ∅ ∅ DEFAULT_SEMANTIC (prefixes DEFAULT_CONFIG) oklch 250%Q with
  | Ok text => text
  | Err _ => ""
  end.

Lemma generateSemanticCSS_key_order_witness :
  exists (before after sortedKeys : list string),
    plain_semantic_text
    = JS.join JS.nl
        (before
         ++ [""; "    /* " +:+ "Spacing Scale" +:+ " */"]
         ++ map (token_line (prefixes DEFAULT_CONFIG) "space" spacing_tokens) sortedKeys
         ++ after)
    /\ Permutation sortedKeys (keys spacing_tokens)
    /\ StronglySorted (fun a b => (key_compare Fixture.host a b <= 0)%Z) sortedKeys
    /\ (forall a b, In a KEY_ORDER -> ~ In b KEY_ORDER ->
                    (key_compare Fixture.host a b < 0)%Z
                    /\ (key_compare Fixture.host b a > 0)%Z).
Proof.
  apply (generateSemanticCSS_key_order Fixture.culori Fixture.host
           "2024-01-02T03:04:05.000Z" ∅ ∅ DEFAULT_SEMANTIC (prefixes DEFAULT_CONFIG)
           oklch 250%Q plain_semantic_text "space" "Spacing Scale" spacing_tokens).
  - intros a b. rewrite !fixture_locale_le. apply String.leb_total.
  - intros a b c. rewrite !fixture_locale_le. apply string_leb_trans.
  - vm_compute. reflexivity.
  - unfold SEMANTIC_CATEGORIES. left. reflexivity.
  - reflexivity.
  - vm_compute. discriminate.
Defined.

Example category_tokens_space :
  category_tokens Fixture.host DEFAULT_SEMANTIC (prefixes DEFAULT_CONFIG)
    ("space", "Spacing Scale")
  = [""; "    /* Spacing Scale */";
     "    --ui-space-xs: var(--op-size-2);";
     "    --ui-space-sm: var(--op-size-3);";
     "    --ui-space-md: var(--op-size-4);";
     "    --ui-space-lg: var(--op-size-5);";
     "    --ui-space-xl: var(--op-size-6);";
     "    --ui-space-2xl: var(--op-size-7);"].
Proof. vm_compute. reflexivity. Qed.

(* ===================================================================== *)
(** * Fetching the Open Props files                                        *)
(* ===================================================================== *)

Section Fetching.

Variable host : Host.
Variable baseUrl : string.

(** The address [fetchOpenProps] requests for a name, when the name
    passes its lookup. *)
Definition request_url (fileName : string) : option string :=
  let sourcePath := object_get OPENPROPS_SOURCE_FILES fileName in
  if falsy sourcePath then None
  else Some (baseUrl +:+ "/"
             +:+ match sourcePath with
                 | Some v => value_text (native_text host) v
                 | None => "undefined"
                 end).

Definition requested (fileNames : list string) : list string :=
  flat_map (fun name => match request_url name with
                        | Some url => [url]
                        | None => []
                        end) fileNames.

Lemma fetchOpenProps_requests name reqs :
  fst (fetchOpenProps host baseUrl name reqs) = reqs ++ requested [name].
Proof.
  unfold fetchOpenProps, requested, request_url. cbn [flat_map].
  destruct (falsy (object_get OPENPROPS_SOURCE_FILES name)).
  - cbn [fst app]. now rewrite app_nil_r.
  - rewrite app_nil_r. destruct (net_fetch host _) as [response|]; [|reflexivity].
    destruct (negb (resp_ok response)); reflexivity.
Qed.

(** What a fetch answers does not depend on the requests sent before. *)
Lemma fetchOpenProps_answer name reqs :
  snd (fetchOpenProps host baseUrl name reqs) = snd (fetchOpenProps host baseUrl name []).
Proof.
  unfold fetchOpenProps.
  destruct (falsy (object_get OPENPROPS_SOURCE_FILES name)); [reflexivity|].
  destruct (net_fetch host _) as [response|]; [|reflexivity].
  destruct (negb (resp_ok response)); reflexivity.
Qed.

Lemma fetch_each_requests names :
  forall reqs, fst (fetch_each host baseUrl names reqs) = reqs ++ requested names.
Proof.
  induction names as [|n names IH]; intros reqs; simpl.
  - now rewrite app_nil_r.
  - destruct (fetchOpenProps host baseUrl n reqs) as [reqs1 answer] eqn:E1.
    pose proof (fetchOpenProps_requests n reqs) as R1. rewrite E1 in R1. simpl in R1.
    destruct (fetch_each host baseUrl names reqs1) as [reqs2 others] eqn:E2.
    pose proof (IH reqs1) as R2. rewrite E2 in R2. simpl in R2. simpl.
    subst reqs1 reqs2. unfold requested. simpl. rewrite app_nil_r.
    now rewrite <- app_assoc.
Qed.

Lemma fetch_each_answers names :
  forall reqs,
    snd (fetch_each host baseUrl names reqs)
    = map (fun name => (name, snd (fetchOpenProps host baseUrl name []))) names.
Proof.
  induction names as [|n names IH]; intros reqs; simpl; [reflexivity|].
  destruct (fetchOpenProps host baseUrl n reqs) as [reqs1 answer] eqn:E1.
  pose proof (fetchOpenProps_answer n reqs) as R1. rewrite E1 in R1. simpl in R1.
  destruct (fetch_each host baseUrl names reqs1) as [reqs2 others] eqn:E2.
  pose proof (IH reqs1) as R2. rewrite E2 in R2. simpl in R2. simpl.
  now subst.
Qed.

End Fetching.

(** X9: [fetchAllOpenProps] starts a request for every name that passes
    the lookup of [fetchOpenProps], in the order of the names and each to
    the base address followed by the path of the file, whether or not
    another name fails: the requests sent are the same when the call
    fails as when it succeeds. *)
Theorem fetchAllOpenProps_requests (host : Host) (clock : nat -> string)
    (baseUrl : string) (fileNames : list string) (prefix : string) (seedHue : Q)
    (reqs : Requests) :
  fst (fetchAllOpenProps host clock baseUrl fileNames prefix seedHue reqs)
  = reqs ++ requested host baseUrl fileNames.
Proof.
  unfold fetchAllOpenProps.
  pose proof (fetch_each_requests host baseUrl fileNames reqs) as R.
  destruct (fetch_each host baseUrl fileNames reqs) as [reqs1 started]. exact R.
Qed.

Example requested_default :
  requested Fixture.host "https://cdn" ["fonts"; "nonexistent"; "easings"]
  = ["https://cdn/props.fonts.css"; "https://cdn/props.easing.css"].
Proof. vm_compute. reflexivity. Qed.

Section FetchedNames.

Variable host : Host.
Variable clock : nat -> string.
Variable baseUrl prefix : string.
Variable seedHue : Q.

Definition fetched (name : string) : result string :=
  snd (fetchOpenProps host baseUrl name []).

Definition rendered : nat * (string * result string) -> result (string * string) :=
  fun '(i, (name, answer)) =>
    let* text := answer in
    Ok (name, generateOpenPropsCSS (clock i) name text prefix seedHue).

Lemma rendered_all (started : list (string * result string)) :
  forall k,
    match rmap rendered (imap (fun j y => (k + j, y)) started) with
    | Ok files => forallb (fun p => is_ok (snd p)) started = true
                  /\ map fst files = map fst started
    | Err _ => forallb (fun p => is_ok (snd p)) started = false
    end.
Proof.
  induction started as [|[name answer] started IH]; intros k; simpl.
  - now split.
  - destruct answer as [text|e]; simpl; [|reflexivity].
    specialize (IH (S k)).
    rewrite (imap_ext _ (fun j y => (S k + j, y)) started)
      by (intros j y _; simpl; f_equal; lia).
    destruct (rmap rendered _) as [files|e]; simpl.
    + destruct IH as [IH1 IH2]. split; [assumption | now f_equal].
    + assumption.
Qed.

Lemma map_set_names (n c : string) (m : list (string * string)) :
  forall k, In k (map fst (map_set n c m)) <-> k = n \/ In k (map fst m).
Proof.
  intros k. induction m as [|[k0 v0] m IH]; simpl.
  - intuition congruence.
  - destruct (String.eqb_spec k0 n) as [->|Hne]; simpl.
    + intuition congruence.
    + rewrite IH. intuition congruence.
Qed.

Lemma results_names (files : list (string * string)) :
  forall acc k,
    In k (map fst (fold_left (fun results '(name, css) => map_set name css results)
                             files acc))
    <-> In k (map fst files) \/ In k (map fst acc).
Proof.
  induction files as [|[n c] files IH]; intros acc k; simpl.
  - tauto.
  - rewrite IH, map_set_names. intuition congruence.
Qed.

Lemma started_names (names : list string) (reqs : Requests) :
  map fst (snd (fetch_each host baseUrl names reqs)) = names.
Proof.
  rewrite fetch_each_answers, map_map. simpl. apply map_id.
Qed.

Lemma started_ok (names : list string) (reqs : Requests) :
  forallb (fun p => is_ok (snd p)) (snd (fetch_each host baseUrl names reqs))
  = forallb (fun name => is_ok (fetched name)) names.
Proof.
  rewrite fetch_each_answers. induction names as [|n names IH]; simpl; [reflexivity|].
  now rewrite IH.
Qed.

End FetchedNames.

(** The names of the files [fetchAllOpenProps] returns are the listed
    names. *)
Lemma fetchAllOpenProps_keys (host : Host) (clock : nat -> string)
    (baseUrl : string) (fileNames : list string) (prefix : string) (seedHue : Q)
    (reqs : Requests) (openPropsFiles : list (string * string)) :
  snd (fetchAllOpenProps host clock baseUrl fileNames prefix seedHue reqs)
  = Ok openPropsFiles ->
  forall name, In name (map fst openPropsFiles) <-> In name fileNames.
Proof.
  unfold fetchAllOpenProps.
  pose proof (started_names host baseUrl fileNames reqs) as Hs.
  destruct (fetch_each host baseUrl fileNames reqs) as [reqs1 started]. simpl in *.
  pose proof (rendered_all clock prefix seedHue started 0) as Hr.
  unfold rendered in Hr. simpl in Hr.
  destruct (rmap _ _) as [files|e]; simpl; [|discriminate].
  intros H. injection H as <-. destruct Hr as [_ Hr].
  intros name. rewrite results_names, Hr, Hs. simpl. tauto.
Qed.

(** X10: [fetchAllOpenProps] succeeds exactly when the fetch of every
    listed name succeeds: one unknown name, one request that fails or one
    response that is not ok makes the whole call fail, and nothing else
    does (the transformation of a fetched text never fails). *)
Theorem fetchAllOpenProps_succeeds (host : Host) (clock : nat -> string)
    (baseUrl : string) (fileNames : list string) (prefix : string) (seedHue : Q)
    (reqs : Requests) :
  is_ok (snd (fetchAllOpenProps host clock baseUrl fileNames prefix seedHue reqs))
  = forallb (fun name => is_ok (fetched host baseUrl name)) fileNames.
Proof.
  unfold fetchAllOpenProps.
  pose proof (started_ok host baseUrl fileNames reqs) as Hs.
  destruct (fetch_each host baseUrl fileNames reqs) as [reqs1 started]. simpl in *.
  pose proof (rendered_all clock prefix seedHue started 0) as Hr.
  unfold rendered in Hr. simpl in Hr.
  destruct (rmap _ _) as [files|e]; simpl.
  - destruct Hr as [Hr _]. now rewrite <- Hs, Hr.
  - now rewrite <- Hs, Hr.
Qed.

(** X11: when [fetchAllOpenProps] succeeds, the map it returns has an
    entry for every listed name and for no other, and one entry only for
    a name that is listed more than once. *)
Theorem fetchAllOpenProps_names (host : Host) (clock : nat -> string)
    (baseUrl : string) (fileNames : list string) (prefix : string) (seedHue : Q)
    (reqs : Requests) (openPropsFiles : list (string * string)) :
  snd (fetchAllOpenProps host clock baseUrl fileNames prefix seedHue reqs)
  = Ok openPropsFiles ->
  List.NoDup (map fst openPropsFiles)
  /\ (forall name, In name (map fst openPropsFiles) <-> In name fileNames)
  /\ length openPropsFiles <= length fileNames.
Proof.
  intros H. pose proof (fetchAllOpenProps_keys _ _ _ _ _ _ _ _ H) as Hin.
  assert (Hnd : List.NoDup (map fst openPropsFiles)).
  { revert H. unfold fetchAllOpenProps.
    destruct (fetch_each host baseUrl fileNames reqs) as [reqs1 started]. simpl.
    destruct (rmap _ _) as [files|e]; simpl; [|discriminate].
    intros [= <-]. apply results_map. constructor. }
  split; [exact Hnd|]. split; [exact Hin|].
  pose proof (List.NoDup_incl_length Hnd (l' := fileNames)) as Hlen.
  rewrite length_map in Hlen. apply Hlen.
  intros name Hn. now apply Hin.
Qed.

Definition fixture_names : list string := ["sizes"; "fonts"; "sizes"].

Definition fixture_files : list (string * string) :=
  match snd (fetchAllOpenProps Fixture.host Fixture.clock "https://cdn"
               fixture_names "op" 250%Q []) with
  | Ok files => files
  | Err _ => []
  end.

Lemma fetchAllOpenProps_names_witness :
  List.NoDup (map fst fixture_files)
  /\ (forall name, In name (map fst fixture_files) <-> In name fixture_names)
  /\ length fixture_files <= length fixture_names.
Proof.
  apply (fetchAllOpenProps_names Fixture.host Fixture.clock "https://cdn"
           fixture_names "op" 250%Q []).
  vm_compute. reflexivity.
Defined.

Example fixture_files_names : map fst fixture_files = ["sizes"; "fonts"].
Proof. vm_compute. reflexivity. Qed.

(* ===================================================================== *)
(** * What a run of [generateTokens] touches                               *)
(* ===================================================================== *)

(** The paths a run writes before it renders semantic.css: palettes.css
    and one file for each listed Open Props name. *)
Definition early_targets (env : Env) (options : TokenGeneratorOptions) : list string :=
  let config := resolveConfig options in
  let join := path_join (env_host env) in
  let outputDir := dir (output config) in
  join (join outputDir (paletteSubdir (output config))) "palettes.css"
  :: map (fun name => join (join outputDir (openpropsSubdir (output config)))
                           (name +:+ ".css"))
         (files (openprops config)).

(** The paths it writes after that. *)
Definition late_targets (env : Env) (options : TokenGeneratorOptions) : list string :=
  let config := resolveConfig options in
  let join := path_join (env_host env) in
  let outputDir := dir (output config) in
  [join outputDir "semantic.css"; join outputDir "index.css"; appPath env config].

Definition targets (env : Env) (options : TokenGeneratorOptions) : list string :=
  early_targets env options ++ late_targets env options.

Definition apart (path : string) (paths : list string) : bool :=
  forallb (fun target => negb (String.eqb target path)) paths.

Lemma apart_In (path : string) (paths : list string) :
  apart path paths = true -> forall target, In target paths -> target <> path.
Proof.
  unfold apart. rewrite forallb_forall. intros H target Hin E.
  specialize (H target Hin). apply negb_true_iff in H.
  now apply String.eqb_neq in H.
Qed.

Lemma apart_app (path : string) (l1 l2 : list string) :
  apart path (l1 ++ l2) = apart path l1 && apart path l2.
Proof. apply forallb_app. Qed.

Section Touched.

Variable env : Env.
Variable options : TokenGeneratorOptions.

Lemma scaffoldApp_other (config : TokenConfig) (w : World) (path : string) :
  path <> appPath env config ->
  fs (scaffoldApp env config w).1 !! path = fs w !! path.
Proof.
  intros Hp. rewrite scaffoldApp_cases.
  destruct (bool_decide _ || bool_decide _); [reflexivity|].
  destruct (writeFile_cases (env_host env) (appPath env config) generateAppCSS w)
    as [[e E]|[(_ & remains & e & E)|[_ E]]]; rewrite E; [reflexivity| |];
    cbn [fst fs]; apply lookup_insert_ne; now apply not_eq_sym.
Qed.

(** A rejection that leaves the file as it was. *)
Definition clean_rejection (v : Verdict) : bool :=
  match v with
  | Broken _ => false
  | _ => true
  end.

(** A failing scaffold step writes nothing, unless the write of app.css
    itself breaks on the way. *)
Lemma scaffoldApp_fails (config : TokenConfig) (w : World) :
  clean_rejection (fs_write (env_host env) (appPath env config) generateAppCSS) = true ->
  is_ok (scaffoldApp env config w).2 = false -> (scaffoldApp env config w).1 = w.
Proof.
  intros Hc. rewrite scaffoldApp_cases.
  destruct (bool_decide _ || bool_decide _); [discriminate|].
  unfold writeFile. destruct (bool_decide _); [reflexivity|].
  destruct (fs_write _ _ _); [discriminate | reflexivity | discriminate].
Qed.

(** The paths a run writes before the scaffold step. *)
Definition regenerated_targets : list string :=
  early_targets env options
  ++ [path_join (env_host env) (dir (output (resolveConfig options))) "semantic.css";
      path_join (env_host env) (dir (output (resolveConfig options))) "index.css"].

(** Up to the scaffold step a run leaves alone every path that is none
    of the files it regenerates. *)
Lemma generateTokens_regenerates (w : World) (path : string) :
  apart path regenerated_targets = true ->
  reaches env options (fun a b => fs b !! path = fs a !! path) w
    (generateTokens env options w).
Proof.
  intros Hp. pose proof (apart_In _ _ Hp) as Hne.
  unfold regenerated_targets, early_targets in Hne. cbv zeta in Hne.
  assert (Hw : forall p, p <> path ->
             writable (fun a b : World => fs b !! path = fs a !! path) p).
  { intros p Hpp a data _. cbn [fs]. now apply lookup_insert_ne. }
  apply generateTokens_steps
    with (fetched_name := fun name => In name (files (openprops (resolveConfig options)))).
  - reflexivity.
  - intros a b c Hab Hbc. now rewrite Hbc, Hab.
  - reflexivity.
  - reflexivity.
  - intros seedHue reqs reqs' openPropsFiles E name css Hin.
    apply (fetchAllOpenProps_keys _ _ _ _ _ _ _ openPropsFiles (f_equal snd E)).
    apply in_map_iff. now exists (name, css).
  - apply Hw, Hne. now left.
  - intros name Hn. apply Hw, Hne. right. apply in_or_app. left.
    apply in_map_iff. now exists name.
  - apply Hw, Hne. right. apply in_or_app. right. now left.
  - apply Hw, Hne. right. apply in_or_app. right. right. now left.
Qed.

End Touched.


Definition kept_world : World :=
  {| fs := {[ "out/notes.md" := "keep me" ]}; dirs := {[ "out" ]}; requests := [] |}.



(** Options that list a name [fetchOpenProps] does not know. *)
Definition unknown_file_options : TokenGeneratorOptions :=
  {| opt_seed := "#769CDF"; opt_output := Some "out"; opt_format := None;
     opt_scheme := None;
     opt_config :=
       Some {| u_format := None; u_prefixes := None; u_output := None;
               u_openprops := Some {| u_baseUrl := None;
                                      u_files := Some ["sizes"; "nonexistent"] |};
               u_semanticTokens := None |} |}.

(** Options that make index.css the directory of the Open Props files:
    the write of index.css is rejected. *)
Definition index_directory_options : TokenGeneratorOptions :=
  {| opt_seed := "#769CDF"; opt_output := Some "out"; opt_format := None;
     opt_scheme := None;
     opt_config :=
       Some {| u_format := None; u_prefixes := None;
               u_output := Some {| u_dir := None; u_paletteSubdir := None;
                                   u_openpropsSubdir := Some "index.css" |};
               u_openprops := None; u_semanticTokens := None |} |}.


(** A run that fails at the fetch has written palettes.css and asked for
    the one file it knows; a run whose write of index.css is rejected has
    written semantic.css before. *)
Example failed_run_writes_palettes :
  is_Some (fs (fst (generateTokens Fixture.env unknown_file_options Fixture.empty_world))
             !! "out/material/palettes.css")
  /\ requests (fst (generateTokens Fixture.env unknown_file_options Fixture.empty_world))
     = ["https://raw.githubusercontent.com/argyleink/open-props/main/src/props.sizes.css"]
  /\ is_Some (fs (fst (generateTokens Fixture.env index_directory_options
                         Fixture.empty_world)) !! "out/semantic.css")
  /\ fs (fst (generateTokens Fixture.env index_directory_options Fixture.empty_world))
       !! "out/index.css" = None.
Proof.
  split; [vm_compute; eauto|]. split; [vm_compute; reflexivity|].
  split; [vm_compute; eauto | vm_compute; reflexivity].
Qed.

(** X14: a run of [generateTokens] deletes nothing: a path that held a
    file before the run holds one after it, whether the run completes or
    fails. *)
Theorem generateTokens_never_deletes (env : Env) (options : TokenGeneratorOptions)
    (w : World) (path : string) :
  is_Some (fs w !! path) ->
  is_Some (fs (fst (generateTokens env options w)) !! path).
Proof.
  intros H.
  assert (Hw : forall p, writable (fun a b : World =>
                                     is_Some (fs a !! path) -> is_Some (fs b !! path)) p).
  { intros p a data _ Ha. cbn [fs]. apply lookup_insert_is_Some'. now right. }
  destruct (generateTokens_steps env options
              (fun a b => is_Some (fs a !! path) -> is_Some (fs b !! path))
              (fun a Ha => Ha) (fun a b c Hab Hbc Ha => Hbc (Hab Ha))
              (fun a d Ha => Ha) (fun a reqs Ha => Ha)
              (fun _ => True) (fun _ _ _ _ _ _ _ _ => I)
              (Hw _) (fun name _ => Hw _) (Hw _) (Hw _) w) as (w8 & H8 & [[e E]|E]);
    rewrite E.
  - exact (H8 H).
  - rewrite scaffoldApp_cases.
    destruct (bool_decide _ || bool_decide _); [exact (H8 H)|].
    destruct (writeFile_cases (env_host env) (appPath env (resolveConfig options))
                generateAppCSS w8) as [[e E']|[(_ & remains & e & E')|[_ E']]];
      rewrite E'; [exact (H8 H)| |];
      cbn [fst fs]; apply lookup_insert_is_Some'; right; exact (H8 H).
Qed.

Lemma generateTokens_never_deletes_witness :
  is_Some (fs (fst (generateTokens Fixture.env unknown_file_options kept_world))
             !! "out/notes.md").
Proof.
  apply (generateTokens_never_deletes Fixture.env unknown_file_options kept_world
           "out/notes.md").
  vm_compute. eauto.
Defined.

Section Created.

Variable host : Host.

Lemma write_files_keeps (directory : string) (l : list (string * string)) :
  forall (m : gmap string string) (path : string),
    is_Some (m !! path) -> is_Some (write_files host directory l m !! path).
Proof.
  induction l as [|[n c] l IH]; intros m path H; [exact H|].
  rewrite write_files_cons. apply IH. apply lookup_insert_is_Some'. now right.
Qed.

Lemma write_files_written (directory : string) (l : list (string * string)) :
  forall (m : gmap string string) (name : string),
    In name (map fst l) ->
    is_Some (write_files host directory l m
               !! path_join host directory (name +:+ ".css")).
Proof.
  induction l as [|[n c] l IH]; intros m name H; [destruct H|].
  rewrite write_files_cons. destruct H as [<-|H].
  - apply write_files_keeps. rewrite lookup_insert_eq. eauto.
  - now apply IH.
Qed.

End Created.

(** The fetched files of a rendering have the listed names. *)
Lemma render_names (env : Env) (options : TokenGeneratorOptions) (reqs : Requests)
    (out : Rendered) :
  render env options reqs = Ok out ->
  forall name, In name (files (openprops (resolveConfig options))) ->
               In name (map fst (r_openprops out)).
Proof.
  unfold render. cbv zeta.
  destruct (generateTheme _ _ _ _) as [theme|]; [|discriminate]. cbn [rbind].
  destruct (getHue _ _) as [seedHue|]; [|discriminate]. cbn [rbind].
  destruct (generatePalettesCSS _ _ _ _ _ _) as [palettesCSS|]; [|discriminate].
  cbn [rbind].
  destruct (snd (fetchAllOpenProps _ _ _ _ _ _ _)) as [openPropsFiles|] eqn:Ef;
    [|discriminate].
  cbn [rbind].
  destruct (generateSemanticCSS _ _ _ _ _ _ _ _ _) as [semanticCSS|]; [|discriminate].
  cbn [rbind]. intros [= <-] name Hn. cbn [r_openprops].
  now apply (fetchAllOpenProps_keys _ _ _ _ _ _ _ openPropsFiles Ef).
Qed.

(** X15: after a run of [generateTokens] that completes, every target
    holds a file: palettes.css, one file for each listed Open Props
    name, semantic.css and index.css; the path of app.css holds a file
    too, or else it is a directory, on which [stat] succeeds as well. *)
Theorem generateTokens_creates_targets (env : Env) (options : TokenGeneratorOptions)
    (w : World) (path : string) :
  is_ok (snd (generateTokens env options w)) = true ->
  existsb (String.eqb path) (targets env options) = true ->
  bool_decide (is_Some (fs (fst (generateTokens env options w)) !! path))
  || (String.eqb path (appPath env (resolveConfig options))
      && bool_decide (path ∈ dirs (fst (generateTokens env options w)))) = true.
Proof.
  intros Hok Hin. apply existsb_exists in Hin as (target & Hin & E).
  apply String.eqb_eq in E. subst target.
  destruct (generateTokens env options w) as [w' [[]|e]] eqn:Hrun; [|discriminate].
  cbn [fst snd]. clear Hok.
  destruct (generateTokens_completes env options w w' Hrun)
    as (out & Hr & _ & _ & _ & Hfs).
  cbv zeta in Hfs.
  set (m := regenerated env options (r_palettes out) (r_openprops out)
              (r_semantic out) (r_index out) (fs w)) in *.
  assert (Hm : is_Some (m !! path) -> is_Some (fs w' !! path)).
  { intros Hs. rewrite Hfs. destruct (bool_decide _ || bool_decide _); [exact Hs|].
    apply lookup_insert_is_Some'. now right. }
  assert (Hfile : is_Some (fs w' !! path) ->
            bool_decide (is_Some (fs w' !! path))
            || (String.eqb path (appPath env (resolveConfig options))
                && bool_decide (path ∈ dirs w')) = true).
  { intros Hs. now rewrite (bool_decide_eq_true_2 _ Hs). }
  unfold targets, early_targets, late_targets in Hin. cbv zeta in Hin.
  apply in_app_iff in Hin as [[<-|Hin]|[<-|[<-|[<-|[]]]]].
  - apply Hfile, Hm. unfold m, regenerated. cbv zeta.
    do 2 (apply lookup_insert_is_Some'; right).
    apply write_files_keeps. rewrite lookup_insert_eq. eauto.
  - apply in_map_iff in Hin as (name & <- & Hin).
    apply Hfile, Hm. unfold m, regenerated. cbv zeta.
    do 2 (apply lookup_insert_is_Some'; right).
    apply write_files_written. exact (render_names env options _ out Hr name Hin).
  - apply Hfile, Hm. unfold m, regenerated. cbv zeta.
    apply lookup_insert_is_Some'. right. rewrite lookup_insert_eq. eauto.
  - apply Hfile, Hm. unfold m, regenerated. cbv zeta.
    rewrite lookup_insert_eq. eauto.
  - rewrite String.eqb_refl. cbn [andb].
    rewrite Hfs.
    destruct (bool_decide (is_Some (m !! appPath env (resolveConfig options)))) eqn:E1;
      cbn [orb].
    + now rewrite E1.
    + destruct (bool_decide (appPath env (resolveConfig options) ∈ dirs w')) eqn:E2.
      * apply orb_true_r.
      * rewrite (bool_decide_eq_true_2 (is_Some (<[_ := _]> m !! _)));
          [reflexivity | rewrite lookup_insert_eq; eauto].
Qed.

Lemma generateTokens_creates_targets_witness :
  bool_decide (is_Some (fs (fst (generateTokens Fixture.env Fixture.options
                                   Fixture.empty_world))
                          !! "out/open-props/shadows.css"))
  || (String.eqb "out/open-props/shadows.css"
        (appPath Fixture.env (resolveConfig Fixture.options))
      && bool_decide ("out/open-props/shadows.css"
                      ∈ dirs (fst (generateTokens Fixture.env Fixture.options
                                     Fixture.empty_world)))) = true.
Proof.
  apply (generateTokens_creates_targets Fixture.env Fixture.options Fixture.empty_world
           "out/open-props/shadows.css").
  - vm_compute. reflexivity.
  - vm_compute. reflexivity.
Defined.

(* ===================================================================== *)
(** * The generated theme and its renderers                                *)
(* ===================================================================== *)

Section GeneratedTheme.

Variable eng : Engine.

Lemma scheme_roles_NoDup : NoDup SCHEME_ROLES.
Proof. apply (bool_decide_unpack _). vm_compute. exact I. Qed.

(** A scheme holds, for each listed role, the colour of that role. *)
Lemma extractSchemeColors_role (scheme : SchemeInstance) (k : string) :
  In k SCHEME_ROLES ->
  extractSchemeColors eng scheme !! k = Some (hexFromArgb eng (roleArgb scheme k)).
Proof.
  intros Hk. unfold extractSchemeColors.
  apply elem_of_list_to_map_1.
  - rewrite <- list_fmap_compose.
    rewrite (list_fmap_ext (fst ∘ (fun k0 => (k0, hexFromArgb eng (roleArgb scheme k0)))) id
               SCHEME_ROLES) by reflexivity.
    rewrite list_fmap_id. apply scheme_roles_NoDup.
  - apply list_elem_of_In, in_map_iff. exists k. split; [reflexivity | exact Hk].
Qed.

Lemma extractSchemeColors_other (scheme : SchemeInstance) (k : string) :
  ~ In k SCHEME_ROLES -> extractSchemeColors eng scheme !! k = None.
Proof.
  intros Hk. unfold extractSchemeColors. apply not_elem_of_list_to_map_1.
  rewrite <- list_fmap_compose.
  rewrite (list_fmap_ext (fst ∘ (fun k0 => (k0, hexFromArgb eng (roleArgb scheme k0)))) id
             SCHEME_ROLES) by reflexivity.
  rewrite list_fmap_id. now rewrite list_elem_of_In.
Qed.

Lemma toUpperCase_empty (s : string) : JS.toUpperCase s = "" -> s = "".
Proof. destruct s; [reflexivity | discriminate]. Qed.

Lemma role_keys_listed :
  forallb (fun r => bool_decide (In (schemeKey r) SCHEME_ROLES)) COLOR_ROLE_MAP = true.
Proof. vm_compute. reflexivity. Qed.

Lemma role_truthy (scheme : SchemeInstance) (r : ColorRole) :
  (forall argb, hexFromArgbLower eng argb <> "") ->
  In r COLOR_ROLE_MAP ->
  truthy (extractSchemeColors eng scheme !! schemeKey r) = true.
Proof.
  intros Hne Hr.
  pose proof role_keys_listed as Hk. rewrite forallb_forall in Hk.
  specialize (Hk r Hr). apply bool_decide_eq_true_1 in Hk.
  rewrite (extractSchemeColors_role scheme _ Hk). unfold hexFromArgb.
  destruct (JS.toUpperCase _) eqn:E; [|reflexivity].
  apply toUpperCase_empty in E. now apply Hne in E.
Qed.

End GeneratedTheme.

(** X16: the theme [generateTheme] returns has, in its light and in its
    dark scheme, a colour for every role that [generateSemanticCSS]
    reads: when the engine prints no colour as the empty text, the guard
    of the colour loop skips no role of [COLOR_ROLE_MAP] for a generated
    theme, so all of them are emitted. *)
Theorem generated_theme_has_all_roles (eng : Engine) (now seedHex : string)
    (variant : SchemeVariant) (theme : MaterialTheme) :
  (forall argb, hexFromArgbLower eng argb <> "") ->
  generateTheme eng now seedHex variant = Ok theme ->
  emitted_roles (light (schemes theme)) (dark (schemes theme)) COLOR_ROLE_MAP
  = COLOR_ROLE_MAP.
Proof.
  intros Hne. unfold generateTheme.
  destruct (argbFromHex eng (normalizeSeed seedHex)) as [argb|e]; [|discriminate].
  cbn [rbind]. intros [= <-]. cbn [schemes light dark]. unfold generateSchemes.
  cbn [light dark].
  unfold emitted_roles.
  apply forallb_filter_id, forallb_forall. intros r Hr. unfold both_present.
  now rewrite !role_truthy.
Qed.

Lemma fixture_engine_prints (argb : Z) : hexFromArgbLower Fixture.engine argb <> "".
Proof. discriminate. Qed.

Lemma generated_theme_has_all_roles_witness :
  match generateTheme Fixture.engine "2024-01-02T03:04:05.678Z" "769cdf" tonal_spot with
  | Ok theme =>
      emitted_roles (light (schemes theme)) (dark (schemes theme)) COLOR_ROLE_MAP
      = COLOR_ROLE_MAP
  | Err _ => False
  end.
Proof.
  destruct (generateTheme Fixture.engine "2024-01-02T03:04:05.678Z" "769cdf" tonal_spot)
    as [theme|e] eqn:E.
  - exact (generated_theme_has_all_roles Fixture.engine _ _ _ theme
             fixture_engine_prints E).
  - unfold generateTheme in E.
    destruct (argbFromHex Fixture.engine (normalizeSeed "769cdf")) as [argb|e'] eqn:A.
    + cbn [rbind] in E. discriminate E.
    + vm_compute in A. discriminate A.
Defined.

Section GeneratedPalettes.

Variable eng : Engine.

Lemma inserted_keys {A} (f : Z -> string) (g : Z -> A) (l : list Z) :
  forall (m : gmap string A) (k : string),
    is_Some (fold_left (fun result t => <[f t := g t]> result) l m !! k)
    <-> In k (map f l) \/ is_Some (m !! k).
Proof.
  induction l as [|t l IH]; intros m k; simpl.
  - tauto.
  - rewrite IH. destruct (decide (f t = k)) as [<-|Hne].
    + rewrite lookup_insert_eq. intuition eauto.
    + rewrite lookup_insert_ne by exact Hne. intuition congruence.
Qed.

(** The steps [generatePalettesCSS] reads are the tones
    [extractTonalPalette] writes. *)
Lemma tone_steps_values : map JS.intToString TONE_VALUES = TONE_STEPS.
Proof. vm_compute. reflexivity. Qed.

Lemma extractTonalPalette_steps (palette : TonalPalette) (step : string) :
  is_Some (extractTonalPalette eng palette !! step) <-> In step TONE_STEPS.
Proof.
  unfold extractTonalPalette. rewrite inserted_keys, tone_steps_values.
  rewrite lookup_empty. split; [intros [H|[? H]]; [exact H | discriminate H] | now left].
Qed.

End GeneratedPalettes.

(** X17: the palettes of a generated theme are the five named primary,
    secondary, tertiary, neutral and neutral-variant.  Each is a palette
    that [generatePalettesCSS] renders and holds a colour for exactly the
    eighteen tone steps that the renderer reads; the renderer also lists
    an error palette, which a generated theme never has. *)
Theorem generatePalettes_cover (eng : Engine) (sourceHct : Hct eng)
    (variant : SchemeVariant) (name : string) :
  match generatePalettes eng sourceHct variant !! name with
  | Some tones =>
      In name PALETTE_ORDER /\ name <> "error"
      /\ forall step, is_Some (tones !! step) <-> In step TONE_STEPS
  | None =>
      ~ In name ["primary"; "secondary"; "tertiary"; "neutral"; "neutral-variant"]
  end.
Proof.
  destruct (generatePalettes eng sourceHct variant !! name) as [tones|] eqn:E;
    unfold generatePalettes in E; cbv zeta in E.
  - apply elem_of_list_to_map_2, list_elem_of_In in E.
    cbn [In] in E.
    destruct E as [E|[E|[E|[E|[E|[]]]]]]; injection E as <- <-;
      (split; [cbv [In PALETTE_ORDER]; tauto
              | split; [discriminate | apply extractTonalPalette_steps]]).
  - apply not_elem_of_list_to_map in E. intros H. apply E.
    apply list_elem_of_In. exact H.
Qed.

Example generatePalettes_no_error (eng : Engine) (sourceHct : Hct eng)
    (variant : SchemeVariant) :
  generatePalettes eng sourceHct variant !! "error" = None
  /\ In "error" PALETTE_ORDER.
Proof.
  split; [|cbv [In PALETTE_ORDER]; tauto].
  unfold generatePalettes. apply not_elem_of_list_to_map_1.
  intros H%list_elem_of_In. cbn in H. intuition discriminate.
Qed.

(* ===================================================================== *)
(** * The resolved configuration                                           *)
(* ===================================================================== *)

Lemma given_nonempty (o : option string) (d : string) : given o = Some d -> d <> "".
Proof.
  unfold given, truthy_text. destruct o as [[|c s]|]; try discriminate.
  intros [= <-]. discriminate.
Qed.

(** X18: in the configuration that [generateTokens] resolves, the output
    directory is never the empty text (an empty option or an empty
    directory of the user's configuration falls through to the next
    choice, the last one being ./tokens), a non-empty [output] option is
    the directory whatever the user's configuration says, and the format
    is the [format] option, oklch when there is none: the format of the
    user's configuration is never used. *)
Theorem resolveConfig_output_and_format (options : TokenGeneratorOptions)
    (seed : string) (c : ascii) (o : string) (f : option ColorFormat)
    (v : option SchemeVariant) (userConfig : option UserConfig) :
  dir (output (resolveConfig options)) <> ""
  /\ dir (output (resolveConfig
                    {| opt_seed := seed; opt_output := Some (String c o);
                       opt_format := f; opt_scheme := v;
                       opt_config := userConfig |})) = String c o
  /\ format (resolveConfig options) = over oklch (opt_format options).
Proof.
  split; [|split; reflexivity].
  unfold resolveConfig, mergeConfig. cbn [output dir field over u_output u_dir].
  destruct (given (opt_output options)) as [d|] eqn:E1.
  - exact (given_nonempty _ _ E1).
  - destruct (given (field _ _)) as [d|] eqn:E2; [exact (given_nonempty _ _ E2) | discriminate].
Qed.

Example resolveConfig_empty_output :
  dir (output (resolveConfig
                 {| opt_seed := "#769CDF"; opt_output := Some ""; opt_format := None;
                    opt_scheme := None;
                    opt_config :=
                      Some {| u_format := Some hex; u_prefixes := None;
                              u_output := Some {| u_dir := Some "";
                                                  u_paletteSubdir := Some "";
                                                  u_openpropsSubdir := None |};
                              u_openprops := None; u_semanticTokens := None |} |}))
  = "./tokens".
Proof. reflexivity. Qed.

(* ===================================================================== *)
(** * What the renderers read                                              *)
(* ===================================================================== *)

(** What [generatePalettesCSS] reads of a palette: its colours at the
    listed tone steps; and of the palettes: the listed names. *)
Definition read_tones (tones : gmap string string) : list (option string) :=
  map (fun step => tones !! step) TONE_STEPS.

Definition read_palettes (palettes : Palettes) : list (option (list (option string))) :=
  map (fun name => option_map read_tones (palettes !! name)) PALETTE_ORDER.

Section PalettesRead.

Variable lib : Culori.
Variable prefixes : Prefixes.
Variable format : ColorFormat.

Lemma rmap_agree {A B C} (f1 f2 : A -> result B) (v1 v2 : A -> C) (l : list A) :
  (forall a, v1 a = v2 a -> f1 a = f2 a) ->
  map v1 l = map v2 l -> rmap f1 l = rmap f2 l.
Proof.
  intros Hf. induction l as [|a l IH]; simpl; [reflexivity|].
  intros [= Ha Hl]. now rewrite (Hf a Ha), (IH Hl).
Qed.

Lemma palette_lines_read (paletteName : string) (tones1 tones2 : gmap string string) :
  read_tones tones1 = read_tones tones2 ->
  palette_lines lib prefixes format paletteName tones1
  = palette_lines lib prefixes format paletteName tones2.
Proof.
  intros H. unfold palette_lines. f_equal.
  apply (rmap_agree _ _ (fun step => tones1 !! step) (fun step => tones2 !! step));
    [|exact H].
  intros step E. now rewrite E.
Qed.

Lemma palettes_loop_read (palettes1 palettes2 : Palettes) (names : list string) :
  map (fun name => option_map read_tones (palettes1 !! name)) names
  = map (fun name => option_map read_tones (palettes2 !! name)) names ->
  forall first lines,
    palettes_loop lib palettes1 prefixes format names first lines
    = palettes_loop lib palettes2 prefixes format names first lines.
Proof.
  induction names as [|name names IH]; simpl; [reflexivity|].
  intros [= Hn Hrest] first lines.
  destruct (palettes1 !! name) as [tones1|], (palettes2 !! name) as [tones2|];
    try discriminate; [|now apply IH].
  assert (Ht : read_tones tones1 = read_tones tones2)
    by exact (f_equal (fun o => match o with Some x => x | None => [] end) Hn).
  rewrite (palette_lines_read name tones1 tones2 Ht).
  destruct (palette_lines lib prefixes format name tones2) as [rows|e]; [|reflexivity].
  cbn [rbind]. now apply IH.
Qed.

End PalettesRead.

(** X19: [generatePalettesCSS] reads of its palettes only the six listed
    names and, of each, the eighteen listed tone steps.  Two palette sets
    that agree there give the same text (or the same failure): a palette
    under another name and a tone at another step are never rendered and
    never make the call fail. *)
Theorem generatePalettesCSS_reads_listed (lib : Culori) (now : string)
    (palettes1 palettes2 : Palettes) (seed : string) (prefixes : Prefixes)
    (format : ColorFormat) :
  read_palettes palettes1 = read_palettes palettes2 ->
  generatePalettesCSS lib now palettes1 seed prefixes format
  = generatePalettesCSS lib now palettes2 seed prefixes format.
Proof.
  intros H. unfold generatePalettesCSS.
  destruct (hexToOklch lib seed) as [seedFormatted|e]; [|reflexivity].
  cbn [rbind]. now rewrite (palettes_loop_read lib prefixes format _ _ _ H).
Qed.

Definition two_tones : Palettes :=
  {[ "primary" := {[ "0" := "#000000"; "100" := "#FFFFFF" ]} ]}.

(** The same with a tone at an unlisted step and a palette under an
    unlisted name, neither of them a colour. *)
Definition two_tones_and_more : Palettes :=
  {[ "primary" := {[ "0" := "#000000"; "45" := "no colour"; "100" := "#FFFFFF" ]};
     "brand" := {[ "0" := "no colour" ]} ]}.

Lemma generatePalettesCSS_reads_listed_witness :
  generatePalettesCSS Fixture.culori "2024-01-02T03:04:05.678Z" two_tones
    "#769CDF" (prefixes DEFAULT_CONFIG) oklch
  = generatePalettesCSS Fixture.culori "2024-01-02T03:04:05.678Z" two_tones_and_more
      "#769CDF" (prefixes DEFAULT_CONFIG) oklch.
Proof.
  apply generatePalettesCSS_reads_listed. vm_compute. reflexivity.
Defined.

Example two_tones_rendered :
  is_ok (generatePalettesCSS Fixture.culori "2024-01-02T03:04:05.678Z" two_tones_and_more
           "#769CDF" (prefixes DEFAULT_CONFIG) oklch) = true.
Proof. vm_compute. reflexivity. Qed.

(** What [generateSemanticCSS] reads of a scheme: the colours of the
    roles of [COLOR_ROLE_MAP]; and of the semantic configuration: the
    eight listed categories. *)
Definition read_scheme (scheme : SchemeColors) : list (option string) :=
  map (fun r => scheme !! schemeKey r) COLOR_ROLE_MAP.

Definition read_semantic (sem : SemanticConfig) : list (option (gmap string string)) :=
  map (fun category => sem !! category.1) SEMANTIC_CATEGORIES.

Section SemanticRead.

Variable lib : Culori.
Variable host : Host.
Variable prefixes : Prefixes.
Variable format : ColorFormat.

Lemma color_tokens_read (light1 light2 dark1 dark2 : SchemeColors)
    (roles : list ColorRole) :
  map (fun r => light1 !! schemeKey r) roles = map (fun r => light2 !! schemeKey r) roles ->
  map (fun r => dark1 !! schemeKey r) roles = map (fun r => dark2 !! schemeKey r) roles ->
  forall currentGroup lines,
    color_tokens lib light1 dark1 prefixes format roles currentGroup lines
    = color_tokens lib light2 dark2 prefixes format roles currentGroup lines.
Proof.
  induction roles as [|r roles IH]; [reflexivity|].
  cbn [map]. intros [= Hl Hls] [= Hd Hds] currentGroup lines.
  cbn [color_tokens]. rewrite Hl, Hd.
  destruct (negb (truthy (light2 !! schemeKey r)) || negb (truthy (dark2 !! schemeKey r)));
    [now apply IH|].
  destruct (formatColor lib (default "" (light2 !! schemeKey r)) format); [|reflexivity].
  destruct (formatColor lib (default "" (dark2 !! schemeKey r)) format); [|reflexivity].
  cbn [rbind]. now apply IH.
Qed.

Lemma category_tokens_read (sem1 sem2 : SemanticConfig) (categories : list (string * string)) :
  map (fun category => sem1 !! category.1) categories
  = map (fun category => sem2 !! category.1) categories ->
  map (category_tokens host sem1 prefixes) categories
  = map (category_tokens host sem2 prefixes) categories.
Proof.
  induction categories as [|category categories IH]; [reflexivity|].
  cbn [map]. intros [= Hc Hcs]. rewrite (IH Hcs). f_equal.
  unfold category_tokens. now rewrite Hc.
Qed.

End SemanticRead.

(** X20: [generateSemanticCSS] reads of the two schemes only the roles of
    [COLOR_ROLE_MAP] and of the semantic configuration only the eight
    listed categories.  Inputs that agree there give the same text (or
    the same failure): a scheme colour of another role, such as the fixed
    colours of a generated scheme, and a category under another name are
    never rendered. *)
Theorem generateSemanticCSS_reads_listed (lib : Culori) (host : Host) (now : string)
    (light1 light2 dark1 dark2 : SchemeColors) (sem1 sem2 : SemanticConfig)
    (prefixes : Prefixes) (format : ColorFormat) (seedHue : Q) :
  read_scheme light1 = read_scheme light2 ->
  read_scheme dark1 = read_scheme dark2 ->
  read_semantic sem1 = read_semantic sem2 ->
  generateSemanticCSS lib host now light1 dark1 sem1 prefixes format seedHue
  = generateSemanticCSS lib host now light2 dark2 sem2 prefixes format seedHue.
Proof.
  intros Hl Hd Hs. unfold generateSemanticCSS.
  rewrite (color_tokens_read lib prefixes format light1 light2 dark1 dark2 _ Hl Hd).
  now rewrite (category_tokens_read host prefixes sem1 sem2 _ Hs).
Qed.

Definition one_role : SchemeColors := {[ "primary" := "#769CDF" ]}.

Definition one_category : SemanticConfig := {[ "space" := {[ "sm" := "size-3" ]} ]}.

Lemma generateSemanticCSS_reads_listed_witness :
  generateSemanticCSS Fixture.culori Fixture.host "2024-01-02T03:04:05.678Z"
    one_role one_role one_category (prefixes DEFAULT_CONFIG) oklch 250%Q
  = generateSemanticCSS Fixture.culori Fixture.host "2024-01-02T03:04:05.678Z"
      (<["primaryFixed" := "no colour"]> one_role) one_role
      (<["opacity" := {[ "half" := "0.5" ]}]> one_category)
      (prefixes DEFAULT_CONFIG) oklch 250%Q.
Proof.
  apply generateSemanticCSS_reads_listed; vm_compute; reflexivity.
Defined.
